(** * GMCC calendar scraper: the extraction pipeline of [api/classes]

    A shallow embedding of [src/api/classes.ts] (the cheerio-based handler and
    its helpers) and the properties of its specification.

    Conventions of the embedding:
    - a JavaScript string is the list of its UTF-16 code units ([jsstring]);
    - a regular-expression literal is a value of [Regex.re], run by a
      backtracking matcher that follows the order of ECMAScript's matcher
      (leftmost start, greedy quantifiers, alternatives left to right);
    - the document that [cheerio.load] builds is the input: a tree of
      [Dom.node]s, queried by a small model of the selectors the code uses;
    - a [Date] is its time value (milliseconds since the epoch, [Z], or
      [NaN] for the invalid date where the code can meet one); the time zone
      of the host is a parameter [tz], the function [LocalTZA] of ECMA-262
      from instants and local times to offsets, of which a fixed offset is
      one case;
    - an ISO-8601 string made by [toISOString] is carried as the time value it
      denotes (the [Date] constructor maps such a string back to that value),
      and printed by [HostDate.toISOString] where the text itself is needed. *)

From Stdlib Require Import String Ascii ZArith NArith List Bool Lia.
Import ListNotations.

Set Implicit Arguments.
Set Warnings "-register-all".

(* ------------------------------------------------------------------------- *)
(** ** JavaScript strings *)

Module Js.

Definition jsstring := list N.

(** A literal of the source, as code units. *)
Definition u (s : string) : jsstring := map N_of_ascii (list_ascii_of_string s).

Definition between (lo hi c : N) : bool := ((lo <=? c) && (c <=? hi))%N.

(** [\d] *)
Definition isDigit (c : N) : bool := between 48 57 c.

(** [\w]: [A-Za-z0-9_] *)
Definition isWordChar (c : N) : bool :=
  between 65 90 c || between 97 122 c || between 48 57 c || (c =? 95)%N.

(** [\s], and the set [trim] strips: WhiteSpace and LineTerminator of
    ECMA-262. *)
Definition isWhite (c : N) : bool :=
  between 9 13 c || (c =? 32)%N || (c =? 160)%N || (c =? 5760)%N
  || between 8192 8202 c || (c =? 8232)%N || (c =? 8233)%N || (c =? 8239)%N
  || (c =? 8287)%N || (c =? 12288)%N || (c =? 65279)%N.

Fixpoint eqb (a b : jsstring) : bool :=
  match a, b with
  | [], [] => true
  | x :: a', y :: b' => (x =? y)%N && eqb a' b'
  | _, _ => false
  end.

(** [!s] for a string: the empty string is the only falsy one. *)
Definition falsy (s : jsstring) : bool :=
  match s with [] => true | _ => false end.

(** [a || b] on strings. *)
Definition orElse (a b : jsstring) : jsstring := if falsy a then b else a.

Fixpoint startsWith (s p : jsstring) {struct p} : bool :=
  match p, s with
  | [], _ => true
  | x :: p', y :: s' => (x =? y)%N && startsWith s' p'
  | _ :: _, [] => false
  end.

(** [s.includes(k)] *)
Fixpoint includes (s k : jsstring) : bool :=
  startsWith s k || match s with [] => false | _ :: s' => includes s' k end.

(** [toLowerCase], one code unit at a time.  The table covers Basic Latin and
    Latin-1, and the two code points outside Basic Latin whose lower case
    lands in it (U+0130, U+212A); every other code unit is kept.  Those have
    no lower case inside Basic Latin, so no keyword and no [\b] of this
    program can tell the difference. *)
Definition lowerUnit (c : N) : jsstring :=
  if between 65 90 c then [c + 32]%N
  else if between 192 222 c && negb (c =? 215)%N then [c + 32]%N
  else if (c =? 304)%N then [105; 775]%N
  else if (c =? 8490)%N then [107]%N
  else if (c =? 8491)%N then [229]%N
  else [c].

Definition toLowerCase (s : jsstring) : jsstring := flat_map lowerUnit s.

(** [s.replace(/C+/g, by)] for a character class [C]: every maximal run of
    [C] becomes one copy of [by]. *)
Fixpoint replaceRuns (p : N -> bool) (by_ : jsstring) (inRun : bool)
  (s : jsstring) : jsstring :=
  match s with
  | [] => []
  | c :: s' =>
      if p c then (if inRun then [] else by_) ++ replaceRuns p by_ true s'
      else c :: replaceRuns p by_ false s'
  end.

Fixpoint trimStart (s : jsstring) : jsstring :=
  match s with
  | c :: s' => if isWhite c then trimStart s' else s
  | [] => []
  end.

Definition trimEnd (s : jsstring) : jsstring := rev (trimStart (rev s)).

Definition trim (s : jsstring) : jsstring := trimEnd (trimStart s).

(** [s.slice(0, n)] *)
Definition slice0 (n : nat) (s : jsstring) : jsstring := firstn n s.

(** [s.split("\n")] *)
Fixpoint splitOn (sep : N) (cur : jsstring) (s : jsstring) : list jsstring :=
  match s with
  | [] => [rev cur]
  | c :: s' =>
      if (c =? sep)%N then rev cur :: splitOn sep [] s'
      else splitOn sep (c :: cur) s'
  end.

Definition split (sep : N) (s : jsstring) : list jsstring := splitOn sep [] s.

(** The last code unit of [w], or [prev] when [w] is empty. *)
Fixpoint lastOr (prev : option N) (w : jsstring) : option N :=
  match w with
  | [] => prev
  | c :: w' => lastOr (Some c) w'
  end.

End Js.

Import Js.

(* ------------------------------------------------------------------------- *)
(** ** Regular expressions *)

Module Regex.

(** The fragment of the pattern syntax the program uses.  A quantifier is
    only ever applied to a character class; the [i] flag is folded into the
    classes of the pattern ([ci]). *)
Inductive re : Type :=
| Eps
| Chr (p : N -> bool)
| Rep (p : N -> bool) (lo : nat) (hi : option nat)
| Seq (a b : re)
| Alt (a b : re)
| Grp (i : nat) (a : re)
| Bol
| WordB.

Definition caps := list (nat * jsstring).

Definition isWordOpt (c : option N) : bool :=
  match c with Some x => isWordChar x | None => false end.

Definition atLimit (hi : option nat) : bool :=
  match hi with Some O => true | _ => false end.

Section Matcher.

Variable R : Type.

(** A continuation receives the code unit before the current position, the
    rest of the input and the captures so far. *)
Definition cont := option N -> jsstring -> caps -> option R.

(** Greedy [C{lo,hi}]: take one more while allowed, give back on failure. *)
Fixpoint rep (p : N -> bool) (lo : nat) (hi : option nat) (prev : option N)
  (s : jsstring) (cs : caps) (k : cont) {struct s} : option R :=
  let stop := match lo with O => k prev s cs | S _ => None end in
  match s with
  | c :: s' =>
      if p c && negb (atLimit hi) then
        match rep p (pred lo) (option_map pred hi) (Some c) s' cs k with
        | Some r => Some r
        | None => stop
        end
      else stop
  | [] => stop
  end.

Fixpoint mt (r : re) (prev : option N) (s : jsstring) (cs : caps) (k : cont)
  {struct r} : option R :=
  match r with
  | Eps => k prev s cs
  | Chr p =>
      match s with
      | c :: s' => if p c then k (Some c) s' cs else None
      | [] => None
      end
  | Rep p lo hi => rep p lo hi prev s cs k
  | Seq a b => mt a prev s cs (fun prev' s' cs' => mt b prev' s' cs' k)
  | Alt a b =>
      match mt a prev s cs k with
      | Some x => Some x
      | None => mt b prev s cs k
      end
  | Grp i a =>
      mt a prev s cs
        (fun prev' s' cs' =>
           k prev' s' ((i, firstn (length s - length s') s) :: cs'))
  | Bol => match prev with None => k prev s cs | Some _ => None end
  | WordB =>
      if xorb (isWordOpt prev) (isWordOpt (hd_error s)) then k prev s cs
      else None
  end.

End Matcher.

(** What [exec] and [String.prototype.match] return for a pattern without
    the [g] flag. *)
Record result := { whole : jsstring; groups : caps }.

Definition matchAt (r : re) (prev : option N) (s : jsstring) : option result :=
  mt r prev s []
    (fun _ rest cs =>
       Some {| whole := firstn (length s - length rest) s; groups := cs |}).

(** Leftmost match: the start positions are tried from left to right. *)
Fixpoint execFrom (r : re) (prev : option N) (s : jsstring) : option result :=
  match matchAt r prev s with
  | Some m => Some m
  | None =>
      match s with
      | c :: s' => execFrom r (Some c) s'
      | [] => None
      end
  end.

(** [s.match(r)] *)
Definition exec (r : re) (s : jsstring) : option result := execFrom r None s.

(** [r.test(s)] *)
Definition test (r : re) (s : jsstring) : bool :=
  match exec r s with Some _ => true | None => false end.

(** [m[i]] for a group that took part in the match. *)
Fixpoint group (i : nat) (cs : caps) : jsstring :=
  match cs with
  | [] => []
  | (j, w) :: cs' => if Nat.eqb i j then w else group i cs'
  end.

(** Pattern builders. *)
Definition lit1 (c : N) : re := Chr (N.eqb c).

Fixpoint lit (w : jsstring) : re :=
  match w with
  | [] => Eps
  | [c] => lit1 c
  | c :: w' => Seq (lit1 c) (lit w')
  end.

(** A Basic Latin letter under the [i] flag: the letter in either case.
    (Canonicalization never maps a code unit above 127 onto one below.) *)
Definition ci (lower : N) : re :=
  Chr (fun c => (c =? lower)%N || (c =? lower - 32)%N).

Fixpoint seqs (rs : list re) : re :=
  match rs with
  | [] => Eps
  | [r] => r
  | r :: rs' => Seq r (seqs rs')
  end.

Fixpoint alts (rs : list re) : re :=
  match rs with
  | [] => Chr (fun _ => false)
  | [r] => r
  | r :: rs' => Alt r (alts rs')
  end.

Definition digits (lo hi : nat) : re := Rep isDigit lo (Some hi).
Definition ws0 : re := Rep isWhite 0 None.

End Regex.

Import Regex.

(* ------------------------------------------------------------------------- *)
(** ** The document tree and the selectors of cheerio *)

Module Dom.

(** What [cheerio.load] returns: elements with their attributes, text and
    comments.  Tag and attribute names are in lower case, as the HTML parser
    leaves them. *)
Inductive node : Type :=
| Text (data : jsstring)
| Comment (data : jsstring)
| Element (name : jsstring) (attribs : list (jsstring * jsstring))
    (children : list node).

(** The children of the document root. *)
Definition document := list node.

Definition children (n : node) : list node :=
  match n with Element _ _ cs => cs | _ => [] end.

(** [$(el).text()] for one element: the text of its descendants, in order. *)
Fixpoint textContent (n : node) : jsstring :=
  match n with
  | Text d => d
  | Comment _ => []
  | Element _ _ cs => flat_map textContent cs
  end.

(** [attribs[name]] *)
Fixpoint getAttr (name : jsstring) (attribs : list (jsstring * jsstring))
  : option jsstring :=
  match attribs with
  | [] => None
  | (n, v) :: rest => if Js.eqb n name then Some v else getAttr name rest
  end.

(** The whitespace-separated tokens of an attribute value. *)
Fixpoint tokensFrom (cur : jsstring) (s : jsstring) : list jsstring :=
  match s with
  | [] => match cur with [] => [] | _ => [rev cur] end
  | c :: s' =>
      if isWhite c then
        match cur with
        | [] => tokensFrom [] s'
        | _ => rev cur :: tokensFrom [] s'
        end
      else tokensFrom (c :: cur) s'
  end.

Definition tokens (s : jsstring) : list jsstring := tokensFrom [] s.

(** One condition of a compound selector. *)
Inductive atom : Type :=
| Tag (name : jsstring)                      (* [name] *)
| Class (name : jsstring)                    (* [.name] *)
| HasAttr (name : jsstring)                  (* [[name]] *)
| AttrContains (name value : jsstring).      (* [[name*="value"]] *)

Definition matchesAtom (a : atom) (n : node) : bool :=
  match n with
  | Element name attribs _ =>
      match a with
      | Tag t => Js.eqb name t
      | Class c =>
          match getAttr (u "class") attribs with
          | Some v => existsb (Js.eqb c) (tokens v)
          | None => false
          end
      | HasAttr a' =>
          match getAttr a' attribs with Some _ => true | None => false end
      | AttrContains a' v =>
          match getAttr a' attribs with
          | Some w => includes w v
          | None => false
          end
      end
  | _ => false
  end.

(** A compound selector is a conjunction of conditions; a chain is a list of
    compounds joined by the descendant combinator; a selector is a
    comma-separated list of chains. *)
Definition compound := list atom.
Definition chain := list compound.
Definition selector := list chain.

Definition matchesCompound (c : compound) (n : node) : bool :=
  forallb (fun a => matchesAtom a n) c.

(** [n] is selected by a chain of which only the last compound is left. *)
Definition selectsHere (n : node) (ch : chain) : bool :=
  match ch with
  | [c] => matchesCompound c n
  | _ => false
  end.

(** What is left of a chain below [n]: an ancestor compound that [n]
    satisfies is consumed. *)
Definition advance (n : node) (ch : chain) : chain :=
  match ch with
  | c :: (_ :: _) as rest => if matchesCompound c n then rest else ch
  | _ => ch
  end.

(** The elements of the subtree of [n] that the selector takes, in document
    order, each once. *)
Fixpoint walk (sel : selector) (n : node) {struct n} : list node :=
  match n with
  | Element _ _ cs =>
      (if existsb (selectsHere n) sel then [n] else [])
        ++ flat_map (walk (map (advance n) sel)) cs
  | _ => []
  end.

(** [$(sel)] on the loaded document. *)
Definition select (sel : selector) (doc : document) : list node :=
  flat_map (walk sel) doc.

(** [$(el).find(sel)]: the selector is scoped to [el], so the whole chain is
    matched below it. *)
Definition find (sel : selector) (el : node) : list node :=
  flat_map (walk sel) (children el).

(** A cheerio selection of at most one element ([.eq(i)], [.first()]). *)
Definition eq (i : nat) (sel : list node) : option node := nth_error sel i.
Definition first (sel : list node) : option node := hd_error sel.

(** [.text()] of such a selection: empty when nothing is selected. *)
Definition text (sel : option node) : jsstring :=
  match sel with Some n => textContent n | None => [] end.

(** [.find(sel)] of such a selection. *)
Definition findIn (sel : selector) (ctx : option node) : list node :=
  match ctx with Some n => find sel n | None => [] end.

(** [.attr(name)]: [None] is [undefined]. *)
Definition attr (name : jsstring) (sel : option node) : option jsstring :=
  match sel with
  | Some (Element _ attribs _) => getAttr name attribs
  | _ => None
  end.

Definition tag (name : string) : selector := [[[Tag (u name)]]].

End Dom.

Import Dom.

(* ------------------------------------------------------------------------- *)
(** ** The host's [Date] *)

Module HostDate.

Local Open Scope Z_scope.

Definition msPerDay : Z := 86400000.
Definition msPerHour : Z := 3600000.
Definition msPerMinute : Z := 60000.

(** Day number (days since 1970-01-01) of a date of the proleptic Gregorian
    calendar; [m] counts from 1.  A day of the month beyond the month's end
    runs into the next month, as [MakeDay] of ECMA-262 has it. *)
Definition days_from_civil (y m d : Z) : Z :=
  let y' := if m <=? 2 then y - 1 else y in
  let era := y' / 400 in
  let yoe := y' - era * 400 in
  let mp := if m >? 2 then m - 3 else m + 9 in
  let doy := (153 * mp + 2) / 5 + d - 1 in
  let doe := yoe * 365 + yoe / 4 - yoe / 100 + doy in
  era * 146097 + doe - 719468.

(** Year, month (from 1) and day of the month of a day number. *)
Definition civil_from_days (z : Z) : Z * Z * Z :=
  let z' := z + 719468 in
  let era := z' / 146097 in
  let doe := z' - era * 146097 in
  let yoe := (doe - doe / 1460 + doe / 36524 - doe / 146096) / 365 in
  let doy := doe - (365 * yoe + yoe / 4 - yoe / 100) in
  let mp := (5 * doy + 2) / 153 in
  let d := doy - (153 * mp + 2) / 5 + 1 in
  let m := if mp <? 10 then mp + 3 else mp - 9 in
  let y := yoe + era * 400 in
  (if m <=? 2 then y + 1 else y, m, d).

(** The time zone of the host.  [LocalTZA tz t isUTC] is the offset of local
    time from UTC, in milliseconds: the offset in force at the instant [t]
    when [isUTC], and the offset by which the local time [t] is read
    otherwise (ECMA-262, LocalTZA). *)
Record zone : Type := { LocalTZA : Z -> bool -> Z }.

(** A zone whose offset never changes. *)
Definition fixed (offset : Z) : zone := {| LocalTZA := fun _ _ => offset |}.

(** The zone of New York as it was in 2024: five hours behind UTC, four from
    2024-03-10 07:00 UTC to 2024-11-03 06:00 UTC.  A local time that the
    change of March skips or that of November repeats is read with the
    offset before the change. *)
Definition newYork2024 : zone :=
  {| LocalTZA := fun t isUTC =>
       if isUTC then
         if (1710054000000 <=? t) && (t <? 1730613600000)
         then -14400000 else -18000000
       else
         if (1710039600000 <=? t) && (t <? 1730599200000)
         then -14400000 else -18000000 |}.

Section Zone.

Variable tz : zone.

(** [LocalTime(t)] and [UTC(t)] of ECMA-262. *)
Definition localTime (t : Z) : Z := t + LocalTZA tz t true.
Definition utc (local : Z) : Z := local - LocalTZA tz local false.

Definition Day (local : Z) : Z := local / msPerDay.
Definition TimeWithinDay (local : Z) : Z := local mod msPerDay.

Definition getHours (t : Z) : Z := TimeWithinDay (localTime t) / msPerHour.
Definition getMinutes (t : Z) : Z :=
  (TimeWithinDay (localTime t) mod msPerHour) / msPerMinute.

(** 0 is Sunday; day number 0 was a Thursday. *)
Definition getDay (t : Z) : Z := (Day (localTime t) + 4) mod 7.

Definition getDate (t : Z) : Z :=
  let '(_, _, d) := civil_from_days (Day (localTime t)) in d.

(** [x.setHours(0,0,0,0)] *)
Definition setHours0 (t : Z) : Z := utc (Day (localTime t) * msPerDay).

(** [x.setDate(dt)]: the [dt]-th day counted from the first of the month of
    [x], at the same local time of day. *)
Definition setDate (t : Z) (dt : Z) : Z :=
  let '(y, m, _) := civil_from_days (Day (localTime t)) in
  utc ((days_from_civil y m 1 + dt - 1) * msPerDay
       + TimeWithinDay (localTime t)).

(** The local time value of a date and a time of day. *)
Definition localOf (y m d hh mi : Z) : Z :=
  days_from_civil y m d * msPerDay + hh * msPerHour + mi * msPerMinute.

End Zone.

(** A run of digits and its value. *)
Fixpoint readDigits (acc : Z) (s : jsstring) : Z * jsstring :=
  match s with
  | c :: s' =>
      if isDigit c then readDigits (acc * 10 + (Z.of_N c - 48)) s'
      else (acc, s)
  | [] => (acc, [])
  end.

Definition readNumber (s : jsstring) : option (Z * jsstring) :=
  match s with
  | c :: _ => if isDigit c then Some (readDigits 0 s) else None
  | [] => None
  end.

Definition expect (c : N) (s : jsstring) : option jsstring :=
  match s with
  | x :: s' => if (x =? c)%N then Some s' else None
  | [] => None
  end.

(** The meridiem keyword at the end of the text: hour offset 0 or 12. *)
Definition readMeridiem (s : jsstring) : option Z :=
  match s with
  | [a; m] =>
      if ((m =? 77) || (m =? 109))%N then
        if ((a =? 65) || (a =? 97))%N then Some 0
        else if ((a =? 80) || (a =? 112))%N then Some 12
        else None
      else None
  | _ => None
  end.

Definition bind {A B : Type} (x : option A) (f : A -> option B) : option B :=
  match x with Some a => f a | None => None end.

Notation "'do' x <- e ; k" := (bind e (fun x => k))
  (at level 10, x pattern, e at level 100, k at level 200).

(** The date and time of day that the host's date parser (V8's, for text that
    is not in the ISO format) reads from ["M/D/Y h:mm AM"].  Three numbers
    separated by [/] are month, day and year unless the first cannot be a day
    of a month, and then year, month and day; a year below 50 is in 20xx, one
    below 100 in 19xx; months run to 12, days to 31, hours with a meridiem to
    12, minutes to 59.  The meridiem has to be set off from the minutes by
    white space.  Text of any other form is not produced by this program;
    the model answers [None] for it. *)
Definition readDateTime (s : jsstring) : option (Z * Z * Z * Z * Z) :=
  do (n1, s) <- readNumber s;
  do s <- expect 47 s;
  do (n2, s) <- readNumber s;
  do s <- expect 47 s;
  do (n3, s) <- readNumber s;
  do s <- expect 32 s;
  do (hh, s) <- readNumber s;
  do s <- expect 58 s;
  do (mi, s) <- readNumber s;
  do s <- expect 32 s;
  do off <- readMeridiem s;
  let '(y, m, d) :=
    if (1 <=? n1) && (n1 <=? 31) then (n3, n1, n2) else (n1, n2, n3) in
  let y := if y <=? 49 then y + 2000 else if y <=? 99 then y + 1900 else y in
  if (1 <=? m) && (m <=? 12) && (1 <=? d) && (d <=? 31)
     && (hh <=? 12) && (mi <=? 59)
  then Some (y, m, d, hh mod 12 + off, mi)
  else None.

(** [new Date(s)] for such a text: [None] is the invalid date. *)
Definition parse (tz : zone) (s : jsstring) : option Z :=
  do (y, m, d, hh, mi) <- readDateTime s;
  Some (utc tz (localOf y m d hh mi)).

(** [n] in decimal, on [w] digits. *)
Fixpoint pad (w : nat) (n : Z) : jsstring :=
  match w with
  | O => []
  | S w' => pad w' (n / 10) ++ [Z.to_N (48 + n mod 10)]
  end.

(** [d.toISOString()] *)
Definition toISOString (t : Z) : jsstring :=
  let '(y, m, d) := civil_from_days (t / msPerDay) in
  let r := t mod msPerDay in
  (if (0 <=? y) && (y <=? 9999) then pad 4 y
   else (if y <? 0 then u "-" else u "+") ++ pad 6 (Z.abs y))
    ++ u "-" ++ pad 2 m ++ u "-" ++ pad 2 d ++ u "T"
    ++ pad 2 (r / msPerHour) ++ u ":"
    ++ pad 2 (r mod msPerHour / msPerMinute) ++ u ":"
    ++ pad 2 (r mod msPerMinute / 1000) ++ u "."
    ++ pad 3 (r mod 1000) ++ u "Z".

End HostDate.

Import HostDate.

(* ------------------------------------------------------------------------- *)
(** ** The program: [src/api/classes.ts] *)

(** *** Data *)

(** The records the two parsers push.  [startISO] and [endISO] hold the time
    values of the ISO strings; [url] and [location] are [None] for [null]
    (and for [undefined]). *)
Record RawEvent := {
  cal : jsstring;
  title : jsstring;
  startISO : Z;
  endISO : Z;
  url : option jsstring;
  location : option jsstring
}.

Record Idx := { idxDate : Z; idxTime : Z; idxAct : Z; idxLoc : Z }.

(** [diag]: [idx] is [None] while it is the empty object; [fallbackUsed] is
    [false] while the property is absent. *)
Record Diag := {
  foundTable : bool;
  headers : list jsstring;
  idx : option Idx;
  fallbackUsed : bool;
  fallbackCount : option nat
}.

Record Parsed := { events : list RawEvent; diag : Diag }.

Record DateTime := { date : jsstring; start : jsstring; end_ : jsstring }.

(** A number that is an integer or [NaN].  The time value of a [Date] is
    such a number, [NaN] for the invalid date. *)
Inductive number : Type :=
| Finite (z : Z)
| NaN.

Record Color := { bg : jsstring; text_ : jsstring; border : jsstring }.

Record GridEvent := {
  id : jsstring;
  name : jsstring;
  dayIndex : number;
  startMinutes : Z;
  endMinutes : Z;
  gridUrl : option jsstring;
  color : Color
}.

Record Bucket := { label : jsstring; gridEvents : list GridEvent }.

(** The object [CALS]: its keys in insertion order. *)
Definition Cals := list (jsstring * Bucket).

(** A call either returns or throws (and the handler answers 500). *)
Inductive outcome (A : Type) : Type :=
| Returns (a : A)
| Throws.

Arguments Throws {A}.

Definition PALETTE : list (jsstring * (jsstring * jsstring * jsstring)) :=
  [ (u "blue",   (u "bg-blue-100", u "text-blue-800", u "border-blue-500"));
    (u "orange", (u "bg-orange-100", u "text-orange-800", u "border-orange-500"));
    (u "pink",   (u "bg-pink-100", u "text-pink-800", u "border-pink-500"));
    (u "gray",   (u "bg-gray-200", u "text-gray-800", u "border-gray-500")) ].

(** [obj[key]] on an object used as a table: [None] is [undefined]. *)
Fixpoint lookup {A : Type} (key : jsstring) (obj : list (jsstring * A))
  : option A :=
  match obj with
  | [] => None
  | (k, v) :: rest => if Js.eqb k key then Some v else lookup key rest
  end.

(** *** The regular expressions of the source *)

(** [/^https?:\/\//i] *)
Definition re_scheme : re :=
  seqs [Bol; ci 104; ci 116; ci 116; ci 112; Rep (fun c => (c =? 115) || (c =? 83))%N 0 (Some 1);
        lit (u "://")].

(** [\d{1,2}\/\d{1,2}\/\d{4}] *)
Definition re_date_body : re :=
  seqs [digits 1 2; lit1 47; digits 1 2; lit1 47; digits 4 4].

(** [/\d{1,2}\/\d{1,2}\/\d{4}/] *)
Definition re_date : re := re_date_body.

(** [/\b\d{1,2}\/\d{1,2}\/\d{4}\b/] *)
Definition re_date_loose : re := seqs [WordB; re_date_body; WordB].

(** [[AP]] and [M] under the [i] flag. *)
Definition isAP (c : N) : bool :=
  ((c =? 65) || (c =? 80) || (c =? 97) || (c =? 112))%N.

(** [\d{1,2}:\d{2}\s*[AP]M] under the [i] flag. *)
Definition re_clock : re :=
  seqs [digits 1 2; lit1 58; digits 2 2; ws0; Chr isAP; ci 109].

(** [[-–—]]: hyphen-minus, en dash (U+2013), em dash (U+2014). *)
Definition isDash (c : N) : bool := ((c =? 45) || (c =? 8211) || (c =? 8212))%N.

(** [/(\d{1,2}:\d{2}\s*[AP]M)\s*[-–—]\s*(\d{1,2}:\d{2}\s*[AP]M)/i] *)
Definition re_times : re :=
  seqs [Grp 1 re_clock; ws0; Chr isDash; ws0; Grp 2 re_clock].

(** [/\d{1,2}:\d{2}\s*[AP]M/i] *)
Definition re_time : re := re_clock.

(** [/\b(k1|k2|...)\b/] *)
Definition re_words (ks : list jsstring) : re :=
  seqs [WordB; Grp 1 (alts (map lit ks)); WordB].

Definition aquaticsWords : list jsstring :=
  [u "aqua"; u "water"; u "swim"; u "pool"].
Definition courtWords : list jsstring :=
  [u "pickleball"; u "basketball"; u "volleyball"; u "court"].
Definition communityWords : list jsstring :=
  [u "yoga"; u "coffee"; u "teen"; u "community"; u "wellness"].

(** *** Small utilities *)

(** [s.replace(/\s+/g, by)] *)
Definition replaceWs (by_ : jsstring) (s : jsstring) : jsstring :=
  replaceRuns isWhite by_ false s.

Definition clean (s : jsstring) : jsstring := trim (replaceWs (u " ") s).

(** [Array.prototype.findIndex] *)
Fixpoint findIndex {A : Type} (f : A -> bool) (l : list A) : Z :=
  match l with
  | [] => -1
  | x :: l' =>
      if f x then 0
      else let r := findIndex f l' in if (r <? 0)%Z then -1 else (r + 1)%Z
  end.

Definition findHeader (headers : list jsstring) (keys : list jsstring) : Z :=
  findIndex (fun h => existsb (fun k => includes h k) keys) headers.

(** [href] is [None] when [attr] found nothing. *)
Definition absolutize (href : option jsstring) (baseOrigin : jsstring)
  : option jsstring :=
  match href with
  | None => None
  | Some h =>
      if falsy h then None
      else if test re_scheme h then Some h
      else if falsy baseOrigin then Some h
      else Some (baseOrigin ++ (if startsWith h (u "/") then [] else u "/") ++ h)
  end.

Definition mkDateTime (d t : result) : DateTime :=
  {| date := whole d;
     start := replaceWs (u " ") (group 1 (groups t));
     end_ := replaceWs (u " ") (group 2 (groups t)) |}.

Definition parseDateTime (dateText timeText : jsstring) : option DateTime :=
  let date := exec re_date (orElse dateText []) in
  let times := exec re_times (orElse timeText (orElse dateText [])) in
  match date, times with
  | Some d, Some t => Some (mkDateTime d t)
  | _, _ => None
  end.

Definition parseDateTimeLoose (text : jsstring) : option DateTime :=
  let date := exec re_date_loose (orElse text []) in
  let times := exec re_times (orElse text []) in
  match date, times with
  | Some d, Some t => Some (mkDateTime d t)
  | _, _ => None
  end.

(** [None] is [null]; the ISO string is carried as its time value. *)
Definition toISO (tz : zone) (s : jsstring) : option Z := HostDate.parse tz s.

(** [loc || ""] *)
Definition orEmpty (loc : option jsstring) : jsstring :=
  match loc with Some l => l | None => [] end.

Definition guessCal (title : jsstring) (loc : option jsstring) : jsstring :=
  let t := toLowerCase (title ++ u " " ++ orEmpty loc) in
  if test (re_words aquaticsWords) t then u "Aquatics"
  else if test (re_words courtWords) t then u "Court Sports"
  else if test (re_words communityWords) t then u "Community"
  else u "Schedule".

Definition colorForCal (cal : jsstring) : jsstring :=
  if Js.eqb cal (u "Aquatics") then u "blue"
  else if Js.eqb cal (u "Court Sports") then u "orange"
  else if Js.eqb cal (u "Community") then u "pink"
  else u "gray".

(** [getMonday] of a valid date, by its time value. *)
Definition getMonday (tz : zone) (d : Z) : Z :=
  let x := d in
  let day := ((getDay tz x + 6) mod 7)%Z in
  let x := setHours0 tz x in
  setDate tz x (getDate tz x - day).

(** [getMonday] of any date.  Of the invalid date [getDay] and [getDate]
    answer [NaN], and [setHours] and [setDate] leave it invalid. *)
Definition mondayOf (tz : zone) (d : number) : number :=
  match d with
  | Finite t => Finite (getMonday tz t)
  | NaN => NaN
  end.

(** *** The structured parser *)

(** ["thead th"], ["tbody tr"], ["a[href]"] *)
Definition sel_thead_th : selector := [[[Tag (u "thead")]; [Tag (u "th")]]].
Definition sel_tbody_tr : selector := [[[Tag (u "tbody")]; [Tag (u "tr")]]].
Definition sel_a_href : selector := [[[Tag (u "a"); HasAttr (u "href")]]].

Definition hasHead (el : node) : bool :=
  (3 <=? length (find sel_thead_th el))%nat.
Definition hasBody (el : node) : bool :=
  (1 <=? length (find sel_tbody_tr el))%nat.

(** The body of the loop over [$("table")]; [table] is [$table]. *)
Definition pickTable (table : option node) (el : node) : option node :=
  if hasHead el && hasBody el
     && match table with None => true | Some _ => false end
  then Some el else table.

Definition selectTable (doc : document) : option node :=
  fold_left pickTable (select (tag "table") doc) None.

Definition headerTexts (table : node) : list jsstring :=
  fold_left (fun headers th => headers ++ [toLowerCase (clean (textContent th))])
    (find sel_thead_th table) [].

Definition resolveIdx (headers : list jsstring) : Idx :=
  {| idxDate := findHeader headers [u "date"];
     idxTime := findHeader headers [u "time"; u "hours"; u "start"];
     idxAct := findHeader headers
                 [u "activity"; u "class"; u "title"; u "description";
                  u "program"; u "course"];
     idxLoc := findHeader headers [u "location"; u "room"; u "facility"] |}.

(** [$tds.eq(i)] for an index that the caller found non-negative. *)
Definition cell (tds : list node) (i : Z) : option node := eq (Z.to_nat i) tds.

(** [dateText], [timeText], [$actCell], [title] and [loc] of a row with the
    cells [$tds]. *)
Definition dateTextOf (ix : Idx) (tds : list node) : jsstring :=
  if (idxDate ix >=? 0)%Z then clean (text (cell tds (idxDate ix))) else [].

Definition timeTextOf (ix : Idx) (tds : list node) : jsstring :=
  if (idxTime ix >=? 0)%Z then clean (text (cell tds (idxTime ix))) else [].

Definition actCellOf (ix : Idx) (tds : list node) : option node :=
  if (idxAct ix >=? 0)%Z then cell tds (idxAct ix) else eq 0 tds.

Definition titleOf (actCell : option node) : jsstring :=
  let titleRaw := clean (text actCell) in
  orElse titleRaw (clean (text (first (findIn (tag "a") actCell)))).

Definition locOf (ix : Idx) (tds : list node) : option jsstring :=
  if (idxLoc ix >=? 0)%Z then Some (clean (text (cell tds (idxLoc ix))))
  else None.

(** [a || b] on the result of the two normalizers. *)
Definition orLoose (a b : option DateTime) : option DateTime :=
  match a with Some _ => a | None => b end.

(** [dt] of a row. *)
Definition dateTimeOf (ix : Idx) (tds : list node) : option DateTime :=
  orLoose (parseDateTime (dateTextOf ix tds) (timeTextOf ix tds))
          (parseDateTimeLoose (text (actCellOf ix tds))).

(** The two ISO strings of a normalized date and time range, when both
    parse. *)
Definition instantsOf (tz : zone) (dt : DateTime) : option (Z * Z) :=
  match toISO tz (date dt ++ u " " ++ start dt),
        toISO tz (date dt ++ u " " ++ end_ dt) with
  | Some startISO, Some endISO => Some (startISO, endISO)
  | _, _ => None
  end.

(** The callback of the loop over the rows: [Some ev] when it pushes [ev],
    [None] when it returns early. *)
Definition detailRow (tz : zone) (ix : Idx) (baseOrigin : jsstring) (tr : node)
  : option RawEvent :=
  let tds := find (tag "td") tr in
  if (length tds =? 0)%nat then None else
  let actCell := actCellOf ix tds in
  let title := titleOf actCell in
  if falsy title then None else
  let href := attr (u "href") (first (findIn sel_a_href actCell)) in
  let urlAbs := absolutize href baseOrigin in
  let loc := locOf ix tds in
  match dateTimeOf ix tds with
  | None => None
  | Some dt =>
      match instantsOf tz dt with
      | Some (startISO, endISO) =>
          Some {| cal := guessCal title loc; title := title;
                  startISO := startISO; endISO := endISO;
                  url := urlAbs; location := loc |}
      | None => None
      end
  end.

(** [each] with a callback that pushes onto [out] or returns early. *)
Definition collect {A B : Type} (f : A -> option B) (xs : list A) : list B :=
  fold_left (fun out x => match f x with Some y => out ++ [y] | None => out end)
    xs [].

Definition diag0 : Diag :=
  {| foundTable := false; headers := []; idx := None;
     fallbackUsed := false; fallbackCount := None |}.

(** The parser from [$table] on. *)
Definition parseTable (tz : zone) (table : node) (baseOrigin : jsstring) : Parsed :=
  let headers := headerTexts table in
  let ix := resolveIdx headers in
  let out := collect (detailRow tz ix baseOrigin) (find sel_tbody_tr table) in
  {| events := out;
     diag := {| foundTable := true; headers := headers; idx := Some ix;
                fallbackUsed := false; fallbackCount := None |} |}.

Definition parseDetailHtml (tz : zone) (doc : document) (baseOrigin : jsstring)
  : Parsed :=
  match selectTable doc with
  | None => {| events := []; diag := diag0 |}
  | Some table => parseTable tz table baseOrigin
  end.

(** *** The fallback parser *)

(** ['tr, li, .row, .result, .item, [class*="result"], [class*="row"]'] *)
Definition sel_blocks : selector :=
  [ [[Tag (u "tr")]]; [[Tag (u "li")]]; [[Class (u "row")]];
    [[Class (u "result")]]; [[Class (u "item")]];
    [[AttrContains (u "class") (u "result")]];
    [[AttrContains (u "class") (u "row")]] ].

(** The first line of [text] that is not empty and holds no clock time, cut
    to 160 code units; empty when there is none. *)
Definition firstLineTitle (text : jsstring) : jsstring :=
  slice0 160
    (orEmpty
       (List.find (fun s => negb (falsy s) && negb (test re_time s))
          (map clean (split 10 text)))).

(** [title] of a block with the text [text]. *)
Definition blockTitle (el : node) (text : jsstring) : jsstring :=
  let title := clean (Dom.text (first (find (tag "a") el))) in
  if falsy title then firstLineTitle text else title.

Definition fallbackBlock (tz : zone) (baseOrigin : jsstring) (el : node)
  : option RawEvent :=
  let text := clean (textContent el) in
  if negb (test re_date text) then None else
  match parseDateTimeLoose text with
  | None => None
  | Some dt =>
      let title := blockTitle el text in
      if falsy title then None else
      let href := attr (u "href") (first (find sel_a_href el)) in
      let urlAbs := absolutize href baseOrigin in
      match instantsOf tz dt with
      | Some (startISO, endISO) =>
          Some {| cal := guessCal title None; title := title;
                  startISO := startISO; endISO := endISO;
                  url := urlAbs; location := None |}
      | None => None
      end
  end.

(** The fallback's own [diag] ([{ mode: "fallback" }]) is never read. *)
Definition parseFallback (tz : zone) (doc : document) (baseOrigin : jsstring)
  : list RawEvent :=
  collect (fallbackBlock tz baseOrigin) (select sel_blocks doc).

(** *** The handler, from the fetched page on *)

(** The parser calls a run of the handler makes, in order. *)
Inductive call : Type := CallParseDetailHtml | CallParseFallback.

(** Lines 41-46: the structured parser, then the fallback if it found
    nothing; with the calls made. *)
Definition rawEventsOf (tz : zone) (doc : document) (baseOrigin : jsstring)
  : Parsed * list call :=
  let p := parseDetailHtml tz doc baseOrigin in
  if (length (events p) =? 0)%nat then
    let fb := parseFallback tz doc baseOrigin in
    ({| events := fb;
        diag := {| foundTable := foundTable (diag p);
                   headers := headers (diag p);
                   idx := idx (diag p);
                   fallbackUsed := true;
                   fallbackCount := Some (length fb) |} |},
     [CallParseDetailHtml; CallParseFallback])
  else (p, [CallParseDetailHtml]).

(** [ev.cal.toLowerCase().replace(/\s+/g, "")] *)
Definition slugText (cal : jsstring) : jsstring :=
  replaceWs [] (toLowerCase cal).

(** [... || "schedule"] *)
Definition slugOf (cal : jsstring) : jsstring :=
  orElse (slugText cal) (u "schedule").

(** [Math.floor((s.getTime() - monday.getTime()) / 86400000)]; the quotient
    of two time values of four-digit years is far from the precision of a
    double, so the floor is that of the exact quotient. *)
Definition dayIndexOf (s monday : Z) : Z := ((s - monday) / msPerDay)%Z.

(** The same when the anchor may be the invalid date: its time value is
    [NaN], and so is the result. *)
Definition dayIndexNum (s : Z) (monday : number) : number :=
  match monday with
  | Finite m => Finite (dayIndexOf s m)
  | NaN => NaN
  end.

(** [dayIndex < 0 || dayIndex > 6]: both comparisons are false of [NaN]. *)
Definition outsideWeek (dayIndex : number) : bool :=
  match dayIndex with
  | Finite i => ((i <? 0) || (i >? 6))%Z
  | NaN => false
  end.

(** [ev.url || null] *)
Definition orNull (url : option jsstring) : option jsstring :=
  match url with
  | Some h => if falsy h then None else Some h
  | None => None
  end.

(** [if (!CALS[key]) CALS[key] = { label, events: [] }] *)
Definition ensureBucket (key lbl : jsstring) (CALS : Cals) : Cals :=
  match lookup key CALS with
  | Some _ => CALS
  | None => CALS ++ [(key, {| label := lbl; gridEvents := [] |})]
  end.

(** [CALS[key].events.push(g)] *)
Fixpoint pushEvent (key : jsstring) (g : GridEvent) (CALS : Cals) : Cals :=
  match CALS with
  | [] => []
  | (k, b) :: rest =>
      if Js.eqb k key
      then (k, {| label := label b; gridEvents := gridEvents b ++ [g] |}) :: rest
      else (k, b) :: pushEvent key g rest
  end.

(** The grid record of an event, when the event is not skipped: [None] is
    [continue].  The two ISO strings are never empty and always parse back to
    their time values, so of the guards of lines 52 and 56 the ones on
    [title] and [cal] are left.  Reading an absent palette entry throws. *)
Definition project (tz : zone) (monday : number) (ev : RawEvent)
  : outcome (option (jsstring * GridEvent)) :=
  if falsy (title ev) || falsy (cal ev) then Returns None else
  let s := startISO ev in
  let e := endISO ev in
  let dayIndex := dayIndexNum s monday in
  if outsideWeek dayIndex then Returns None else
  let startMinutes := (getHours tz s * 60 + getMinutes tz s)%Z in
  let endMinutes := (getHours tz e * 60 + getMinutes tz e)%Z in
  let colorKey := colorForCal (cal ev) in
  match lookup colorKey PALETTE with
  | None => Throws
  | Some (bg, text, border) =>
      let key := slugOf (cal ev) in
      Returns (Some (key,
        {| id := title ev ++ u "-" ++ toISOString (startISO ev);
           name := title ev;
           dayIndex := dayIndex;
           startMinutes := startMinutes;
           endMinutes := endMinutes;
           gridUrl := orNull (url ev);
           color := {| bg := bg; text_ := text; border := border |} |}))
  end.

(** One turn of the loop over [rawEvents]. *)
Definition step (tz : zone) (monday : number) (CALS : outcome Cals) (ev : RawEvent)
  : outcome Cals :=
  match CALS with
  | Throws => Throws
  | Returns CALS =>
      match project tz monday ev with
      | Throws => Throws
      | Returns None => Returns CALS
      | Returns (Some (key, g)) =>
          Returns (pushEvent key g (ensureBucket key (cal ev) CALS))
      end
  end.

Definition buildCals (tz : zone) (monday : number) (rawEvents : list RawEvent)
  : outcome Cals :=
  fold_left (step tz monday) rawEvents (Returns []).

Record Output := {
  outEvents : list RawEvent;
  outCals : Cals;
  outDiag : Diag
}.

(** The handler after [fetchHtml]: [doc] is the page as cheerio loads it,
    [startDate] the time value of [new Date(start)], which is [NaN] when the
    host does not read [start] as a date (the check of line 27 looks at the
    digits only). *)
Definition handler (tz : zone) (doc : document) (baseOrigin : jsstring)
  (startDate : number) : outcome Output :=
  let p := fst (rawEventsOf tz doc baseOrigin) in
  let monday := mondayOf tz startDate in
  match buildCals tz monday (events p) with
  | Throws => Throws
  | Returns CALS =>
      Returns {| outEvents := events p; outCals := CALS; outDiag := diag p |}
  end.

(* ------------------------------------------------------------------------- *)
(** ** What the specification says, in its own words *)

(** *** Regular expressions as languages *)

(** [Matches r prev w rest]: the pattern [r] matches the text [w] when [prev]
    is the code unit before [w] and [rest] the input after it. *)
Inductive Matches : re -> option N -> jsstring -> jsstring -> Prop :=
| M_Eps prev rest : Matches Eps prev [] rest
| M_Chr (p : N -> bool) c prev rest :
    p c = true -> Matches (Chr p) prev [c] rest
| M_Rep (p : N -> bool) lo hi prev w rest :
    Forall (fun c => p c = true) w ->
    lo <= length w ->
    (forall h, hi = Some h -> length w <= h) ->
    Matches (Rep p lo hi) prev w rest
| M_Seq a b prev w1 w2 rest :
    Matches a prev w1 (w2 ++ rest) ->
    Matches b (lastOr prev w1) w2 rest ->
    Matches (Seq a b) prev (w1 ++ w2) rest
| M_AltL a b prev w rest : Matches a prev w rest -> Matches (Alt a b) prev w rest
| M_AltR a b prev w rest : Matches b prev w rest -> Matches (Alt a b) prev w rest
| M_Grp i a prev w rest : Matches a prev w rest -> Matches (Grp i a) prev w rest
| M_Bol rest : Matches Bol None [] rest
| M_WordB prev rest :
    xorb (isWordOpt prev) (isWordOpt (hd_error rest)) = true ->
    Matches WordB prev [] rest.

(** [s] holds a piece of text with the property [P]. *)
Definition contains (P : jsstring -> Prop) (s : jsstring) : Prop :=
  exists pre w post, s = pre ++ w ++ post /\ P w.

Definition allOf (p : N -> bool) (w : jsstring) : Prop :=
  Forall (fun c => p c = true) w.

(** *** Section 4.3: the tokens of the strict normalizer *)

(** [MM/DD/YYYY], zero-padding optional. *)
Definition DateToken (w : jsstring) : Prop :=
  exists m d y,
    w = m ++ u "/" ++ d ++ u "/" ++ y
    /\ allOf isDigit m /\ 1 <= length m <= 2
    /\ allOf isDigit d /\ 1 <= length d <= 2
    /\ allOf isDigit y /\ length y = 4.

(** [HH:MM AM/PM]: the meridiem in either case, set off by any white space
    or none. *)
Definition ClockTime (w : jsstring) : Prop :=
  exists h mi sp a m,
    w = h ++ u ":" ++ mi ++ sp ++ [a; m]
    /\ allOf isDigit h /\ 1 <= length h <= 2
    /\ allOf isDigit mi /\ length mi = 2
    /\ allOf isWhite sp
    /\ In a (u "APap") /\ In m (u "Mm").

(** Two clock times separated by a hyphen, an en dash or an em dash. *)
Definition TimeRange (w : jsstring) : Prop :=
  exists t1 s1 dash s2 t2,
    w = t1 ++ s1 ++ [dash] ++ s2 ++ t2
    /\ ClockTime t1 /\ allOf isWhite s1
    /\ In dash [45; 8211; 8212]%N
    /\ allOf isWhite s2 /\ ClockTime t2.

(** *** Section 4.4: the classifier *)

(** The text holds one of the keywords as a whole word: no letter, digit or
    underscore next to it. *)
Definition hasWord (ks : list jsstring) (t : jsstring) : Prop :=
  exists pre k post,
    t = pre ++ k ++ post /\ In k ks
    /\ isWordOpt (lastOr None pre) = false
    /\ isWordOpt (hd_error post) = false.

(** The classifier as the specification words it: the text contains one of
    the keywords. *)
Definition containsAny (ks : list jsstring) (t : jsstring) : bool :=
  existsb (fun k => includes t k) ks.

Definition guessCal_spec (title : jsstring) (loc : option jsstring) : jsstring :=
  let t := toLowerCase (title ++ u " " ++ orEmpty loc) in
  if containsAny aquaticsWords t then u "Aquatics"
  else if containsAny courtWords t then u "Court Sports"
  else if containsAny communityWords t then u "Community"
  else u "Schedule".

Definition calendarNames : list jsstring :=
  [u "Aquatics"; u "Court Sports"; u "Community"; u "Schedule"].

Definition calendarSlugs : list jsstring :=
  [u "aquatics"; u "courtsports"; u "community"; u "schedule"].

Definition paletteKeys : list jsstring :=
  [u "blue"; u "orange"; u "pink"; u "gray"].

(** *** Section 4.1: header roles *)

(** A role resolved as the specification words it: the keywords are tried in
    the order of the list, and the first keyword that some header contains
    decides, with the first such header. *)
Fixpoint findHeader_spec (headers : list jsstring) (keys : list jsstring) : Z :=
  match keys with
  | [] => -1
  | k :: keys' =>
      let i := findIndex (fun h => includes h k) headers in
      if (i >=? 0)%Z then i else findHeader_spec headers keys'
  end.

(** A header matches a role when it contains one of the role's keywords. *)
Definition headerMatches (keys : list jsstring) (h : jsstring) : bool :=
  existsb (fun k => includes h k) keys.

(** *** Section 4.1: links *)

(** Absolutization as the specification words it. *)
Definition absolutize_spec (href baseOrigin : jsstring) : jsstring :=
  if startsWith href (u "http://") || startsWith href (u "https://") then href
  else baseOrigin ++ (if startsWith href (u "/") then [] else u "/") ++ href.

(** [href] begins with [http://] or [https://], the letters in either case. *)
Definition lowerAscii (c : N) : N := if between 65 90 c then (c + 32)%N else c.

Definition hasScheme (href : jsstring) : bool :=
  let l := map lowerAscii href in
  startsWith l (u "http://") || startsWith l (u "https://").

(** *** Checking a range of integers *)

Fixpoint allFrom (fuel : nat) (z : Z) (f : Z -> bool) : bool :=
  match fuel with
  | O => true
  | S k => f z && allFrom k (z + 1)%Z f
  end.

(** What [civil_from_days] must satisfy on each day of a 400-year era. *)
Definition eraDayOk (doe : Z) : bool :=
  let yoe := ((doe - doe / 1460 + doe / 36524 - doe / 146096) / 365)%Z in
  let doy := (doe - (365 * yoe + yoe / 4 - yoe / 100))%Z in
  let mp := ((5 * doy + 2) / 153)%Z in
  let d := (doy - (153 * mp + 2) / 5 + 1)%Z in
  ((0 <=? yoe) && (yoe <=? 399) && (0 <=? mp) && (mp <=? 11)
   && (1 <=? d) && (d <=? 31))%Z.

(** *** Worked inputs *)

Definition el (name : string) (cs : list node) : node := Element (u name) [] cs.
Definition tx (s : string) : node := Text (u s).
Definition link (href : string) (s : string) : node :=
  Element (u "a") [(u "href", u href)] [tx s].

(** A row of a table with the columns Date, Time, Activity. *)
Definition row3 (d t : string) (act : list node) : node :=
  el "tr" [el "td" [tx d]; el "td" [tx t]; el "td" act].

Definition idx3 : Idx := resolveIdx [u "date"; u "time"; u "activity"].

(** A page with one schedule table of three rows: a good one, one without a
    title and one whose time range has no meridiem. *)
Definition page1 : document :=
  [el "html" [el "body" [el "table"
    [el "thead" [el "tr" [el "th" [tx "Date"]; el "th" [tx "Time"];
                          el "th" [tx "Activity"]]];
     el "tbody" [row3 "01/15/2024" "10:00 AM - 11:30 AM" [link "/detail/123" "Lap Swim"];
                 row3 "01/16/2024" "9:00 AM - 9:30 AM" [];
                 row3 "01/17/2024" "10:00 - 11:30" [tx "Yoga"]]]]]].

(** A page with no table and one list item. *)
Definition page2 : document :=
  [el "html" [el "body" [el "ul"
    [el "li" [tx "02/01/2024 "; link "/gym" "Open Gym"; tx " 9:00 AM - 10:00 AM"]]]]].

(** A keyword begins and ends with a word character. *)
Definition wordy (k : jsstring) : bool :=
  isWordOpt (hd_error k) && isWordOpt (lastOr None k).

(** *** Section 4.1: table selection *)

(** A table qualifies with at least three header cells and one data row. *)
Definition qualifies (el : node) : bool := hasHead el && hasBody el.

(** A schedule table with one row for [title]. *)
Definition tableOf (title : string) : node :=
  el "table"
    [el "thead" [el "tr" [el "th" [tx "Date"]; el "th" [tx "Time"];
                          el "th" [tx "Activity"]]];
     el "tbody" [row3 "01/15/2024" "10:00 AM - 11:30 AM" [tx title]]].

(** A page with a table that has no header, then two schedule tables. *)
Definition page3 : document :=
  [el "html" [el "body"
    [el "table" [el "tbody" [el "tr" [el "td" [tx "layout"]]]];
     tableOf "Lap Swim"; tableOf "Yoga"]]].

(** An event that starts at the given local date and time in the zone [tz]
    and lasts an hour. *)
Definition eventAt (tz : zone) (y m d hh mi : Z) : RawEvent :=
  {| cal := u "Aquatics"; title := u "Lap Swim";
     startISO := utc tz (localOf y m d hh mi);
     endISO := utc tz (localOf y m d hh mi + msPerHour);
     url := None; location := None |}.

(** The keys of [CALS], in insertion order: [Object.keys(CALS)]. *)
Definition keysOf (CALS : Cals) : list jsstring := map fst CALS.

(** What a callback that pushes or returns early adds to [out]. *)
Definition pushed {A B : Type} (f : A -> option B) (x : A) : list B :=
  match f x with Some y => [y] | None => [] end.

(** *** Whitespace-normalized text *)

Definition isWhiteOpt (c : option N) : bool :=
  match c with Some x => isWhite x | None => false end.

(** Every white-space code unit of [s] is a U+0020 that does not follow
    white space; [afterWhite] tells whether [s] itself follows white space
    (or starts a text that must not begin with white space). *)
Fixpoint collapsed (afterWhite : bool) (s : jsstring) : Prop :=
  match s with
  | [] => True
  | c :: s' =>
      if isWhite c then c = 32%N /\ afterWhite = false /\ collapsed true s'
      else collapsed false s'
  end.

(** *** The grid, event by event *)

(** What an event adds to [CALS]: its bucket key, the label it would give a
    new bucket, and its grid record; nothing when it is skipped. *)
Definition placed (tz : zone) (monday : number) (ev : RawEvent)
  : list (jsstring * (jsstring * GridEvent)) :=
  match project tz monday ev with
  | Returns (Some (key, g)) => [(key, (cal ev, g))]
  | _ => []
  end.

(** The same for a list of events, in order. *)
Definition placedAll (tz : zone) (monday : number) (evs : list RawEvent)
  : list (jsstring * (jsstring * GridEvent)) :=
  flat_map (placed tz monday) evs.

(** The entries of [l] under [key], in order. *)
Definition under {A : Type} (key : jsstring) (l : list (jsstring * A)) : list A :=
  map snd (filter (fun x => Js.eqb (fst x) key) l).

(** Lines 68-69 for one placed record. *)
Definition addPlaced (CALS : Cals) (x : jsstring * (jsstring * GridEvent)) : Cals :=
  pushEvent (fst x) (snd (snd x)) (ensureBucket (fst x) (fst (snd x)) CALS).

(** The bucket that a list of labelled grid records makes: the label of the
    first, the records in order; none for the empty list. *)
Definition bucketFrom (es : list (jsstring * GridEvent)) : option Bucket :=
  match es with
  | [] => None
  | (lbl, _) :: _ => Some {| label := lbl; gridEvents := map snd es |}
  end.

(** *** Dates of the request *)

(** [new Date("YYYY-MM-DD")]: a date-only ISO string that names a day of the
    calendar is read as midnight UTC of that day. *)
Definition dateOnly (y m d : Z) : Z := (days_from_civil y m d * msPerDay)%Z.

(** The three calendar names that have a color of their own. *)
Definition coloredNames : list jsstring :=
  [u "Aquatics"; u "Court Sports"; u "Community"].

(** *** Text with word boundaries around it *)

(** [s] holds a piece of text with the property [P] that has no letter,
    digit or underscore next to it. *)
Definition containsWord (P : jsstring -> Prop) (s : jsstring) : Prop :=
  exists pre w post,
    s = pre ++ w ++ post /\ P w
    /\ isWordOpt (lastOr None pre) = false
    /\ isWordOpt (hd_error post) = false.

(** *** Which match is returned *)

(** A pattern without capturing groups. *)
Fixpoint groupFree (r : re) : bool :=
  match r with
  | Seq a b | Alt a b => groupFree a && groupFree b
  | Grp _ _ => false
  | _ => true
  end.

(** A clock time as the normalizers return it: the white space before the
    meridiem collapsed to one U+0020, or none. *)
Definition CleanClock (w : jsstring) : Prop :=
  exists h mi sp a m,
    w = h ++ u ":" ++ mi ++ sp ++ [a; m]
    /\ allOf isDigit h /\ 1 <= length h <= 2
    /\ allOf isDigit mi /\ length mi = 2
    /\ (sp = [] \/ sp = u " ")
    /\ In a (u "APap") /\ In m (u "Mm").

(** *** The request: lines 23-32 of the handler *)

(** [\d{4}-\d{2}-\d{2}] *)
Definition re_ymd : re :=
  seqs [digits 4 4; lit1 45; digits 2 2; lit1 45; digits 2 2].

(** [/^r$/.test(s)]: the match starts at the first code unit, and the
    continuation, which accepts only the end of the input, stands for [$]. *)
Definition testWhole (r : re) (s : jsstring) : bool :=
  match mt r None s []
          (fun _ rest _ => match rest with [] => Some tt | _ :: _ => None end)
  with
  | Some _ => true
  | None => false
  end.

(** [res.status(status).json({ error })] *)
Inductive reply : Type := ErrorReply (status : nat) (error : jsstring).

(** The two early returns: [Some] is the reply sent, [None] lets the handler
    go on to fetch.  [WEBTRAC_DETAIL_BASE] is the environment variable,
    [None] when it is not set. *)
Definition checkRequest (start end_ : jsstring)
  (WEBTRAC_DETAIL_BASE : option jsstring) : option reply :=
  if negb (testWhole re_ymd start) || negb (testWhole re_ymd end_) then
    Some (ErrorReply 400 (u "Provide start and end as YYYY-MM-DD"))
  else if falsy (orEmpty WEBTRAC_DETAIL_BASE) then
    Some (ErrorReply 500 (u "WEBTRAC_DETAIL_BASE not configured"))
  else None.

(** [YYYY-MM-DD]: four digits, two digits, two digits. *)
Definition YmdText (s : jsstring) : Prop :=
  exists y m d,
    s = y ++ u "-" ++ m ++ u "-" ++ d
    /\ allOf isDigit y /\ length y = 4
    /\ allOf isDigit m /\ length m = 2
    /\ allOf isDigit d /\ length d = 2.

(** *** The Playwright variant of the handler (lines 250-387) *)

(** [[-–]]: hyphen-minus and en dash. *)
Definition isDashTs (c : N) : bool := ((c =? 45) || (c =? 8211))%N.

(** [/(\d{1,2}:\d{2}\s*[AP]M)\s*[-–]\s*(\d{1,2}:\d{2}\s*[AP]M)/i] *)
Definition re_times_ts : re :=
  seqs [Grp 1 re_clock; ws0; Chr isDashTs; ws0; Grp 2 re_clock].

(** [parseDateTime] of lines 296-301: the groups are returned as matched. *)
Definition parseDateTimeTs (dateText timeText : jsstring) : option DateTime :=
  let dateMatch := exec re_date dateText in
  let times := exec re_times_ts (orElse timeText dateText) in
  match dateMatch, times with
  | Some d, Some t =>
      Some {| date := whole d; start := group 1 (groups t);
              end_ := group 2 (groups t) |}
  | _, _ => None
  end.

(** Two clock times separated by a hyphen or an en dash. *)
Definition TimeRangeTs (w : jsstring) : Prop :=
  exists t1 s1 dash s2 t2,
    w = t1 ++ s1 ++ [dash] ++ s2 ++ t2
    /\ ClockTime t1 /\ allOf isWhite s1
    /\ In dash [45; 8211]%N
    /\ allOf isWhite s2 /\ ClockTime t2.

(** *** More worked inputs *)

(** The list item of [page2]. *)
Definition li2 : node :=
  el "li" [tx "02/01/2024 "; link "/gym" "Open Gym"; tx " 9:00 AM - 10:00 AM"].

(** The event the fallback parser makes of it, in UTC. *)
Definition ev2 : RawEvent :=
  {| cal := u "Schedule"; title := u "Open Gym";
     startISO := 1706778000000; endISO := 1706781600000;
     url := Some (u "https://example.org/gym"); location := None |}.

Definition dt0 : DateTime :=
  {| date := u "1/15/2024"; start := u "9:00 AM"; end_ := u "10:00 AM" |}.

(** The grid record of [eventAt (fixed 0) 2024 1 21 23 59] in the week of
    Monday 2024-01-15. *)
Definition grid0 : GridEvent :=
  {| id := u "Lap Swim-2024-01-21T23:59:00.000Z";
     name := u "Lap Swim";
     dayIndex := Finite 6; startMinutes := 1439; endMinutes := 59;
     gridUrl := None;
     color := {| bg := u "bg-blue-100"; text_ := u "text-blue-800";
                 border := u "border-blue-500" |} |}.

Definition week0 : list RawEvent :=
  [eventAt (fixed 0) 2024 1 15 10 0; eventAt (fixed 0) 2024 1 21 23 59;
   eventAt (fixed 0) 2024 1 22 0 0].

(** *** Zones *)

(** The local time [l] exists in the zone: the instant it is read as shows
    [l] again on the local clock.  A local time that a change of offset
    skips does not. *)
Definition present (tz : zone) (l : Z) : Prop := localTime tz (utc tz l) = l.

(** No change of offset skips a local midnight. *)
Definition midnightsPresent (tz : zone) : Prop :=
  forall D : Z, present tz (D * msPerDay)%Z.

(** The offset is [o] at the local time [l], read either way. *)
Definition offsetAt (tz : zone) (o l : Z) : Prop :=
  LocalTZA tz l false = o /\ LocalTZA tz (l - o)%Z true = o.

(** *** Section 4.3: which field holds the time range *)

(** The fields as the program reads them: the time range is looked for in
    the time field, and in the date field only when the time field is
    empty. *)
Definition strictFields (dateText timeText : jsstring) : Prop :=
  contains DateToken dateText
  /\ ((timeText <> [] /\ contains TimeRange timeText)
      \/ (timeText = [] /\ contains TimeRange dateText)).

(** The fields as the specification words them: the time range is in the
    time field or, failing that, in the date field. *)
Definition strictFields_spec (dateText timeText : jsstring) : Prop :=
  contains DateToken dateText
  /\ (contains TimeRange timeText \/ contains TimeRange dateText).

(** No code unit of [t] is an M, capital or small. *)
Definition noMeridiem (t : jsstring) : Prop :=
  forall c, In c t -> c <> 77%N /\ c <> 109%N.

(** *** Section 4.1: what a selector with one descendant combinator takes *)

(** [x] is inside [n]: a child of [n] or inside a child of [n]. *)
Inductive inside (x : node) : node -> Prop :=
| inside_child n : In x (children n) -> inside x n
| inside_deep c n : In c (children n) -> inside x c -> inside x n.

(** [x] is an element named [t]. *)
Definition named (t : string) (x : node) : Prop :=
  matchesCompound [Tag (u t)] x = true.

(** *** Section 4.1: a table's own header row *)

(** The children of [n] that are elements named [t]. *)
Definition childrenNamed (t : string) (n : node) : list node :=
  filter (matchesCompound [Tag (u t)]) (children n).

(** The rows of the table's own header ([part] is ["thead"]) or body
    (["tbody"]). *)
Definition ownRows (part : string) (table : node) : list node :=
  flat_map (childrenNamed "tr") (childrenNamed part table).

(** A table as the specification words it: a header row with at least three
    header cells, and at least one data row. *)
Definition qualifies_spec (table : node) : bool :=
  existsb (fun tr => (3 <=? length (childrenNamed "th" tr))%nat)
    (ownRows "thead" table)
  && (1 <=? length (ownRows "tbody" table))%nat.

(** The table the specification's words select. *)
Definition selectTable_spec (doc : document) : option node :=
  List.find qualifies_spec (select (tag "table") doc).

(** A layout table with two schedule tables in its one cell. *)
Definition layoutTable : node :=
  el "table" [el "tbody" [el "tr" [el "td"
    [tableOf "Lap Swim"; tableOf "Yoga"]]]].

Definition page4 : document := [el "html" [el "body" [layoutTable]]].

(** A table whose three header cells stand in two rows. *)
Definition splitHead : node :=
  el "table"
    [el "thead" [el "tr" [el "th" [tx "Date"]; el "th" [tx "Time"]];
                 el "tr" [el "th" [tx "Activity"]]];
     el "tbody" [row3 "01/15/2024" "10:00 AM - 11:30 AM" [tx "Lap Swim"]]].

(* ------------------------------------------------------------------------- *)
(** ** The matcher decides the language of a pattern *)

Unset Implicit Arguments.

Lemma lastOr_app prev (w1 w2 : jsstring) :
  lastOr (lastOr prev w1) w2 = lastOr prev (w1 ++ w2).
Proof.
  revert prev; induction w1 as [|c w1 IH]; intros prev; simpl; auto.
Qed.

Section MatcherCorrect.

Variable R : Type.

Lemma rep_sound (p : N -> bool) :
  forall s lo hi prev cs (k : cont R) x,
    rep p lo hi prev s cs k = Some x ->
    exists w rest,
      s = w ++ rest /\ allOf p w /\ lo <= length w
      /\ (forall h, hi = Some h -> length w <= h)
      /\ k (lastOr prev w) rest cs = Some x.
Proof.
  assert (Hstop : forall s lo hi prev cs (k : cont R) x,
             match lo with O => k prev s cs | S _ => None end = Some x ->
             exists w rest,
               s = w ++ rest /\ allOf p w /\ lo <= length w
               /\ (forall h, hi = Some h -> length w <= h)
               /\ k (lastOr prev w) rest cs = Some x).
  { intros s lo hi prev cs k x H. destruct lo; [|discriminate].
    exists [], s. repeat split; simpl; auto.
    - constructor.
    - intros; lia. }
  induction s as [|c s IH]; intros lo hi prev cs k x H; simpl in H.
  - now apply Hstop.
  - destruct (p c && negb (atLimit hi)) eqn:E; [|now apply Hstop].
    destruct (rep p (pred lo) (option_map pred hi) (Some c) s cs k) eqn:E2;
      [|now apply Hstop].
    inversion H; subst; clear H.
    apply IH in E2 as (w & rest & -> & Hall & Hlo & Hhi & Hk).
    apply andb_prop in E as [Hp Hlim].
    exists (c :: w), rest. repeat split; simpl; auto.
    + constructor; auto.
    + lia.
    + intros h ->. specialize (Hhi (pred h) eq_refl).
      destruct h; simpl in *; [discriminate | lia].
Qed.

Lemma rep_stop (p : N -> bool) s hi prev cs (k : cont R) :
  k prev s cs <> None -> rep p 0 hi prev s cs k <> None.
Proof.
  intros H. destruct s as [|c s]; simpl; auto.
  destruct (p c && negb (atLimit hi)); auto.
  destruct (rep p 0 (option_map pred hi) (Some c) s cs k); auto; discriminate.
Qed.

Lemma rep_complete (p : N -> bool) :
  forall w rest lo hi prev cs (k : cont R),
    allOf p w -> lo <= length w ->
    (forall h, hi = Some h -> length w <= h) ->
    k (lastOr prev w) rest cs <> None ->
    rep p lo hi prev (w ++ rest) cs k <> None.
Proof.
  induction w as [|c w IH]; intros rest lo hi prev cs k Hall Hlo Hhi Hk.
  - simpl in *. assert (lo = 0) by lia; subst. now apply rep_stop.
  - simpl in *. inversion Hall as [|? ? Hc Hw]; subst.
    assert (Hlim : atLimit hi = false).
    { destruct hi as [[|h]|]; auto. specialize (Hhi 0 eq_refl); lia. }
    rewrite Hc, Hlim; simpl.
    assert (Hrec : rep p (pred lo) (option_map pred hi) (Some c) (w ++ rest) cs k
                   <> None).
    { apply IH; auto; try lia.
      intros h Hh. destruct hi as [h'|]; simpl in Hh; [|discriminate].
      inversion Hh; subst. specialize (Hhi h' eq_refl); lia. }
    destruct (rep p (pred lo) (option_map pred hi) (Some c) (w ++ rest) cs k);
      [discriminate | contradiction].
Qed.

Lemma mt_sound :
  forall r prev s cs (k : cont R) x,
    mt r prev s cs k = Some x ->
    exists w rest cs',
      s = w ++ rest /\ Matches r prev w rest
      /\ k (lastOr prev w) rest cs' = Some x.
Proof.
  induction r as [|p|p lo hi|a IHa b IHb|a IHa b IHb|i a IHa| |];
    intros prev s cs k x H; simpl in H.
  - exists [], s, cs. repeat split; auto. constructor.
  - destruct s as [|c s]; [discriminate|].
    destruct (p c) eqn:E; [|discriminate].
    exists [c], s, cs. repeat split; auto. now constructor.
  - apply rep_sound in H as (w & rest & -> & Hall & Hlo & Hhi & Hk).
    exists w, rest, cs. repeat split; auto. now constructor.
  - apply IHa in H as (w1 & rest1 & cs1 & -> & Ha & H).
    apply IHb in H as (w2 & rest & cs2 & -> & Hb & H).
    exists (w1 ++ w2), rest, cs2. rewrite <- lastOr_app.
    repeat split; auto.
    + now rewrite app_assoc.
    + now constructor.
  - destruct (mt a prev s cs k) eqn:E.
    + inversion H; subst.
      apply IHa in E as (w & rest & cs' & -> & Ha & Hk).
      exists w, rest, cs'. repeat split; auto. now apply M_AltL.
    + apply IHb in H as (w & rest & cs' & -> & Hb & Hk).
      exists w, rest, cs'. repeat split; auto. now apply M_AltR.
  - apply IHa in H as (w & rest & cs' & -> & Ha & Hk).
    eexists w, rest, _. repeat split; eauto. now constructor.
  - destruct prev; [discriminate|].
    exists [], s, cs. repeat split; auto. constructor.
  - destruct (xorb (isWordOpt prev) (isWordOpt (hd_error s))) eqn:E;
      [|discriminate].
    exists [], s, cs. repeat split; auto. now constructor.
Qed.

Lemma mt_complete :
  forall r prev w rest,
    Matches r prev w rest ->
    forall cs (k : cont R),
      (forall cs', k (lastOr prev w) rest cs' <> None) ->
      mt r prev (w ++ rest) cs k <> None.
Proof.
  induction 1 as [prev rest|p c prev rest Hc|p lo hi prev w rest Hall Hlo Hhi
                 |a b prev w1 w2 rest Ha IHa Hb IHb
                 |a b prev w rest Ha IHa|a b prev w rest Hb IHb
                 |i a prev w rest Ha IHa|rest|prev rest Hx];
    intros cs k Hk; simpl.
  - apply Hk.
  - rewrite Hc. apply Hk.
  - apply rep_complete; auto.
  - rewrite <- app_assoc. apply IHa. intros cs'. apply IHb.
    intros cs''. rewrite lastOr_app. apply Hk.
  - specialize (IHa cs k Hk).
    destruct (mt a prev (w ++ rest) cs k); [discriminate | contradiction].
  - destruct (mt a prev (w ++ rest) cs k); [discriminate|]. now apply IHb.
  - apply IHa. intros cs'. apply Hk.
  - apply Hk.
  - simpl in Hx. rewrite Hx. apply Hk.
Qed.

End MatcherCorrect.

Lemma matchAt_spec r prev s :
  matchAt r prev s <> None <->
  exists w rest, s = w ++ rest /\ Matches r prev w rest.
Proof.
  unfold matchAt. split.
  - intros H.
    destruct (mt r prev s []
                (fun _ rest cs =>
                   Some {| whole := firstn (length s - length rest) s;
                           groups := cs |})) eqn:E; [|contradiction].
    apply mt_sound in E as (w & rest & _ & -> & Hm & _). eauto.
  - intros (w & rest & -> & Hm).
    apply mt_complete with (1 := Hm). intros; discriminate.
Qed.

Lemma execFrom_spec r :
  forall s prev,
    execFrom r prev s <> None <->
    exists pre w post,
      s = pre ++ w ++ post /\ Matches r (lastOr prev pre) w post.
Proof.
  induction s as [|c s IH]; intros prev; simpl.
  - destruct (matchAt r prev []) eqn:E.
    + split; [intros _|discriminate].
      assert (H : matchAt r prev [] <> None) by (rewrite E; discriminate).
      apply matchAt_spec in H as (w & rest & Hs & Hm).
      exists [], w, rest. auto.
    + split; [contradiction|].
      intros (pre & w & post & Hs & Hm).
      destruct pre; [|discriminate]. simpl in *.
      assert (H : matchAt r prev [] <> None)
        by (apply matchAt_spec; eauto).
      contradiction.
  - destruct (matchAt r prev (c :: s)) eqn:E.
    + split; [intros _|discriminate].
      assert (H : matchAt r prev (c :: s) <> None) by (rewrite E; discriminate).
      apply matchAt_spec in H as (w & rest & Hs & Hm).
      exists [], w, rest. auto.
    + rewrite IH. split.
      * intros (pre & w & post & -> & Hm). exists (c :: pre), w, post. auto.
      * intros (pre & w & post & Hs & Hm).
        destruct pre as [|c' pre]; simpl in *.
        -- assert (H : matchAt r prev (c :: s) <> None)
             by (apply matchAt_spec; eauto).
           contradiction.
        -- inversion Hs; subst. eauto.
Qed.

(** [test] holds exactly when some piece of the text is in the language of
    the pattern, read in its context. *)
Lemma test_spec r s :
  test r s = true <->
  exists pre w post, s = pre ++ w ++ post /\ Matches r (lastOr None pre) w post.
Proof.
  unfold test, exec. rewrite <- execFrom_spec.
  destruct (execFrom r None s); split; auto; try discriminate.
Qed.

Lemma exec_spec r s :
  exec r s <> None <->
  exists pre w post, s = pre ++ w ++ post /\ Matches r (lastOr None pre) w post.
Proof. unfold exec. apply execFrom_spec. Qed.

(* ------------------------------------------------------------------------- *)
(** ** The patterns of the program and the tokens of the specification *)

Ltac minv :=
  repeat match goal with
  | H : Matches (Seq _ _) _ _ _ |- _ => inversion H; subst; clear H
  | H : Matches (Chr _) _ _ _ |- _ => inversion H; subst; clear H
  | H : Matches (Rep _ _ _) _ _ _ |- _ => inversion H; subst; clear H
  | H : Matches (Grp _ _) _ _ _ |- _ => inversion H; subst; clear H
  | H : Matches Eps _ _ _ |- _ => inversion H; subst; clear H
  | H : Matches WordB _ _ _ |- _ => inversion H; subst; clear H
  | H : Matches Bol _ _ _ |- _ => inversion H; subst; clear H
  end.

Lemma Matches_date_body prev w rest :
  Matches re_date_body prev w rest <-> DateToken w.
Proof.
  unfold re_date_body, digits, lit1; simpl. split.
  - intros H. minv.
    repeat match goal with H : N.eqb _ _ = true |- _ => apply N.eqb_eq in H; subst end.
    match goal with |- DateToken (?m ++ _ ++ ?d ++ _ ++ ?y) => exists m, d, y end.
    repeat match goal with H : forall h, Some ?n = Some h -> _ |- _ => specialize (H n eq_refl) end.
    unfold allOf. repeat split; auto; lia.
  - intros (m & d & y & -> & Hm & Hml & Hd & Hdl & Hy & Hyl).
    change (u "/") with [47%N].
    repeat (apply M_Seq || apply M_Chr || apply M_Rep); auto; try lia;
      try (intros h Hh; inversion Hh; subst; lia).
Qed.

Lemma Matches_clock prev w rest :
  Matches re_clock prev w rest <-> ClockTime w.
Proof.
  unfold re_clock, digits, lit1, ws0, ci; simpl. split.
  - intros H. minv.
    repeat match goal with H : N.eqb _ _ = true |- _ => apply N.eqb_eq in H; subst end.
    match goal with |- ClockTime (?h ++ _ ++ ?mi ++ ?sp ++ [?a] ++ [?m]) => exists h, mi, sp, a, m end.
    repeat match goal with H : forall h, Some ?n = Some h -> _ |- _ => specialize (H n eq_refl) end.
    unfold allOf. repeat split; auto; try lia.
    + unfold isAP in *. simpl.
      repeat match goal with H : (_ || _)%bool = true |- _ => apply orb_prop in H; destruct H end;
      repeat match goal with H : N.eqb _ _ = true |- _ => apply N.eqb_eq in H; subst end; auto.
    + simpl.
      repeat match goal with H : (_ || _)%bool = true |- _ => apply orb_prop in H; destruct H end;
      repeat match goal with H : N.eqb _ _ = true |- _ => apply N.eqb_eq in H; subst end; auto.
  - intros (h & mi & sp & a & m & -> & Hh & Hhl & Hmi & Hmil & Hsp & Ha & Hm).
    change (u ":") with [58%N]. change [a; m] with ([a] ++ [m]).
    repeat (apply M_Seq || apply M_Chr || apply M_Rep); auto; try lia;
      try (intros h' Hh'; inversion Hh'; subst; lia); try discriminate.
    + simpl in Ha. unfold isAP. intuition (subst; reflexivity).
    + simpl in Hm. intuition (subst; reflexivity).
Qed.

Lemma Matches_times prev w rest :
  Matches re_times prev w rest <-> TimeRange w.
Proof.
  unfold re_times, ws0; simpl. split.
  - intros H.
    repeat match goal with
    | H : Matches (Seq _ _) _ _ _ |- _ => inversion H; subst; clear H
    | H : Matches (Grp _ _) _ _ _ |- _ => inversion H; subst; clear H
    | H : Matches (Chr _) _ _ _ |- _ => inversion H; subst; clear H
    | H : Matches (Rep _ _ _) _ _ _ |- _ => inversion H; subst; clear H
    end.
    repeat match goal with H : Matches re_clock _ _ _ |- _ => apply Matches_clock in H end.
    match goal with |- TimeRange (?t1 ++ ?s1 ++ [?c] ++ ?s2 ++ ?t2) => exists t1, s1, c, s2, t2 end.
    unfold allOf. repeat split; auto.
    unfold isDash in *. simpl.
    repeat match goal with H : (_ || _)%bool = true |- _ => apply orb_prop in H; destruct H end;
    repeat match goal with H : N.eqb _ _ = true |- _ => apply N.eqb_eq in H; subst end; auto.
  - intros (t1 & s1 & c & s2 & t2 & -> & H1 & Hs1 & Hc & Hs2 & H2).
    repeat (apply M_Seq || apply M_Chr || apply M_Rep || apply M_Grp); auto; try lia;
      try discriminate; try (now apply Matches_clock).
    simpl in Hc. unfold isDash. intuition (subst; reflexivity).
Qed.

Lemma orElse_nil s : orElse s [] = s.
Proof. now destruct s. Qed.

Lemma exec_contains r P s :
  (forall prev w rest, Matches r prev w rest <-> P w) ->
  (exec r s <> None <-> contains P s).
Proof.
  intros HP. rewrite exec_spec. unfold contains. split.
  - intros (pre & w & post & -> & Hm). exists pre, w, post. split; auto.
    now apply HP in Hm.
  - intros (pre & w & post & -> & Hw). exists pre, w, post. split; auto.
    now apply HP.
Qed.

Lemma parseDateTime_some d t :
  (exists dt, parseDateTime d t = Some dt) <->
  contains DateToken d /\ contains TimeRange (orElse t d).
Proof.
  unfold parseDateTime. rewrite !orElse_nil.
  rewrite <- (@exec_contains re_date DateToken d Matches_date_body).
  rewrite <- (@exec_contains re_times TimeRange (orElse t d) Matches_times).
  destruct (exec re_date d), (exec re_times (orElse t d)); split;
    first [ solve [intros _; split; discriminate]
          | solve [intros _; eauto]
          | solve [intros (dt & H); discriminate]
          | solve [intros (H1 & H2); exfalso; auto] ].
Qed.

Lemma localTime_fixed o t : localTime (fixed o) t = (t + o)%Z.
Proof. reflexivity. Qed.

Lemma utc_fixed o l : utc (fixed o) l = (l - o)%Z.
Proof. reflexivity. Qed.

Lemma present_fixed o l : present (fixed o) l.
Proof. unfold present. rewrite utc_fixed, localTime_fixed. lia. Qed.

Lemma midnightsPresent_fixed o : midnightsPresent (fixed o).
Proof. intros D. apply present_fixed. Qed.

Lemma offsetAt_fixed o l : offsetAt (fixed o) o l.
Proof. split; reflexivity. Qed.

Lemma offsetAt_utc tz o l : offsetAt tz o l -> utc tz l = (l - o)%Z.
Proof. intros (H & _). unfold utc. now rewrite H. Qed.

Lemma offsetAt_present tz o l : offsetAt tz o l -> present tz l.
Proof.
  intros (H1 & H2). unfold present, localTime, utc. rewrite H1, H2. lia.
Qed.

Lemma toISO_example tz :
  toISO tz (u "01/15/2024 10:00 AM") = Some (utc tz (localOf 2024 1 15 10 0)).
Proof.
  unfold toISO, HostDate.parse.
  assert (E : readDateTime (u "01/15/2024 10:00 AM") = Some (2024, 1, 15, 10, 0)%Z)
    by (vm_compute; reflexivity).
  rewrite E. reflexivity.
Qed.

Ltac neqb :=
  repeat match goal with
  | H : N.eqb _ _ = true |- _ => apply N.eqb_eq in H; subst
  end.

Lemma Matches_lit k : forall prev w rest, Matches (lit k) prev w rest <-> w = k.
Proof.
  induction k as [|c k IH]; intros prev w rest; simpl.
  - split; intros H; [now inversion H | subst; constructor].
  - destruct k as [|c' k'].
    + unfold lit1. split; intros H.
      * minv. neqb. reflexivity.
      * subst. constructor. apply N.eqb_refl.
    + split; intros H.
      * inversion H; subst; clear H.
        match goal with H : Matches _ _ _ _ |- _ => apply IH in H; subst end.
        unfold lit1 in *. minv. neqb. reflexivity.
      * subst. change (c :: c' :: k') with ([c] ++ c' :: k').
        constructor.
        -- constructor. apply N.eqb_refl.
        -- now apply IH.
Qed.

Lemma Matches_alts_lit ks : forall prev w rest,
  Matches (alts (map lit ks)) prev w rest <-> In w ks.
Proof.
  induction ks as [|k ks IH]; intros prev w rest; simpl.
  - split; intros H; [|contradiction]. inversion H; discriminate.
  - destruct ks as [|k' ks'].
    + simpl. rewrite Matches_lit. intuition congruence.
    + split; intros H.
      * inversion H; subst; clear H.
        -- left. symmetry.
           match goal with H : Matches _ _ _ _ |- _ =>
             now apply Matches_lit in H end.
        -- right. now apply IH with (prev := prev) (rest := rest).
      * destruct H as [<-|H].
        -- apply M_AltL. now apply Matches_lit.
        -- apply M_AltR. now apply IH.
Qed.

Lemma lastOr_cons prev c (w : jsstring) : lastOr prev (c :: w) = lastOr None (c :: w).
Proof. reflexivity. Qed.

Lemma wordy_inv k :
  wordy k = true ->
  forall prev (x : jsstring),
    isWordOpt (hd_error (k ++ x)) = true /\ isWordOpt (lastOr prev k) = true.
Proof.
  unfold wordy. intros H prev x. apply andb_prop in H as [H1 H2].
  destruct k as [|c k]; [discriminate|]. split; auto.
Qed.

Lemma Matches_words ks prev w rest :
  forallb wordy ks = true ->
  (Matches (re_words ks) prev w rest <->
   In w ks /\ isWordOpt prev = false /\ isWordOpt (hd_error rest) = false).
Proof.
  intros Hks. rewrite forallb_forall in Hks.
  unfold re_words; simpl. split.
  - intros H. minv.
    match goal with H : Matches (alts _) _ _ _ |- _ =>
      apply Matches_alts_lit in H; rename H into Hin end.
    simpl in *. rewrite app_nil_r in *.
    destruct (wordy_inv _ (Hks _ Hin) prev rest) as [Hh Hl].
    repeat match goal with H : xorb _ _ = true |- _ => revert H end.
    rewrite Hh, Hl. intros H1 H2.
    repeat split; auto.
    + now destruct (isWordOpt prev).
    + now destruct (isWordOpt (hd_error rest)).
  - intros (Hin & Hp & Hr).
    destruct (wordy_inv _ (Hks _ Hin) prev rest) as [Hh Hl].
    change w with ([] ++ w). rewrite <- (app_nil_r w).
    constructor.
    + constructor. simpl. rewrite app_nil_r, Hh, Hp. reflexivity.
    + constructor.
      * constructor. now apply Matches_alts_lit.
      * constructor. simpl. rewrite Hl, Hr. reflexivity.
Qed.

Lemma test_words ks t :
  forallb wordy ks = true ->
  (test (re_words ks) t = true <-> hasWord ks t).
Proof.
  intros Hks. rewrite test_spec. unfold hasWord. split.
  - intros (pre & w & post & -> & Hm).
    apply (Matches_words _ _ _ _ Hks) in Hm as (Hin & Hp & Hr).
    exists pre, w, post. auto.
  - intros (pre & k & post & -> & Hin & Hp & Hr).
    exists pre, k, post. split; auto. apply (Matches_words _ _ _ _ Hks). auto.
Qed.

(* ------------------------------------------------------------------------- *)
(** ** Section 4.3: the strict normalizer *)

Lemma instantsOf_example tz dt :
  date dt = u "01/15/2024" -> start dt = u "10:00 AM" -> end_ dt = u "11:30 AM" ->
  instantsOf tz dt
  = Some (utc tz (localOf 2024 1 15 10 0), utc tz (localOf 2024 1 15 11 30)).
Proof.
  intros Hd Hs He. unfold instantsOf, toISO, HostDate.parse. rewrite Hd, Hs, He.
  assert (E1 : readDateTime (u "01/15/2024" ++ u " " ++ u "10:00 AM")
               = Some (2024, 1, 15, 10, 0)%Z) by (vm_compute; reflexivity).
  assert (E2 : readDateTime (u "01/15/2024" ++ u " " ++ u "11:30 AM")
               = Some (2024, 1, 15, 11, 30)%Z) by (vm_compute; reflexivity).
  rewrite E1, E2. reflexivity.
Qed.

Lemma strictFields_orElse d t :
  strictFields d t <-> contains DateToken d /\ contains TimeRange (orElse t d).
Proof.
  unfold strictFields, orElse. destruct t as [|c t]; simpl.
  - split; intros (H1 & H2); (split; [exact H1|]).
    + destruct H2 as [[H _]|[_ H]]; [now contradiction H | exact H].
    + right. split; [reflexivity | exact H2].
  - split; intros (H1 & H2); (split; [exact H1|]).
    + destruct H2 as [[_ H]|[H _]]; [exact H | discriminate H].
    + left. split; [discriminate | exact H2].
Qed.

Lemma noMeridiem_no_range t : noMeridiem t -> ~ contains TimeRange t.
Proof.
  intros Hno (pre & w & post & -> & t1 & s1 & dash & s2 & t2 & -> & Hc & _).
  destruct Hc as (h & mi & sp & a & m & -> & _ & _ & _ & _ & _ & _ & Hm).
  destruct (Hno m) as [N1 N2].
  - repeat (rewrite in_app_iff; simpl). tauto.
  - simpl in Hm. destruct Hm as [<-|[<-|[]]]; [now apply N1 | now apply N2].
Qed.

Lemma loose_needs_range text :
  ~ contains TimeRange text -> parseDateTimeLoose text = None.
Proof.
  intros H. unfold parseDateTimeLoose. rewrite !orElse_nil.
  rewrite <- (@exec_contains re_times TimeRange text Matches_times) in H.
  destruct (exec re_times text); [now contradiction H|].
  now destruct (exec re_date_loose text).
Qed.

Lemma detailRow_needs_range tz ix baseOrigin tr :
  ~ strictFields (dateTextOf ix (find (tag "td") tr))
                 (timeTextOf ix (find (tag "td") tr)) ->
  ~ contains TimeRange (text (actCellOf ix (find (tag "td") tr))) ->
  detailRow tz ix baseOrigin tr = None.
Proof.
  intros Hs Hl. unfold detailRow, dateTimeOf.
  destruct (length (find (tag "td") tr) =? 0); [reflexivity|].
  destruct (falsy _); [reflexivity|].
  rewrite (loose_needs_range _ Hl).
  destruct (parseDateTime _ _) as [dt|] eqn:E; [|reflexivity].
  contradiction Hs. apply strictFields_orElse, parseDateTime_some. eauto.
Qed.



(* ------------------------------------------------------------------------- *)
(** ** Section 4.4: the classifier *)

Lemma guessCal_cases (title : jsstring) (loc : option jsstring) :
  let t := toLowerCase (title ++ u " " ++ orEmpty loc) in
  (guessCal title loc = u "Aquatics" <-> hasWord aquaticsWords t)
  /\ (guessCal title loc = u "Court Sports" <->
      ~ hasWord aquaticsWords t /\ hasWord courtWords t)
  /\ (guessCal title loc = u "Community" <->
      ~ hasWord aquaticsWords t /\ ~ hasWord courtWords t
      /\ hasWord communityWords t)
  /\ (guessCal title loc = u "Schedule" <->
      ~ hasWord aquaticsWords t /\ ~ hasWord courtWords t
      /\ ~ hasWord communityWords t).
Proof.
  intros t. unfold guessCal. fold t.
  assert (Ha := test_words aquaticsWords t eq_refl).
  assert (Hc := test_words courtWords t eq_refl).
  assert (Hm := test_words communityWords t eq_refl).
  destruct (test (re_words aquaticsWords) t);
    destruct (test (re_words courtWords) t);
    destruct (test (re_words communityWords) t);
    repeat split; try discriminate; intuition discriminate.
Qed.

(** C4, as stated, fails: ["Swimming Lessons"] contains "swim", and the
    classifier answers "Schedule", because "swim" is not a whole word
    there. *)
Lemma guessCal_not_substring :
  containsAny aquaticsWords (toLowerCase (u "Swimming Lessons" ++ u " " ++ orEmpty None))
  = true
  /\ guessCal_spec (u "Swimming Lessons") None = u "Aquatics"
  /\ guessCal (u "Swimming Lessons") None = u "Schedule"
  /\ guessCal (u "Swimming Lessons") None
     <> guessCal_spec (u "Swimming Lessons") None.
Proof. vm_compute. repeat split; discriminate. Qed.

(** C4, amended. The classifier lowercases the title, a space and the
    location, and answers "Aquatics" exactly when that text holds one of
    aqua, water, swim, pool as a whole word; otherwise "Court Sports" exactly
    when it holds one of pickleball, basketball, volleyball, court as a whole
    word; otherwise "Community" exactly when it holds one of yoga, coffee,
    teen, community, wellness as a whole word; otherwise "Schedule".  The
    first group in this order wins: "Aqua Basketball Clinic" is "Aquatics". *)
Theorem guessCal_whole_words (title : jsstring) (loc : option jsstring) :
  let t := toLowerCase (title ++ u " " ++ orEmpty loc) in
  (guessCal title loc = u "Aquatics" <-> hasWord aquaticsWords t)
  /\ (guessCal title loc = u "Court Sports" <->
      ~ hasWord aquaticsWords t /\ hasWord courtWords t)
  /\ (guessCal title loc = u "Community" <->
      ~ hasWord aquaticsWords t /\ ~ hasWord courtWords t
      /\ hasWord communityWords t)
  /\ (guessCal title loc = u "Schedule" <->
      ~ hasWord aquaticsWords t /\ ~ hasWord courtWords t
      /\ ~ hasWord communityWords t)
  /\ guessCal (u "Aqua Basketball Clinic") None = u "Aquatics"
  /\ hasWord courtWords
       (toLowerCase (u "Aqua Basketball Clinic" ++ u " " ++ orEmpty None)).
Proof.
  intros t. pose proof (guessCal_cases title loc) as (H1 & H2 & H3 & H4).
  split; [exact H1|]. split; [exact H2|]. split; [exact H3|].
  split; [exact H4|]. split.
  - vm_compute. reflexivity.
  - apply (test_words courtWords); reflexivity.
Qed.

(* ------------------------------------------------------------------------- *)
(** ** Lists, headers, tables and links *)

Lemma findIndex_spec {A : Type} (f : A -> bool) (l : list A) :
  (findIndex f l = (-1)%Z /\ forall x, In x l -> f x = false)
  \/ ((0 <= findIndex f l < Z.of_nat (length l))%Z
      /\ exists x, nth_error l (Z.to_nat (findIndex f l)) = Some x /\ f x = true
         /\ forall j y, j < Z.to_nat (findIndex f l) ->
                        nth_error l j = Some y -> f y = false).
Proof.
  induction l as [|a l IH]; simpl.
  - left. split; auto. intros x [].
  - destruct (f a) eqn:Ea.
    + right. split; [lia|]. exists a. simpl. repeat split; auto. intros j y Hj; lia.
    + destruct IH as [[Hi Hall]|[Hr (x & Hx & Hfx & Hbefore)]].
      * left. rewrite Hi. simpl. split; auto.
        intros x [<-|Hx]; auto.
      * right. destruct (findIndex f l <? 0)%Z eqn:El; [apply Z.ltb_lt in El; lia|].
        split; [lia|]. exists x.
        replace (Z.to_nat (findIndex f l + 1)) with (S (Z.to_nat (findIndex f l))) by lia.
        simpl. repeat split; auto.
        intros [|j] y Hj Hy; simpl in Hy.
        -- inversion Hy; subst; auto.
        -- apply (Hbefore j); auto. lia.
Qed.

Lemma findIndex_ext {A : Type} (f g : A -> bool) (l : list A) :
  (forall x, f x = g x) -> findIndex f l = findIndex g l.
Proof.
  intros H. induction l as [|a l IH]; simpl; auto. now rewrite H, IH.
Qed.

Lemma headerMatches_keys (keys keys' : list jsstring) (h : jsstring) :
  (forall k, In k keys <-> In k keys') ->
  headerMatches keys h = headerMatches keys' h.
Proof.
  intros H. unfold headerMatches. apply eq_true_iff_eq.
  rewrite !existsb_exists. split; intros (k & Hk & Hi); exists k; split; auto;
    now apply H.
Qed.

Lemma startsWith_spec (p : jsstring) : forall s,
  startsWith s p = true <-> exists post, s = p ++ post.
Proof.
  induction p as [|x p IH]; intros s; simpl.
  - split; [intros _; now exists s | reflexivity].
  - destruct s as [|y s]; simpl.
    + split; [discriminate|]. intros (post & H); discriminate.
    + rewrite andb_true_iff, N.eqb_eq, IH. split.
      * intros (-> & post & ->). eauto.
      * intros (post & H). inversion H; subst. eauto.
Qed.

Lemma includes_spec (k : jsstring) : forall s,
  includes s k = true <-> exists pre post, s = pre ++ k ++ post.
Proof.
  induction s as [|c s IH].
  - change (includes [] k) with (startsWith [] k || false).
    rewrite orb_false_r. rewrite startsWith_spec. split.
    + intros (post & H). exists [], post. auto.
    + intros (pre & post & H). destruct pre; simpl in *; eauto.
      discriminate.
  - change (includes (c :: s) k) with (startsWith (c :: s) k || includes s k).
    rewrite orb_true_iff, startsWith_spec, IH. split.
    + intros [(post & H)|(pre & post & H)].
      * exists [], post. auto.
      * exists (c :: pre), post. simpl. now rewrite H.
    + intros (pre & post & H). destruct pre as [|c' pre]; simpl in *.
      * left. eauto.
      * right. inversion H; subst. eauto.
Qed.

Lemma find_first {A : Type} (f : A -> bool) (l : list A) (x : A) :
  List.find f l = Some x <->
  exists l1 l2, l = l1 ++ x :: l2 /\ f x = true
                /\ Forall (fun y => f y = false) l1.
Proof.
  induction l as [|a l IH]; simpl.
  - split; [discriminate|]. intros (l1 & l2 & H & _). destruct l1; discriminate.
  - destruct (f a) eqn:Ea.
    + split.
      * intros H; inversion H; subst. exists [], l. auto.
      * intros (l1 & l2 & H & Hx & Hall). destruct l1 as [|b l1]; simpl in H.
        -- inversion H; subst; auto.
        -- inversion H; subst. inversion Hall; subst. congruence.
    + rewrite IH. split.
      * intros (l1 & l2 & -> & Hx & Hall). exists (a :: l1), l2. auto.
      * intros (l1 & l2 & H & Hx & Hall). destruct l1 as [|b l1]; simpl in H.
        -- inversion H; subst; congruence.
        -- inversion H; subst. inversion Hall; subst. eauto.
Qed.

Lemma find_none_iff {A : Type} (f : A -> bool) (l : list A) :
  List.find f l = None <-> Forall (fun y => f y = false) l.
Proof.
  induction l as [|a l IH]; simpl.
  - split; auto.
  - destruct (f a) eqn:Ea.
    + split; [discriminate|]. intros H; inversion H; subst; congruence.
    + rewrite IH. split; intros H; [constructor; auto | now inversion H].
Qed.

Lemma pickTable_fold (l : list node) : forall cur,
  fold_left pickTable l cur
  = match cur with Some t => Some t | None => List.find qualifies l end.
Proof.
  induction l as [|a l IH]; intros cur; simpl.
  - now destruct cur.
  - rewrite IH. unfold pickTable, qualifies.
    destruct cur; simpl.
    + now rewrite andb_false_r.
    + rewrite andb_true_r. now destruct (hasHead a && hasBody a).
Qed.

Lemma selectTable_find doc :
  selectTable doc = List.find qualifies (select (tag "table") doc).
Proof. unfold selectTable. now rewrite pickTable_fold. Qed.

Lemma lastOr_Some (w : jsstring) : forall c, lastOr (Some c) w <> None.
Proof. induction w as [|d w IH]; intros c; simpl; [discriminate | apply IH]. Qed.

Lemma lastOr_None (w : jsstring) : lastOr None w = None -> w = [].
Proof.
  destruct w as [|c w]; auto. simpl. intros H. now apply lastOr_Some in H.
Qed.

Lemma lowerAscii_letter c x :
  between 97 122 x = true -> lowerAscii c = x -> c = x \/ c = (x - 32)%N.
Proof.
  unfold lowerAscii, between. intros Hx H.
  apply andb_prop in Hx as [H1 H2]. apply N.leb_le in H1, H2.
  destruct ((65 <=? c)%N && (c <=? 90)%N) eqn:E.
  - right. lia.
  - left. exact H.
Qed.

Lemma lowerAscii_other c x :
  between 97 122 x = false -> between 65 90 x = false -> lowerAscii c = x -> c = x.
Proof.
  unfold lowerAscii, between. intros Hx Hy H.
  destruct ((65 <=? c)%N && (c <=? 90)%N) eqn:E; auto.
  apply andb_prop in E as [H1 H2]. apply N.leb_le in H1, H2.
  apply andb_false_iff in Hx. exfalso.
  destruct Hx as [Hx|Hx]; apply N.leb_gt in Hx; lia.
Qed.

Lemma ci_ok c x : c = x \/ c = (x - 32)%N -> ((c =? x)%N || (c =? x - 32)%N) = true.
Proof. intros [->| ->]; rewrite N.eqb_refl; auto using orb_true_r. Qed.

Lemma scheme_matches (h : jsstring) :
  hasScheme h = true ->
  exists w post, h = w ++ post /\ Matches re_scheme None w post.
Proof.
  unfold hasScheme. intros H.
  apply orb_prop in H as [H|H]; apply startsWith_spec in H as (post' & H).
  - destruct h as [|c1 [|c2 [|c3 [|c4 [|c5 [|c6 [|c7 post]]]]]]]; try discriminate.
    simpl in H. injection H as H1 H2 H3 H4 H5 H6 H7 _.
    apply lowerAscii_letter in H1, H2, H3, H4; try reflexivity.
    apply lowerAscii_other in H5, H6, H7; try reflexivity. subst c5 c6 c7.
    exists [c1; c2; c3; c4; 58; 47; 47]%N, post. split; [reflexivity|].
    unfold re_scheme, ci, lit1; simpl.
    change [c1; c2; c3; c4; 58; 47; 47]%N
      with ([] ++ [c1] ++ [c2] ++ [c3] ++ [c4] ++ [] ++ [58] ++ [47] ++ [47])%N.
    repeat (apply M_Seq || apply M_Chr || apply M_Rep || apply M_Bol);
      auto using ci_ok, N.eqb_refl; simpl; try lia.
  - destruct h as [|c1 [|c2 [|c3 [|c4 [|c5 [|c6 [|c7 [|c8 post]]]]]]]]; try discriminate.
    simpl in H. injection H as H1 H2 H3 H4 H5 H6 H7 H8 _.
    apply lowerAscii_letter in H1, H2, H3, H4, H5; try reflexivity.
    apply lowerAscii_other in H6, H7, H8; try reflexivity. subst c6 c7 c8.
    exists [c1; c2; c3; c4; c5; 58; 47; 47]%N, post. split; [reflexivity|].
    unfold re_scheme, ci, lit1; simpl.
    change [c1; c2; c3; c4; c5; 58; 47; 47]%N
      with ([] ++ [c1] ++ [c2] ++ [c3] ++ [c4] ++ [c5] ++ [58] ++ [47] ++ [47])%N.
    repeat (apply M_Seq || apply M_Chr || apply M_Rep || apply M_Bol);
      auto using ci_ok, N.eqb_refl; simpl; try lia.
    all: try (intros h Hh; inversion Hh; subst; simpl; lia).
    all: try (constructor; [|constructor]; destruct H5 as [->| ->]; reflexivity).
Qed.

Lemma matches_scheme (w post : jsstring) :
  Matches re_scheme None w post -> hasScheme (w ++ post) = true.
Proof.
  unfold re_scheme, ci, lit1; simpl. intros H. minv. unfold lit1 in *. minv.
  repeat match goal with
  | H : (_ || _)%bool = true |- _ => apply orb_prop in H; destruct H
  end;
  repeat match goal with
  | H : N.eqb _ _ = true |- _ => apply N.eqb_eq in H; subst
  end;
  match goal with
  | Ha : Forall _ ?w, Hl : forall h : nat, _ -> length ?w <= h |- _ =>
      assert (Hlen := Hl 1 eq_refl);
      destruct w as [|s [|s' w']]; simpl in Hlen; try lia;
      [ reflexivity
      | inversion Ha as [|? ? Hs _]; subst;
        apply orb_prop in Hs; destruct Hs as [Hs|Hs];
        apply N.eqb_eq in Hs; subst; reflexivity ]
  end.
Qed.

Lemma test_scheme (h : jsstring) : test re_scheme h = hasScheme h.
Proof.
  apply eq_true_iff_eq. rewrite test_spec. split.
  - intros (pre & w & post & -> & Hm).
    assert (Hpre : pre = []).
    { apply lastOr_None. unfold re_scheme in Hm; simpl in Hm.
      inversion Hm; subst. now match goal with H : Matches Bol _ _ _ |- _ => inversion H end. }
    subst pre. simpl in *. now apply matches_scheme.
  - intros H. apply scheme_matches in H as (w & post & -> & Hm).
    exists [], w, post. auto.
Qed.

(* ------------------------------------------------------------------------- *)
(** ** Section 4.1: header roles *)

(** C5, as stated, fails: with the headers "start date", "time", the keyword
    "time" comes first in the list of the time role and is in the second
    header, yet the role resolves to the first header, which contains
    "start". *)
Lemma findHeader_not_keyword_order :
  findHeader [u "start date"; u "time"] [u "time"; u "hours"; u "start"] = 0%Z
  /\ findHeader_spec [u "start date"; u "time"] [u "time"; u "hours"; u "start"]
     = 1%Z
  /\ findHeader [u "start date"; u "time"] [u "time"; u "hours"; u "start"]
     <> findHeader_spec [u "start date"; u "time"]
          [u "time"; u "hours"; u "start"].
Proof. vm_compute. repeat split; discriminate. Qed.

(** C5, amended. Each role resolves to the first header, in column order,
    that contains any keyword of the role as a substring, and to -1 when no
    header does; the order of the keywords within a list has no effect.  The
    lists are date: date; time: time, hours, start; activity: activity,
    class, title, description, program, course; location: location, room,
    facility.  An unresolved activity role reads column 0.  The headers
    Date, Time, Activity, Location resolve to (0,1,2,3), and with Class,
    Date/Time, Room the activity is column 0. *)
Theorem findHeader_first_header (headers keys : list jsstring) :
  let i := findHeader headers keys in
  ((i = (-1)%Z /\ forall h, In h headers -> headerMatches keys h = false)
   \/ ((0 <= i < Z.of_nat (length headers))%Z
       /\ exists h, nth_error headers (Z.to_nat i) = Some h
            /\ headerMatches keys h = true
            /\ forall j h', j < Z.to_nat i -> nth_error headers j = Some h' ->
                            headerMatches keys h' = false))
  /\ (forall h, headerMatches keys h = true <->
                exists k, In k keys /\ exists pre post, h = pre ++ k ++ post)
  /\ (forall keys', (forall k, In k keys <-> In k keys') ->
                    findHeader headers keys' = i)
  /\ resolveIdx headers
     = {| idxDate := findHeader headers [u "date"];
          idxTime := findHeader headers [u "time"; u "hours"; u "start"];
          idxAct := findHeader headers
                      [u "activity"; u "class"; u "title"; u "description";
                       u "program"; u "course"];
          idxLoc := findHeader headers [u "location"; u "room"; u "facility"] |}
  /\ (forall ix tds, (idxAct ix < 0)%Z -> actCellOf ix tds = eq 0 tds)
  /\ resolveIdx (map toLowerCase [u "Date"; u "Time"; u "Activity"; u "Location"])
     = {| idxDate := 0; idxTime := 1; idxAct := 2; idxLoc := 3 |}
  /\ idxAct (resolveIdx (map toLowerCase [u "Class"; u "Date/Time"; u "Room"]))
     = 0%Z.
Proof.
  intros i. split; [|split; [|split; [|split; [|split; [|split]]]]].
  - apply (findIndex_spec (headerMatches keys) headers).
  - intros h. unfold headerMatches. rewrite existsb_exists.
    split; intros (k & Hk & Hi); exists k; split; auto;
      now apply includes_spec.
  - intros keys' Hk. unfold i, findHeader. apply findIndex_ext.
    intros h. symmetry. now apply headerMatches_keys.
  - reflexivity.
  - intros ix tds Hi. unfold actCellOf.
    destruct (idxAct ix >=? 0)%Z eqn:E; auto. apply Z.geb_le in E. lia.
  - vm_compute. reflexivity.
  - vm_compute. reflexivity.
Qed.

(* ------------------------------------------------------------------------- *)
(** ** Section 4.1: links *)

(** C8, as stated, fails: with an empty base origin a relative href comes
    back as it is, with no separator put in front. *)
Lemma absolutize_empty_base :
  absolutize (Some (u "detail/123")) [] = Some (u "detail/123")
  /\ absolutize_spec (u "detail/123") [] = u "/detail/123"
  /\ absolutize (Some (u "detail/123")) []
     <> Some (absolutize_spec (u "detail/123") []).
Proof. vm_compute. repeat split; discriminate. Qed.

(** C8, amended. An absent or empty href gives null.  A non-empty href that
    begins with http:// or https://, the letters in either case, is returned
    unchanged.  Any other non-empty href is returned unchanged when the base
    origin is empty, and otherwise prefixed with the base origin, with a "/"
    in between exactly when the href does not start with "/".  "/detail/123"
    with "https://example.org" gives "https://example.org/detail/123". *)
Theorem absolutize_cases (href baseOrigin : jsstring) :
  absolutize None baseOrigin = None
  /\ absolutize (Some href) baseOrigin
     = (if falsy href then None
        else if hasScheme href then Some href
        else if falsy baseOrigin then Some href
        else if startsWith href (u "/") then Some (baseOrigin ++ href)
        else Some (baseOrigin ++ u "/" ++ href))
  /\ absolutize (Some (u "/detail/123")) (u "https://example.org")
     = Some (u "https://example.org/detail/123")
  /\ absolutize (Some (u "https://other.org/x")) (u "https://example.org")
     = Some (u "https://other.org/x").
Proof.
  split; [reflexivity|]. split; [|split; vm_compute; reflexivity].
  unfold absolutize. rewrite test_scheme.
  destruct (falsy href); auto. destruct (hasScheme href); auto.
  destruct (falsy baseOrigin); auto.
  destruct (startsWith href (u "/")); reflexivity.
Qed.

(* ------------------------------------------------------------------------- *)
(** ** Rows, blocks and the events they give *)

Lemma fold_collect {A B : Type} (f : A -> option B) (xs : list A) :
  forall acc,
    fold_left (fun out x => match f x with Some y => out ++ [y] | None => out end)
      xs acc
    = acc ++ flat_map (pushed f) xs.
Proof.
  induction xs as [|x xs IH]; intros acc; simpl.
  - now rewrite app_nil_r.
  - rewrite IH. unfold pushed at 2. destruct (f x); simpl.
    + now rewrite <- app_assoc.
    + reflexivity.
Qed.

Lemma collect_flat_map {A B : Type} (f : A -> option B) (xs : list A) :
  collect f xs = flat_map (pushed f) xs.
Proof. unfold collect. now rewrite fold_collect. Qed.

Lemma collect_In {A B : Type} (f : A -> option B) (xs : list A) (y : B) :
  In y (collect f xs) <-> exists x, In x xs /\ f x = Some y.
Proof.
  rewrite collect_flat_map, in_flat_map. unfold pushed. split.
  - intros (x & Hx & Hy). exists x. split; auto.
    destruct (f x); simpl in Hy; [|contradiction].
    destruct Hy as [<-|[]]. reflexivity.
  - intros (x & Hx & Hy). exists x. split; auto. rewrite Hy. now left.
Qed.

Lemma collect_length {A B : Type} (f : A -> option B) (xs : list A) :
  length (collect f xs) <= length xs.
Proof.
  rewrite collect_flat_map. induction xs as [|x xs IH]; simpl; auto.
  rewrite length_app. unfold pushed at 1. destruct (f x); simpl; lia.
Qed.

Lemma falsy_nil (s : jsstring) : falsy s = true <-> s = [].
Proof. destruct s; simpl; split; auto; discriminate. Qed.

Lemma falsy_false (s : jsstring) : falsy s = false <-> s <> [].
Proof. destruct s; simpl; split; auto; try discriminate. intros H; now contradiction H. Qed.

Lemma instantsOf_some tz dt s e :
  instantsOf tz dt = Some (s, e) <->
  toISO tz (date dt ++ u " " ++ start dt) = Some s
  /\ toISO tz (date dt ++ u " " ++ end_ dt) = Some e.
Proof.
  unfold instantsOf.
  destruct (toISO tz (date dt ++ u " " ++ start dt)),
           (toISO tz (date dt ++ u " " ++ end_ dt)); split;
    first [ solve [intros H; inversion H; auto]
          | solve [intros (H1 & H2); congruence] ].
Qed.

Lemma instantsOf_none tz dt :
  instantsOf tz dt = None <->
  toISO tz (date dt ++ u " " ++ start dt) = None
  \/ toISO tz (date dt ++ u " " ++ end_ dt) = None.
Proof.
  unfold instantsOf.
  destruct (toISO tz (date dt ++ u " " ++ start dt)),
           (toISO tz (date dt ++ u " " ++ end_ dt)); split; auto;
    try discriminate; intros [H|H]; discriminate.
Qed.

Lemma detailRow_some tz ix base tr ev :
  detailRow tz ix base tr = Some ev <->
  find (tag "td") tr <> []
  /\ titleOf (actCellOf ix (find (tag "td") tr)) <> []
  /\ exists dt s e,
       dateTimeOf ix (find (tag "td") tr) = Some dt
       /\ instantsOf tz dt = Some (s, e)
       /\ ev = {| cal := guessCal (titleOf (actCellOf ix (find (tag "td") tr)))
                          (locOf ix (find (tag "td") tr));
                  title := titleOf (actCellOf ix (find (tag "td") tr));
                  startISO := s; endISO := e;
                  url := absolutize
                           (attr (u "href")
                              (first (findIn sel_a_href
                                        (actCellOf ix (find (tag "td") tr)))))
                           base;
                  location := locOf ix (find (tag "td") tr) |}.
Proof.
  unfold detailRow.
  generalize (find (tag "td") tr). intros tds.
  destruct tds as [|td tds'] eqn:Etds.
  - simpl. split; [discriminate|]. intros (H & _). now contradiction H.
  - rewrite <- Etds. replace (length tds =? 0) with false
      by (rewrite Etds; reflexivity).
    destruct (falsy (titleOf (actCellOf ix tds))) eqn:Ef.
    + apply falsy_nil in Ef. split; [discriminate|]. intros (_ & H & _). contradiction.
    + apply falsy_false in Ef.
      destruct (dateTimeOf ix tds) as [dt|].
      * destruct (instantsOf tz dt) as [[s e]|] eqn:Ei.
        -- split.
           ++ intros H. inversion H; subst ev. repeat split; auto.
              ** rewrite Etds; discriminate.
              ** exists dt, s, e. auto.
           ++ intros (_ & _ & dt' & s' & e' & Hd & Hi & ->).
              inversion Hd; subst dt'. rewrite Ei in Hi. inversion Hi; subst.
              reflexivity.
        -- split; [discriminate|].
           intros (_ & _ & dt' & s' & e' & Hd & Hi & _).
           inversion Hd; subst dt'. congruence.
      * split; [discriminate|].
        intros (_ & _ & dt' & s' & e' & Hd & _). discriminate.
Qed.

Lemma fallbackBlock_some tz base el ev :
  fallbackBlock tz base el = Some ev <->
  test re_date (clean (textContent el)) = true
  /\ blockTitle el (clean (textContent el)) <> []
  /\ exists dt s e,
       parseDateTimeLoose (clean (textContent el)) = Some dt
       /\ instantsOf tz dt = Some (s, e)
       /\ ev = {| cal := guessCal (blockTitle el (clean (textContent el))) None;
                  title := blockTitle el (clean (textContent el));
                  startISO := s; endISO := e;
                  url := absolutize
                           (attr (u "href") (first (find sel_a_href el))) base;
                  location := None |}.
Proof.
  unfold fallbackBlock.
  generalize (clean (textContent el)). intros text.
  destruct (test re_date text); simpl.
  2: { split; [discriminate|]. intros (H & _); discriminate. }
  destruct (parseDateTimeLoose text) as [dt|].
  2: { split; [discriminate|]. intros (_ & _ & dt' & s' & e' & Hd & _). discriminate. }
  destruct (falsy (blockTitle el text)) eqn:Ef.
  - apply falsy_nil in Ef. split; [discriminate|]. intros (_ & H & _). contradiction.
  - apply falsy_false in Ef.
    destruct (instantsOf tz dt) as [[s e]|] eqn:Ei.
    + split.
      * intros H. inversion H; subst ev. repeat split; auto.
        exists dt, s, e. auto.
      * intros (_ & _ & dt' & s' & e' & Hd & Hi & ->).
        inversion Hd; subst dt'. rewrite Ei in Hi. inversion Hi; subst.
        reflexivity.
    + split; [discriminate|].
      intros (_ & _ & dt' & s' & e' & Hd & Hi & _).
      inversion Hd; subst dt'. congruence.
Qed.

Lemma titleOf_empty (c : option node) :
  titleOf c = [] <->
  clean (text c) = [] /\ clean (text (first (findIn (tag "a") c))) = [].
Proof.
  unfold titleOf, orElse. destruct (clean (text c)) as [|x s]; simpl.
  - tauto.
  - split; [discriminate|]. intros (H & _); discriminate.
Qed.

(* ------------------------------------------------------------------------- *)
(** ** Section 4.1: table selection *)

Lemma node_induction (P : node -> Prop) :
  (forall d, P (Text d)) ->
  (forall d, P (Comment d)) ->
  (forall name attribs cs, Forall P cs -> P (Element name attribs cs)) ->
  forall n, P n.
Proof.
  intros Ht Hc He. fix IH 1. intros [d|d|name attribs cs].
  - apply Ht.
  - apply Hc.
  - apply He. induction cs as [|c cs IHcs]; constructor; [apply IH | exact IHcs].
Qed.

Lemma inside_trans x y z : inside x y -> inside y z -> inside x z.
Proof.
  intros Hxy Hyz. induction Hyz as [n Hy | c n Hc Hyc IH].
  - now apply inside_deep with (c := y).
  - now apply inside_deep with (c := c).
Qed.

Lemma inside_inv x n :
  inside x n -> exists c, In c (children n) /\ (x = c \/ inside x c).
Proof. intros [n' H | c n' Hc H]; eauto. Qed.

(** A selector of one compound takes the elements of the subtree that
    satisfy it. *)
Lemma walk_one t : forall n x,
  In x (walk [[[Tag (u t)]]] n) <-> (x = n \/ inside x n) /\ named t x.
Proof.
  induction n as [d|d|name attribs cs IH] using node_induction; intros x.
  - simpl. split; [contradiction|]. intros ([->|H] & Hn).
    + discriminate Hn.
    + apply inside_inv in H as (c & [] & _).
  - simpl. split; [contradiction|]. intros ([->|H] & Hn).
    + discriminate Hn.
    + apply inside_inv in H as (c & [] & _).
  - cbn [walk map advance existsb selectsHere orb].
    rewrite in_app_iff, in_flat_map. rewrite Forall_forall in IH. split.
    + intros [H|(c & Hc & H)].
      * rewrite orb_false_r in H.
        destruct (matchesCompound [Tag (u t)] (Element name attribs cs)) eqn:E;
          [|contradiction].
        destruct H as [<-|[]]. split; [now left | exact E].
      * apply (IH c Hc) in H as ([->|H] & Hn); split; auto; right.
        -- now apply inside_child.
        -- now apply inside_deep with (c := c).
    + intros ([->|H] & Hn).
      * left. rewrite orb_false_r. unfold named in Hn. rewrite Hn. now left.
      * right. apply inside_inv in H as (c & Hc & H). exists c. split; auto.
        apply (IH c Hc). split; assumption.
Qed.

(** A selector [a b] takes the elements [b] inside an element [a] of the
    subtree. *)
Lemma walk_two a b : forall n x,
  In x (walk [[[Tag (u a)]; [Tag (u b)]]] n) <->
  named b x /\ exists h, (h = n \/ inside h n) /\ named a h /\ inside x h.
Proof.
  induction n as [d|d|name attribs cs IH] using node_induction; intros x.
  - simpl. split; [contradiction|]. intros (_ & h & [->|H] & Hn & Hx).
    + discriminate Hn.
    + apply inside_inv in H as (c & [] & _).
  - simpl. split; [contradiction|]. intros (_ & h & [->|H] & Hn & Hx).
    + discriminate Hn.
    + apply inside_inv in H as (c & [] & _).
  - cbn [walk map advance existsb selectsHere orb app].
    rewrite in_flat_map. rewrite Forall_forall in IH.
    destruct (matchesCompound [Tag (u a)] (Element name attribs cs)) eqn:E.
    + split.
      * intros (c & Hc & H). apply walk_one in H as (H & Hn).
        split; [exact Hn|]. exists (Element name attribs cs).
        split; [now left|]. split; [exact E|].
        destruct H as [->|H]; [now apply inside_child
                              | now apply inside_deep with (c := c)].
      * intros (Hn & h & Hh & Ha & Hx).
        assert (Hin : inside x (Element name attribs cs)).
        { destruct Hh as [->|Hh]; [exact Hx | exact (inside_trans _ _ _ Hx Hh)]. }
        apply inside_inv in Hin as (c & Hc & H). exists c. split; auto.
        apply walk_one. split; assumption.
    + split.
      * intros (c & Hc & H). apply (IH c Hc) in H as (Hn & h & Hh & Ha & Hx).
        split; [exact Hn|]. exists h. split; [right|split; assumption].
        destruct Hh as [->|Hh]; [now apply inside_child
                                | now apply inside_deep with (c := c)].
      * intros (Hn & h & [->|Hh] & Ha & Hx).
        { unfold named in Ha. rewrite Ha in E. discriminate. }
        apply inside_inv in Hh as (c & Hc & Hh). exists c. split; auto.
        apply (IH c Hc). split; [exact Hn|]. exists h. auto.
Qed.

Lemma find_two a b el x :
  In x (find [[[Tag (u a)]; [Tag (u b)]]] el) <->
  named b x /\ exists h, inside h el /\ named a h /\ inside x h.
Proof.
  unfold find. rewrite in_flat_map. split.
  - intros (c & Hc & H). apply walk_two in H as (Hn & h & Hh & Ha & Hx).
    split; [exact Hn|]. exists h. split; [|split; assumption].
    destruct Hh as [->|Hh]; [now apply inside_child
                            | now apply inside_deep with (c := c)].
  - intros (Hn & h & Hh & Ha & Hx). apply inside_inv in Hh as (c & Hc & Hh).
    exists c. split; auto. apply walk_two. split; [exact Hn|]. exists h. auto.
Qed.

(** C2, as stated, fails.  In a layout table that holds two schedule tables
    in one of its cells, the header cells and rows inside it are those of
    the schedule tables: the layout table has no header row of its own, and
    it is the one selected.  The first table with a header row of three
    cells and a data row is the first schedule table; the second one comes
    later and is not ignored, its row gives an event.  And a table whose
    three header cells stand in two rows is taken, with no header row of
    three cells. *)
Lemma parseDetailHtml_nested_tables :
  select (tag "table") page4 = [layoutTable; tableOf "Lap Swim"; tableOf "Yoga"]
  /\ selectTable page4 = Some layoutTable
  /\ qualifies_spec layoutTable = false
  /\ selectTable_spec page4 = Some (tableOf "Lap Swim")
  /\ selectTable page4 <> selectTable_spec page4
  /\ qualifies_spec (tableOf "Yoga") = true
  /\ map title (events (parseDetailHtml (fixed 0) page4 []))
     = [u "Lap Swim"; u "Yoga"]
  /\ map title (events (parseTable (fixed 0) (tableOf "Lap Swim") []))
     = [u "Lap Swim"]
  /\ length (headers (diag (parseDetailHtml (fixed 0) page4 []))) = 6
  /\ qualifies splitHead = true
  /\ qualifies_spec splitHead = false.
Proof.
  vm_compute. repeat (split; [reflexivity|]).
  split; [discriminate|]. repeat (split; [reflexivity|]). reflexivity.
Qed.

(** C2. The structured parser takes the first table, in document order, that
    has inside it at least three [th] elements inside [thead] elements and at
    least one [tr] element inside a [tbody] element, at any depth; a table
    after it is not selected.  Every event comes from a [tr] inside a
    [tbody] inside the selected table.  When no table qualifies the parser
    returns no events and [foundTable = false]. *)
Theorem parseDetailHtml_first_table (tz : zone) (doc : document)
  (baseOrigin : jsstring) :
  let tables := select (tag "table") doc in
  (forall el, qualifies el = true <->
              3 <= length (find sel_thead_th el)
              /\ 1 <= length (find sel_tbody_tr el))
  /\ (forall el x,
        In x (find sel_thead_th el) <->
        named "th" x
        /\ exists h, inside h el /\ named "thead" h /\ inside x h)
  /\ (forall el x,
        In x (find sel_tbody_tr el) <->
        named "tr" x
        /\ exists b, inside b el /\ named "tbody" b /\ inside x b)
  /\ (forall t, selectTable doc = Some t <->
                exists before after,
                  tables = before ++ t :: after /\ qualifies t = true
                  /\ Forall (fun x => qualifies x = false) before)
  /\ (selectTable doc = None <-> Forall (fun x => qualifies x = false) tables)
  /\ parseDetailHtml tz doc baseOrigin
     = match selectTable doc with
       | Some t => parseTable tz t baseOrigin
       | None => {| events := []; diag := diag0 |}
       end
  /\ foundTable diag0 = false
  /\ (forall t, foundTable (diag (parseTable tz t baseOrigin)) = true)
  /\ (forall t ev,
        In ev (events (parseTable tz t baseOrigin)) ->
        exists tr b,
          named "tr" tr /\ inside b t /\ named "tbody" b /\ inside tr b
          /\ detailRow tz (resolveIdx (headerTexts t)) baseOrigin tr = Some ev)
  /\ map title (events (parseDetailHtml tz page3 baseOrigin)) = [u "Lap Swim"].
Proof.
  intros tables.
  split; [|split; [|split; [|split; [|split; [|split; [|split; [|split; [|split]]]]]]]].
  - intros el. unfold qualifies, hasHead, hasBody.
    rewrite andb_true_iff, !Nat.leb_le. tauto.
  - intros el x. apply find_two.
  - intros el x. apply find_two.
  - intros t. rewrite selectTable_find. apply find_first.
  - rewrite selectTable_find. apply find_none_iff.
  - reflexivity.
  - reflexivity.
  - reflexivity.
  - intros t ev H. unfold parseTable in H. cbn [events] in H.
    apply collect_In in H as (tr & Htr & H).
    apply (find_two "tbody" "tr") in Htr as (Hn & b & Hb & Hnb & Hin).
    exists tr, b. auto.
  - vm_compute. reflexivity.
Qed.

(** C1. Every event the structured parser or the fallback parser emits has a
    non-empty title and two instants that the date parser accepted.  The
    events of the structured parser are exactly what the rows of the selected
    table give, and those of the fallback parser what the blocks give; a row
    (a block) gives nothing, and raises nothing, when its title is empty
    after the cell text and the text of its first link are tried, when no
    date and time range are found, or when one of the two instants does not
    parse.  On [page1] only the first of the three rows is emitted. *)
Theorem parsers_emit_valid_events (tz : zone) (doc : document)
  (baseOrigin : jsstring) :
  (forall ev,
     In ev (events (parseDetailHtml tz doc baseOrigin))
     \/ In ev (parseFallback tz doc baseOrigin) ->
     title ev <> []
     /\ exists dt,
          toISO tz (date dt ++ u " " ++ start dt) = Some (startISO ev)
          /\ toISO tz (date dt ++ u " " ++ end_ dt) = Some (endISO ev))
  /\ (forall table ev,
        selectTable doc = Some table ->
        (In ev (events (parseDetailHtml tz doc baseOrigin)) <->
         exists tr,
           In tr (find sel_tbody_tr table)
           /\ detailRow tz (resolveIdx (headerTexts table)) baseOrigin tr
              = Some ev))
  /\ (forall ev,
        In ev (parseFallback tz doc baseOrigin) <->
        exists el,
          In el (select sel_blocks doc)
          /\ fallbackBlock tz baseOrigin el = Some ev)
  /\ (forall ix tr,
        titleOf (actCellOf ix (find (tag "td") tr)) = []
        \/ dateTimeOf ix (find (tag "td") tr) = None
        \/ (exists dt,
              dateTimeOf ix (find (tag "td") tr) = Some dt
              /\ (toISO tz (date dt ++ u " " ++ start dt) = None
                  \/ toISO tz (date dt ++ u " " ++ end_ dt) = None)) ->
        detailRow tz ix baseOrigin tr = None)
  /\ (forall el,
        blockTitle el (clean (textContent el)) = []
        \/ parseDateTimeLoose (clean (textContent el)) = None
        \/ (exists dt,
              parseDateTimeLoose (clean (textContent el)) = Some dt
              /\ (toISO tz (date dt ++ u " " ++ start dt) = None
                  \/ toISO tz (date dt ++ u " " ++ end_ dt) = None)) ->
        fallbackBlock tz baseOrigin el = None)
  /\ (forall c,
        titleOf c = [] <->
        clean (text c) = []
        /\ clean (text (first (findIn (tag "a") c))) = [])
  /\ map title (events (parseDetailHtml tz page1 baseOrigin)) = [u "Lap Swim"].
Proof.
  assert (Hrows : forall table ev,
             In ev (events (parseTable tz table baseOrigin)) <->
             exists tr,
               In tr (find sel_tbody_tr table)
               /\ detailRow tz (resolveIdx (headerTexts table)) baseOrigin tr
                  = Some ev).
  { intros table ev. unfold parseTable; simpl. apply collect_In. }
  split; [|split; [|split; [|split; [|split; [|split]]]]].
  - intros ev [H|H].
    + unfold parseDetailHtml in H. destruct (selectTable doc) as [table|];
        [|contradiction].
      apply Hrows in H as (tr & _ & H).
      apply detailRow_some in H as (_ & Ht & dt & s & e & _ & Hi & ->).
      simpl. split; auto. exists dt. now apply instantsOf_some.
    + apply collect_In in H as (el & _ & H).
      apply fallbackBlock_some in H as (_ & Ht & dt & s & e & _ & Hi & ->).
      simpl. split; auto. exists dt. now apply instantsOf_some.
  - intros table ev E. unfold parseDetailHtml. rewrite E. apply Hrows.
  - intros ev. apply collect_In.
  - intros ix tr H.
    destruct (detailRow tz ix baseOrigin tr) as [ev|] eqn:E; auto.
    apply detailRow_some in E as (_ & Ht & dt & s & e & Hd & Hi & _).
    apply instantsOf_some in Hi as (H1 & H2).
    destruct H as [H|[H|(dt' & H & H')]]; try contradiction; try congruence.
    rewrite Hd in H. inversion H; subst dt'. destruct H'; congruence.
  - intros el H.
    destruct (fallbackBlock tz baseOrigin el) as [ev|] eqn:E; auto.
    apply fallbackBlock_some in E as (_ & Ht & dt & s & e & Hd & Hi & _).
    apply instantsOf_some in Hi as (H1 & H2).
    destruct H as [H|[H|(dt' & H & H')]]; try contradiction; try congruence.
    rewrite Hd in H. inversion H; subst dt'. destruct H'; congruence.
  - apply titleOf_empty.
  - vm_compute. reflexivity.
Qed.

Lemma parseDetailHtml_no_fallback_flag tz doc base :
  fallbackUsed (diag (parseDetailHtml tz doc base)) = false.
Proof. unfold parseDetailHtml. now destruct (selectTable doc). Qed.

Lemma length_zero_iff {A : Type} (l : list A) : (length l =? 0) = true <-> l = [].
Proof. destruct l; simpl; split; auto; discriminate. Qed.

(** C7. The handler calls the fallback parser exactly when the structured
    parser yields no event.  When the structured parser yields one or more,
    its result is the result and it is the only parser called; when it yields
    none, the events are the fallback's, counted in [fallbackCount], and
    [fallbackUsed] is set. *)
Theorem fallback_iff_no_structured_events (tz : zone) (doc : document)
  (baseOrigin : jsstring) :
  let p := parseDetailHtml tz doc baseOrigin in
  let r := rawEventsOf tz doc baseOrigin in
  (In CallParseFallback (snd r) <-> events p = [])
  /\ (fallbackUsed (diag (fst r)) = true <-> events p = [])
  /\ (events p <> [] -> fst r = p /\ snd r = [CallParseDetailHtml])
  /\ (events p = [] ->
      events (fst r) = parseFallback tz doc baseOrigin
      /\ fallbackCount (diag (fst r))
         = Some (length (parseFallback tz doc baseOrigin))
      /\ snd r = [CallParseDetailHtml; CallParseFallback])
  /\ map title (events (fst (rawEventsOf tz page1 baseOrigin))) = [u "Lap Swim"]
  /\ snd (rawEventsOf tz page1 baseOrigin) = [CallParseDetailHtml]
  /\ map title (events (fst (rawEventsOf tz page2 baseOrigin))) = [u "Open Gym"]
  /\ snd (rawEventsOf tz page2 baseOrigin)
     = [CallParseDetailHtml; CallParseFallback].
Proof.
  intros p r.
  assert (Hex : map title (events (fst (rawEventsOf tz page1 baseOrigin)))
                = [u "Lap Swim"]
                /\ snd (rawEventsOf tz page1 baseOrigin) = [CallParseDetailHtml]
                /\ map title (events (fst (rawEventsOf tz page2 baseOrigin)))
                   = [u "Open Gym"]
                /\ snd (rawEventsOf tz page2 baseOrigin)
                   = [CallParseDetailHtml; CallParseFallback]).
  { repeat split; vm_compute; reflexivity. }
  revert Hex. generalize page1 page2. intros pg1 pg2 Hex.
  cut ((In CallParseFallback (snd r) <-> events p = [])
       /\ (fallbackUsed (diag (fst r)) = true <-> events p = [])
       /\ (events p <> [] -> fst r = p /\ snd r = [CallParseDetailHtml])
       /\ (events p = [] ->
           events (fst r) = parseFallback tz doc baseOrigin
           /\ fallbackCount (diag (fst r))
              = Some (length (parseFallback tz doc baseOrigin))
           /\ snd r = [CallParseDetailHtml; CallParseFallback])).
  { intros (H1 & H2 & H3 & H4). repeat (split; [assumption|]). exact Hex. }
  clear Hex. unfold r, rawEventsOf. fold p.
  pose proof (parseDetailHtml_no_fallback_flag tz doc baseOrigin) as Hf.
  fold p in Hf.
  pose proof (length_zero_iff (events p)) as Hz.
  clearbody p.
  destruct (length (events p) =? 0) eqn:E; simpl.
  - assert (Hp : events p = []) by now apply Hz.
    split; [|split; [|split]].
    + split; auto.
    + split; auto.
    + intros H; contradiction.
    + auto.
  - assert (Hp : events p <> []).
    { intros H. apply Hz in H. discriminate. }
    rewrite Hf.
    split; [|split; [|split]].
    + split; [intros [H|[]]; discriminate | intros; contradiction].
    + split; [discriminate | intros; contradiction].
    + auto.
    + intros; contradiction.
Qed.

(* ------------------------------------------------------------------------- *)
(** ** Calendar names, the palette and the buckets *)

Lemma guessCal_in (title : jsstring) (loc : option jsstring) :
  In (guessCal title loc) calendarNames.
Proof.
  unfold guessCal, calendarNames.
  destruct (test (re_words aquaticsWords) _); [simpl; auto|].
  destruct (test (re_words courtWords) _); [simpl; auto|].
  destruct (test (re_words communityWords) _); simpl; auto.
Qed.

Lemma calendarNames_ok (c : jsstring) :
  In c calendarNames ->
  falsy c = false
  /\ In (colorForCal c) paletteKeys
  /\ (exists b t r, lookup (colorForCal c) PALETTE = Some (b, t, r))
  /\ In (slugOf c) calendarSlugs
  /\ slugText c <> []
  /\ slugOf c = slugText c.
Proof.
  intros [<-|[<-|[<-|[<-|[]]]]]; vm_compute;
    (split; [reflexivity|]); (split; [tauto|]);
    (split; [do 3 eexists; reflexivity|]); (split; [tauto|]);
    (split; [discriminate | reflexivity]).
Qed.

Lemma rawEvents_cal tz doc base ev :
  In ev (events (fst (rawEventsOf tz doc base))) ->
  In (cal ev) calendarNames /\ title ev <> [].
Proof.
  unfold rawEventsOf.
  destruct (length (events (parseDetailHtml tz doc base)) =? 0) eqn:E; simpl.
  - intros H. unfold parseFallback in H. apply collect_In in H as (el & _ & H).
    apply fallbackBlock_some in H as (_ & Ht & dt & s & e & _ & _ & ->).
    split; [apply guessCal_in | exact Ht].
  - unfold parseDetailHtml. destruct (selectTable doc) as [t|]; simpl;
      [|contradiction].
    intros H. unfold parseTable in H; simpl in H.
    apply collect_In in H as (tr & _ & H).
    apply detailRow_some in H as (_ & Ht & dt & s & e & _ & _ & ->).
    split; [apply guessCal_in | exact Ht].
Qed.

Lemma project_returns tz monday ev :
  In (cal ev) calendarNames ->
  exists r, project tz monday ev = Returns r
            /\ forall key g, r = Some (key, g) -> key = slugOf (cal ev).
Proof.
  intros Hc. apply calendarNames_ok in Hc as (_ & _ & (b & t & r & Hl) & _).
  unfold project. rewrite Hl.
  destruct (falsy (title ev) || falsy (cal ev)).
  - eexists; split; [reflexivity|]. discriminate.
  - destruct (outsideWeek (dayIndexNum (startISO ev) monday)).
    + eexists; split; [reflexivity|]. discriminate.
    + eexists; split; [reflexivity|]. intros key g H. now inversion H.
Qed.

Lemma pushEvent_keys key g (c : Cals) : keysOf (pushEvent key g c) = keysOf c.
Proof.
  unfold keysOf. induction c as [|[k b] c IH]; simpl; auto.
  destruct (Js.eqb k key); simpl; [reflexivity | now rewrite IH].
Qed.

Lemma ensureBucket_keys key lbl (c : Cals) :
  incl (keysOf (ensureBucket key lbl c)) (key :: keysOf c).
Proof.
  unfold ensureBucket, keysOf. destruct (lookup key c).
  - apply incl_tl, incl_refl.
  - rewrite map_app. simpl. intros x Hx. apply in_app_or in Hx as [Hx|[<-|[]]];
      simpl; auto.
Qed.

Lemma buildCals_returns tz monday (evs : list RawEvent) :
  (forall ev, In ev evs -> In (cal ev) calendarNames) ->
  forall c0, incl (keysOf c0) calendarSlugs ->
  exists c, fold_left (step tz monday) evs (Returns c0) = Returns c
            /\ incl (keysOf c) calendarSlugs.
Proof.
  induction evs as [|ev evs IH]; intros Hall c0 Hc0; simpl.
  - eauto.
  - assert (Hev : In (cal ev) calendarNames) by (apply Hall; now left).
    destruct (project_returns tz monday ev Hev) as (r & Hr & Hkey).
    rewrite Hr. destruct r as [[key g]|].
    + apply IH; [intros; apply Hall; now right|].
      rewrite pushEvent_keys. intros x Hx.
      apply ensureBucket_keys in Hx as [<-|Hx]; auto.
      rewrite (Hkey key g eq_refl).
      now apply calendarNames_ok in Hev as (_ & _ & _ & Hs & _).
    + apply IH; auto. intros; apply Hall; now right.
Qed.

Lemma buildCals_total tz monday (evs : list RawEvent) :
  (forall ev, In ev evs -> In (cal ev) calendarNames) ->
  exists c, buildCals tz monday evs = Returns c
            /\ incl (keysOf c) calendarSlugs.
Proof.
  intros H. unfold buildCals. apply buildCals_returns; auto. intros x [].
Qed.

Lemma handler_returns tz doc baseOrigin startDate :
  exists o, handler tz doc baseOrigin startDate = Returns o
            /\ forall key, In key (keysOf (outCals o)) -> In key calendarSlugs.
Proof.
  unfold handler. cbv zeta.
  destruct (buildCals_total tz (mondayOf tz startDate)
              (events (fst (rawEventsOf tz doc baseOrigin))))
    as (cals & Hc & Hk).
  - intros ev Hev. now apply rawEvents_cal in Hev.
  - rewrite Hc. eexists. split; [reflexivity|]. exact Hk.
Qed.

(** C10. The classifier returns one of "Aquatics", "Court Sports",
    "Community", "Schedule"; so the color key is one of the four keys of the
    palette and the lookup of line 65 finds an entry, the bucket key is one
    of "aquatics", "courtsports", "community", "schedule", the slug is never
    empty (the fallback to "schedule" is not taken), projecting an event with
    such a name never throws, and the handler returns buckets under these
    four keys only. *)
Theorem guessCal_names_palette (tz : zone) (title : jsstring)
  (loc : option jsstring) :
  let c := guessCal title loc in
  In c calendarNames
  /\ In (colorForCal c) paletteKeys
  /\ (exists b t r, lookup (colorForCal c) PALETTE = Some (b, t, r))
  /\ In (slugOf c) calendarSlugs
  /\ slugText c <> []
  /\ slugOf c = slugText c
  /\ (forall monday ev, cal ev = c -> project tz monday ev <> Throws)
  /\ (forall doc baseOrigin startDate,
        exists o, handler tz doc baseOrigin startDate = Returns o
                  /\ forall key, In key (keysOf (outCals o)) ->
                                 In key calendarSlugs).
Proof.
  intros c. pose proof (guessCal_in title loc) as Hin. fold c in Hin.
  destruct (calendarNames_ok c Hin) as (_ & H2 & H3 & H4 & H5 & H6).
  repeat (split; [assumption|]). split.
  - intros monday ev Hc.
    destruct (project_returns tz monday ev) as (r & Hr & _);
      [rewrite Hc; exact Hin|].
    rewrite Hr. discriminate.
  - intros doc baseOrigin startDate. apply handler_returns.
Qed.

(* ------------------------------------------------------------------------- *)
(** ** Days, weeks and the grid *)

Section Week.

Local Open Scope Z_scope.

Lemma allFrom_spec (f : Z -> bool) : forall fuel z,
  allFrom fuel z f = true ->
  forall x, z <= x < z + Z.of_nat fuel -> f x = true.
Proof.
  induction fuel as [|k IH]; intros z H x Hx; simpl in *.
  - lia.
  - apply andb_prop in H as [Hz Hrest].
    destruct (Z.eq_dec x z) as [->|Hne]; auto.
    apply (IH (z + 1)); auto. lia.
Qed.

Lemma era_days_ok : allFrom (Z.to_nat 146097) 0 eraDayOk = true.
Proof. vm_compute. reflexivity. Qed.

Lemma eraDayOk_all doe : 0 <= doe < 146097 -> eraDayOk doe = true.
Proof.
  intros H. apply (allFrom_spec eraDayOk (Z.to_nat 146097) 0 era_days_ok). lia.
Qed.

Lemma days_from_civil_linear y m d :
  days_from_civil y m d = days_from_civil y m 1 + d - 1.
Proof. unfold days_from_civil. lia. Qed.

Lemma civil_roundtrip z :
  let '(y, m, d) := civil_from_days z in
  days_from_civil y m d = z /\ 1 <= m <= 12 /\ 1 <= d <= 31.
Proof.
  unfold civil_from_days.
  set (z' := z + 719468).
  set (era := z' / 146097).
  set (doe := z' - era * 146097).
  assert (Hdoe : 0 <= doe < 146097).
  { unfold doe, era. pose proof (Z.mod_pos_bound z' 146097 eq_refl).
    rewrite Z.mod_eq in H by lia. lia. }
  pose proof (eraDayOk_all doe Hdoe) as Hok. unfold eraDayOk in Hok.
  set (yoe := (doe - doe / 1460 + doe / 36524 - doe / 146096) / 365) in *.
  set (doy := doe - (365 * yoe + yoe / 4 - yoe / 100)) in *.
  set (mp := (5 * doy + 2) / 153) in *.
  set (d := doy - (153 * mp + 2) / 5 + 1) in *.
  repeat (apply andb_prop in Hok as [Hok ?]).
  repeat match goal with
  | H : (_ <=? _) = true |- _ => apply Z.leb_le in H
  end.
  assert (Hera : forall y', y' = yoe + era * 400 -> y' / 400 = era).
  { intros y' ->. rewrite Z.div_add by lia. rewrite Z.div_small; lia. }
  unfold days_from_civil.
  destruct (mp <? 10) eqn:Emp; [apply Z.ltb_lt in Emp | apply Z.ltb_ge in Emp].
  - replace (mp + 3 <=? 2) with false by (symmetry; apply Z.leb_gt; lia).
    replace (mp + 3 >? 2) with true by (symmetry; apply Z.gtb_lt; lia).
    rewrite (Hera _ eq_refl).
    replace (mp + 3 - 3) with mp by lia.
    replace (yoe + era * 400 - era * 400) with yoe by lia.
    split; [|lia]. unfold d, doy, doe, z'. lia.
  - replace (mp - 9 <=? 2) with true by (symmetry; apply Z.leb_le; lia).
    replace (mp - 9 >? 2) with false by (symmetry; rewrite Z.gtb_ltb; apply Z.ltb_ge; lia).
    replace (yoe + era * 400 + 1 - 1) with (yoe + era * 400) by lia.
    rewrite (Hera _ eq_refl).
    replace (mp - 9 + 9) with mp by lia.
    replace (yoe + era * 400 - era * 400) with yoe by lia.
    split; [|lia]. unfold d, doy, doe, z'. lia.
Qed.

Lemma Day_midnight n : Day (n * msPerDay) = n.
Proof. unfold Day, msPerDay. apply Z.div_mul. lia. Qed.

Lemma TimeWithinDay_midnight n : TimeWithinDay (n * msPerDay) = 0.
Proof. unfold TimeWithinDay, msPerDay. apply Z.mod_mul. lia. Qed.

(** The anchor, where the local midnight of the reference date exists: it is
    what the zone reads the midnight [(D + 3) mod 7] days before the day [D]
    of the date as. *)
Lemma getMonday_utc tz d :
  present tz (Day (localTime tz d) * msPerDay) ->
  getMonday tz d
  = utc tz ((Day (localTime tz d) - (Day (localTime tz d) + 3) mod 7) * msPerDay).
Proof.
  intros Hp. unfold getMonday, setDate, getDate, setHours0, getDay.
  set (D := Day (localTime tz d)) in *. unfold present in Hp.
  rewrite !Hp, Day_midnight, TimeWithinDay_midnight.
  pose proof (civil_roundtrip D) as H.
  destruct (civil_from_days D) as [[y m] dd]. destruct H as (H & _ & _).
  rewrite days_from_civil_linear in H.
  replace (((D + 4) mod 7 + 6) mod 7) with ((D + 3) mod 7).
  - f_equal. clearbody D. subst D. ring.
  - rewrite Z.add_mod_idemp_l by lia. replace (D + 4 + 6) with (D + 3 + 1 * 7) by ring.
    now rewrite Z.mod_add by lia.
Qed.

Lemma getMonday_local tz d :
  midnightsPresent tz ->
  localTime tz (getMonday tz d)
  = (Day (localTime tz d) - (Day (localTime tz d) + 3) mod 7) * msPerDay.
Proof. intros Hp. rewrite getMonday_utc by apply Hp. apply Hp. Qed.

Lemma Day_bounds x : Day x * msPerDay <= x < Day x * msPerDay + msPerDay.
Proof.
  unfold Day, msPerDay.
  pose proof (Z.mod_pos_bound x 86400000 eq_refl) as Hb.
  rewrite Z.mod_eq in Hb by lia. lia.
Qed.

Lemma monday_weekday D : (D - (D + 3) mod 7 + 4) mod 7 = 1.
Proof.
  pose proof (Z.mod_pos_bound (D + 3) 7 eq_refl) as Hm.
  pose proof (Z.div_mod (D + 3) 7 ltac:(lia)) as E.
  revert Hm E. generalize ((D + 3) mod 7) ((D + 3) / 7). intros k q Hm E.
  replace (D - k + 4) with (1 + q * 7) by lia.
  rewrite Z.mod_add by lia. reflexivity.
Qed.

Lemma monday_week l ml :
  ml = (Day l - (Day l + 3) mod 7) * msPerDay ->
  ml <= l < ml + 7 * msPerDay.
Proof.
  pose proof (Day_bounds l) as Hd.
  pose proof (Z.mod_pos_bound (Day l + 3) 7 eq_refl) as Hm.
  revert Hd Hm. generalize (Day l). intros D. generalize ((D + 3) mod 7).
  unfold msPerDay. intros k Hd Hm ->. lia.
Qed.

(** In a zone where every local midnight exists the anchor is a Monday at
    00:00 on the local clock, at most six days of the calendar before the
    day of the reference date. *)
Lemma getMonday_is_monday tz d :
  midnightsPresent tz ->
  getDay tz (getMonday tz d) = 1
  /\ TimeWithinDay (localTime tz (getMonday tz d)) = 0
  /\ 0 <= Day (localTime tz d) - Day (localTime tz (getMonday tz d)) <= 6.
Proof.
  intros Hp. pose proof (getMonday_local tz d Hp) as H.
  split; [|split].
  - unfold getDay. rewrite H, Day_midnight. apply monday_weekday.
  - rewrite H. apply TimeWithinDay_midnight.
  - rewrite H, Day_midnight.
    pose proof (Z.mod_pos_bound (Day (localTime tz d) + 3) 7 eq_refl). lia.
Qed.

(** With a fixed offset the reference date is less than seven times 24
    hours after the anchor. *)
Lemma getMonday_fixed_week o d :
  getMonday (fixed o) d <= d < getMonday (fixed o) d + 7 * msPerDay.
Proof.
  pose proof (getMonday_local (fixed o) d (midnightsPresent_fixed o)) as H.
  apply monday_week in H. revert H. generalize (getMonday (fixed o) d).
  intros m H. rewrite !localTime_fixed in H. lia.
Qed.

Lemma midnightsPresent_newYork2024 : midnightsPresent newYork2024.
Proof.
  intros D. unfold present, localTime, utc, newYork2024, LocalTZA, msPerDay.
  destruct (Z.leb_spec 1710039600000 (D * 86400000));
    destruct (Z.ltb_spec (D * 86400000) 1730599200000); cbn [andb];
    match goal with
    | |- context [(?a <=? ?b) && (?c <? ?d)] =>
        destruct (Z.leb_spec a b); destruct (Z.ltb_spec c d); cbn [andb]; lia
    end.
Qed.

Lemma offsetAt_newYork2024_winter l :
  0 <= l < 1710028800000 -> offsetAt newYork2024 (-18000000) l.
Proof.
  intros H. unfold offsetAt, newYork2024, LocalTZA.
  split.
  - destruct (Z.leb_spec 1710039600000 l); cbn [andb]; [lia | reflexivity].
  - destruct (Z.leb_spec 1710054000000 (l - -18000000)); cbn [andb];
      [lia | reflexivity].
Qed.

(** In New York the week of the change of November 2024 is an hour longer:
    23:30 on Sunday 2024-11-03 is seven times 24 hours and thirty minutes
    after the Monday 00:00 before it. *)
Lemma long_week_newYork2024 :
  getMonday newYork2024 (utc newYork2024 (localOf 2024 11 3 23 30))
  = utc newYork2024 (localOf 2024 10 28 0 0)
  /\ utc newYork2024 (localOf 2024 11 3 23 30)
     - getMonday newYork2024 (utc newYork2024 (localOf 2024 11 3 23 30))
     = 7 * msPerDay + 30 * msPerMinute
  /\ dayIndexOf (utc newYork2024 (localOf 2024 11 3 23 30))
       (getMonday newYork2024 (utc newYork2024 (localOf 2024 11 3 23 30))) = 7.
Proof. vm_compute. auto. Qed.

Lemma dayIndexOf_utc tz o a b :
  offsetAt tz o a -> offsetAt tz o b ->
  dayIndexOf (utc tz a) (utc tz b) = (a - b) / msPerDay.
Proof.
  intros Ha Hb. rewrite (offsetAt_utc _ _ _ Ha), (offsetAt_utc _ _ _ Hb).
  unfold dayIndexOf. f_equal. lia.
Qed.

Lemma week_example tz o :
  (forall l, localOf 2024 1 15 0 0 <= l <= localOf 2024 1 22 0 0 ->
             offsetAt tz o l) ->
  getMonday tz (utc tz (localOf 2024 1 18 13 5)) = utc tz (localOf 2024 1 15 0 0)
  /\ dayIndexOf (utc tz (localOf 2024 1 21 23 59)) (utc tz (localOf 2024 1 15 0 0)) = 6
  /\ dayIndexOf (utc tz (localOf 2024 1 22 0 0)) (utc tz (localOf 2024 1 15 0 0)) = 7.
Proof.
  intros H.
  assert (H0 : offsetAt tz o (localOf 2024 1 15 0 0))
    by (apply H; vm_compute; split; discriminate).
  assert (H1 : offsetAt tz o (localOf 2024 1 18 13 5))
    by (apply H; vm_compute; split; discriminate).
  assert (H2 : offsetAt tz o (localOf 2024 1 18 0 0))
    by (apply H; vm_compute; split; discriminate).
  assert (H3 : offsetAt tz o (localOf 2024 1 21 23 59))
    by (apply H; vm_compute; split; discriminate).
  assert (H4 : offsetAt tz o (localOf 2024 1 22 0 0))
    by (apply H; vm_compute; split; discriminate).
  rewrite (dayIndexOf_utc _ _ _ _ H3 H0), (dayIndexOf_utc _ _ _ _ H4 H0).
  split; [|split; vm_compute; reflexivity].
  pose proof (offsetAt_present _ _ _ H1) as P1. unfold present in P1.
  rewrite getMonday_utc; rewrite P1.
  - reflexivity.
  - change (Day (localOf 2024 1 18 13 5) * msPerDay) with (localOf 2024 1 18 0 0).
    exact (offsetAt_present _ _ _ H2).
Qed.

Lemma dayIndexOf_floor s monday k :
  dayIndexOf s monday = k <->
  monday + k * msPerDay <= s < monday + (k + 1) * msPerDay.
Proof.
  unfold dayIndexOf, msPerDay.
  pose proof (Z.div_mod (s - monday) 86400000 ltac:(lia)) as E.
  pose proof (Z.mod_pos_bound (s - monday) 86400000 eq_refl) as B.
  revert E B. generalize ((s - monday) / 86400000) ((s - monday) mod 86400000).
  intros q r E B. split; intros H; [subst; lia | nia].
Qed.

Lemma project_window tz monday ev :
  title ev <> [] -> In (cal ev) calendarNames ->
  (project tz (Finite monday) ev = Returns None <->
   dayIndexOf (startISO ev) monday < 0 \/ 6 < dayIndexOf (startISO ev) monday)
  /\ (0 <= dayIndexOf (startISO ev) monday <= 6 ->
      exists g, project tz (Finite monday) ev
                = Returns (Some (slugOf (cal ev), g))
                /\ dayIndex g = Finite (dayIndexOf (startISO ev) monday)
                /\ name g = title ev).
Proof.
  intros Ht Hc. apply falsy_false in Ht.
  apply calendarNames_ok in Hc as (Hf & _ & (b & t & r & Hl) & _).
  unfold project. rewrite Ht, Hf, Hl. simpl orb. unfold dayIndexNum, outsideWeek.
  generalize (dayIndexOf (startISO ev) monday). intros i.
  destruct (i <? 0) eqn:E1; [apply Z.ltb_lt in E1 | apply Z.ltb_ge in E1]; simpl.
  - split; [split; auto; lia | lia].
  - destruct (i >? 6) eqn:E2; rewrite Z.gtb_ltb in E2;
      [apply Z.ltb_lt in E2 | apply Z.ltb_ge in E2].
    + split; [split; auto; lia | lia].
    + split; [split; [discriminate | lia]|]. intros _. eexists. split; [reflexivity|].
      split; reflexivity.
Qed.



End Week.

(* ------------------------------------------------------------------------- *)
(** ** More on the text utilities *)

Lemma replaceRuns_collapsed : forall s b,
  collapsed b (replaceRuns isWhite (u " ") b s).
Proof.
  induction s as [|c s IH]; intros b; simpl; auto.
  destruct (isWhite c) eqn:Ec.
  - destruct b; simpl; [apply IH|].
    change (isWhite 32) with true. cbv iota. repeat split. apply IH.
  - simpl. rewrite Ec. apply IH.
Qed.

Lemma collapsed_weaken s : collapsed true s -> collapsed false s.
Proof.
  destruct s as [|c s]; simpl; auto. destruct (isWhite c); auto.
  intros (_ & H & _); discriminate.
Qed.

Lemma collapsed_any b s : collapsed true s -> collapsed b s.
Proof. destruct b; auto using collapsed_weaken. Qed.

Lemma trimStart_collapsed s : forall b, collapsed b s -> collapsed true (trimStart s).
Proof.
  induction s as [|c s IH]; intros b; simpl; auto.
  destruct (isWhite c) eqn:Ec.
  - intros (_ & _ & H). eauto.
  - intros H. simpl. rewrite Ec. exact H.
Qed.

Lemma collapsed_app x : forall b y, collapsed b (x ++ y) -> collapsed b x.
Proof.
  induction x as [|c x IH]; intros b y; simpl; auto.
  destruct (isWhite c).
  - intros (H1 & H2 & H3). eauto.
  - eauto.
Qed.

Lemma trimEnd_snoc x c :
  trimEnd (x ++ [c]) = if isWhite c then trimEnd x else x ++ [c].
Proof.
  unfold trimEnd. rewrite rev_app_distr. simpl.
  destruct (isWhite c); auto. simpl. now rewrite rev_involutive.
Qed.

Lemma lastOr_snoc prev (x : jsstring) c : lastOr prev (x ++ [c]) = Some c.
Proof. revert prev. induction x as [|d x IH]; intros prev; simpl; auto. Qed.

Lemma trimEnd_spec x :
  (exists w, x = trimEnd x ++ w)
  /\ isWhiteOpt (lastOr None (trimEnd x)) = false.
Proof.
  induction x as [|c x IH] using rev_ind.
  - split; [now exists []|reflexivity].
  - rewrite trimEnd_snoc. destruct (isWhite c) eqn:Ec.
    + destruct IH as [(w & Hw) Hl]. split; auto.
      exists (w ++ [c]). rewrite app_assoc. now rewrite <- Hw.
    + split; [exists []; now rewrite app_nil_r|].
      rewrite lastOr_snoc. exact Ec.
Qed.

Lemma trimEnd_fix x : isWhiteOpt (lastOr None x) = false -> trimEnd x = x.
Proof.
  destruct x as [|c x] using rev_ind; auto.
  rewrite lastOr_snoc, trimEnd_snoc. simpl. now intros ->.
Qed.

Lemma trimStart_fix x : isWhiteOpt (hd_error x) = false -> trimStart x = x.
Proof. destruct x as [|c x]; simpl; auto. now intros ->. Qed.

Lemma collapsed_head s : collapsed true s -> isWhiteOpt (hd_error s) = false.
Proof.
  destruct s as [|c s]; simpl; auto. destruct (isWhite c); auto.
  intros (_ & H & _); discriminate.
Qed.

Lemma replaceRuns_fix s : forall a b,
  collapsed a s -> (b = true -> a = true) ->
  replaceRuns isWhite (u " ") b s = s.
Proof.
  induction s as [|c s IH]; intros a b; simpl; auto.
  destruct (isWhite c) eqn:Ec.
  - intros (-> & -> & H) Hb. destruct b; [specialize (Hb eq_refl); discriminate|].
    simpl. f_equal. now apply IH with (a := true).
  - intros H _. f_equal. apply IH with (a := false); auto; discriminate.
Qed.

(** What [clean] returns. *)
Lemma clean_collapsed s :
  collapsed true (clean s) /\ isWhiteOpt (lastOr None (clean s)) = false.
Proof.
  unfold clean, trim, replaceWs.
  pose proof (replaceRuns_collapsed s false) as H.
  apply trimStart_collapsed in H.
  destruct (trimEnd_spec (trimStart (replaceRuns isWhite (u " ") false s)))
    as [(w & Hw) Hl].
  split; auto. rewrite Hw in H. now apply collapsed_app in H.
Qed.

Lemma clean_fix s :
  collapsed true s -> isWhiteOpt (lastOr None s) = false -> clean s = s.
Proof.
  intros Hc Hl. unfold clean, trim, replaceWs.
  rewrite (replaceRuns_fix s true false Hc) by discriminate.
  rewrite trimStart_fix by (now apply collapsed_head).
  now apply trimEnd_fix.
Qed.

Lemma collapsed_split pre : forall a c post,
  collapsed a (pre ++ c :: post) -> isWhite c = true ->
  c = 32%N
  /\ isWhiteOpt (lastOr (if a then Some 32%N else None) pre) = false
  /\ isWhiteOpt (hd_error post) = false.
Proof.
  induction pre as [|d pre IH]; intros a c post; simpl.
  - intros H Hc. rewrite Hc in H. destruct H as (-> & -> & H).
    repeat split. now apply collapsed_head.
  - destruct (isWhite d) eqn:Ed.
    + intros (-> & -> & H) Hc.
      destruct (IH true c post H Hc) as (H1 & H2 & H3).
      repeat split; auto; destruct pre; simpl in *; auto.
    + intros H Hc. destruct (IH false c post H Hc) as (H1 & H2 & H3).
      repeat split; auto; destruct pre; simpl in *; auto.
Qed.

Lemma clean_all_white s : Forall (fun c => isWhite c = true) s -> clean s = [].
Proof.
  intros Hall. unfold clean, trim, replaceWs.
  assert (H : forall b, trimStart (replaceRuns isWhite (u " ") b s) = []).
  { induction Hall as [|c s' Hc' _ IH]; intros b; simpl; auto.
    rewrite Hc'. destruct b; simpl; try (change (isWhite 32) with true; cbv iota);
      apply IH. }
  now rewrite H.
Qed.

(** X1. [clean] is idempotent, and its result is in normal form: no white
    space at either end, and every white-space code unit in it is a single
    U+0020 between two code units that are not white space.  Text that is all
    white space cleans to the empty string. *)
Theorem clean_normal_form (s : jsstring) :
  clean (clean s) = clean s
  /\ isWhiteOpt (hd_error (clean s)) = false
  /\ isWhiteOpt (lastOr None (clean s)) = false
  /\ (forall pre c post,
        clean s = pre ++ c :: post -> isWhite c = true ->
        c = 32%N /\ pre <> []
        /\ isWhiteOpt (lastOr None pre) = false
        /\ isWhiteOpt (hd_error post) = false)
  /\ (Forall (fun c => isWhite c = true) s -> clean s = []).
Proof.
  destruct (clean_collapsed s) as [Hc Hl].
  split; [now apply clean_fix|]. split; [now apply collapsed_head|].
  split; [exact Hl|]. split.
  - intros pre c post E Hw. rewrite E in Hc.
    destruct (collapsed_split pre true c post Hc Hw) as (H1 & H2 & H3).
    destruct pre as [|d pre]; [discriminate|].
    repeat split; auto. discriminate.
  - apply clean_all_white.
Qed.

Lemma clean_no_newline s : ~ In 10%N (clean s).
Proof.
  intros H. apply in_split in H as (pre & post & E).
  destruct (clean_collapsed s) as [Hc _]. rewrite E in Hc.
  destruct (collapsed_split pre true 10%N post Hc eq_refl) as (H & _).
  discriminate.
Qed.

Lemma splitOn_absent sep s : forall cur,
  ~ In sep s -> splitOn sep cur s = [rev cur ++ s].
Proof.
  induction s as [|c s IH]; intros cur H; simpl.
  - now rewrite app_nil_r.
  - destruct (N.eqb_spec c sep) as [->|Hne].
    + exfalso. apply H. now left.
    + rewrite IH by (intros Hin; apply H; now right).
      simpl. now rewrite <- app_assoc.
Qed.

Lemma test_contains r P s :
  (forall prev w rest, Matches r prev w rest <-> P w) ->
  (test r s = true <-> contains P s).
Proof.
  intros HP. rewrite test_spec. unfold contains. split.
  - intros (pre & w & post & -> & Hm). exists pre, w, post. split; auto.
    now apply HP in Hm.
  - intros (pre & w & post & -> & Hw). exists pre, w, post. split; auto.
    now apply HP.
Qed.

Lemma timeRange_has_clock s : contains TimeRange s -> contains ClockTime s.
Proof.
  intros (pre & w & post & -> & t1 & s1 & dash & s2 & t2 & -> & H1 & _).
  exists pre, t1, (s1 ++ [dash] ++ s2 ++ t2 ++ post). split; auto.
  now rewrite <- !app_assoc.
Qed.

Lemma loose_has_time text dt :
  parseDateTimeLoose text = Some dt -> test re_time text = true.
Proof.
  unfold parseDateTimeLoose. rewrite !orElse_nil. intros H.
  assert (Ht : exec re_times text <> None).
  { destruct (exec re_date_loose text); [|discriminate].
    destruct (exec re_times text); [discriminate | discriminate]. }
  apply (exec_contains re_times TimeRange text Matches_times) in Ht.
  apply (test_contains re_time ClockTime text Matches_clock).
  now apply timeRange_has_clock.
Qed.

Lemma firstLineTitle_cleaned s dt :
  parseDateTimeLoose (clean s) = Some dt -> firstLineTitle (clean s) = [].
Proof.
  intros H. unfold firstLineTitle, split.
  rewrite splitOn_absent by apply clean_no_newline. simpl.
  destruct (clean_collapsed s) as [Hc Hl].
  rewrite (clean_fix (clean s) Hc Hl).
  rewrite (loose_has_time _ _ H). rewrite andb_false_r. reflexivity.
Qed.

Lemma blockTitle_link el dt :
  parseDateTimeLoose (clean (textContent el)) = Some dt ->
  blockTitle el (clean (textContent el))
  = clean (Dom.text (first (find (tag "a") el))).
Proof.
  intros H. unfold blockTitle. rewrite (firstLineTitle_cleaned _ _ H).
  destruct (clean (Dom.text (first (find (tag "a") el)))); reflexivity.
Qed.

(** X2. Every event of the fallback parser is titled with the cleaned text
    of the first link of its block.  The second source of a title, the first
    line of the block's text that holds no clock time, never gives one: the
    text was cleaned before it is split at line feeds, so it is one line, and
    it holds the time range that let the block through.  A block without a
    link gives no event. *)
Theorem fallback_title_is_link_text (tz : zone) (baseOrigin : jsstring)
  (el : node) (ev : RawEvent) :
  fallbackBlock tz baseOrigin el = Some ev ->
  title ev = clean (Dom.text (first (find (tag "a") el)))
  /\ find (tag "a") el <> []
  /\ firstLineTitle (clean (textContent el)) = [].
Proof.
  intros H. apply fallbackBlock_some in H as (_ & Ht & dt & s & e & Hd & _ & ->).
  rewrite (blockTitle_link el dt Hd) in *. simpl.
  split; [reflexivity|]. split.
  - intros E. rewrite E in Ht. now apply Ht.
  - exact (firstLineTitle_cleaned _ _ Hd).
Qed.

Lemma fallback_title_is_link_text_witness :
  fallbackBlock (fixed 0) (u "https://example.org") li2 = Some ev2
  /\ title ev2 = clean (Dom.text (first (find (tag "a") li2))).
Proof.
  assert (H : fallbackBlock (fixed 0) (u "https://example.org") li2 = Some ev2)
    by (vm_compute; reflexivity).
  split; [exact H|].
  exact (proj1 (fallback_title_is_link_text (fixed 0) (u "https://example.org") li2 ev2 H)).
Defined.

(* ------------------------------------------------------------------------- *)
(** ** More on the normalizers *)

Lemma isDigit_word c : isDigit c = true -> isWordChar c = true.
Proof.
  unfold isDigit, isWordChar. intros ->. now rewrite !orb_true_r.
Qed.

Lemma lastOr_app_cons prev (x : jsstring) c y :
  lastOr prev (x ++ c :: y) = lastOr (Some c) y.
Proof. revert prev. induction x as [|d x IH]; intros prev; simpl; auto. Qed.

Lemma allOf_last p (y : jsstring) c prev :
  allOf p (c :: y) -> exists z, lastOr prev (c :: y) = Some z /\ p z = true.
Proof.
  revert c prev. induction y as [|d y IH]; intros c prev H; simpl.
  - inversion H; subst. eauto.
  - inversion H; subst. apply (IH d (Some c)). assumption.
Qed.

Lemma DateToken_edges w prev (x : jsstring) :
  DateToken w ->
  isWordOpt (hd_error (w ++ x)) = true /\ isWordOpt (lastOr prev w) = true.
Proof.
  intros (m & d & y & -> & Hm & Hml & Hd & Hdl & Hy & Hyl).
  split.
  - destruct m as [|c m]; [simpl in Hml; lia|]. simpl.
    inversion Hm; subst. now apply isDigit_word.
  - destruct y as [|c y]; [discriminate|].
    change (u "/") with [47%N].
    rewrite !app_assoc. rewrite lastOr_app_cons.
    destruct (allOf_last isDigit y c (Some c) Hy) as (z & Hz & Hp).
    simpl in Hz. 
    replace (lastOr (Some c) y) with (Some z).
    simpl. now apply isDigit_word.
Qed.

Lemma Matches_date_loose prev w rest :
  Matches re_date_loose prev w rest <->
  DateToken w /\ isWordOpt prev = false /\ isWordOpt (hd_error rest) = false.
Proof.
  unfold re_date_loose. simpl. split.
  - intros H. inversion H; subst; clear H.
    match goal with H : Matches (Seq _ _) _ _ _ |- _ => inversion H; subst; clear H end.
    repeat match goal with
    | H : Matches WordB _ _ _ |- _ => inversion H; subst; clear H
    end.
    match goal with H : Matches re_date_body _ _ _ |- _ =>
      apply Matches_date_body in H; rename H into Hd end.
    simpl in *. rewrite app_nil_r in *.
    destruct (DateToken_edges _ prev rest Hd) as [Hh Hl].
    repeat match goal with H : xorb _ _ = true |- _ => revert H end.
    rewrite Hh, Hl. intros H1 H2. repeat split; auto.
    + now destruct (isWordOpt prev).
    + now destruct (isWordOpt (hd_error rest)).
  - intros (Hd & Hp & Hr).
    destruct (DateToken_edges _ prev rest Hd) as [Hh Hl].
    change w with ([] ++ w). rewrite <- (app_nil_r w).
    constructor.
    + constructor. simpl. rewrite app_nil_r, Hh, Hp. reflexivity.
    + constructor.
      * now apply Matches_date_body.
      * constructor. simpl. rewrite Hl, Hr. reflexivity.
Qed.

Lemma exec_containsWord s :
  exec re_date_loose s <> None <-> containsWord DateToken s.
Proof.
  rewrite exec_spec. unfold containsWord. split.
  - intros (pre & w & post & -> & Hm). apply Matches_date_loose in Hm.
    exists pre, w, post. tauto.
  - intros (pre & w & post & -> & Hw & Hp & Hr). exists pre, w, post.
    split; auto. apply Matches_date_loose. tauto.
Qed.

Lemma containsWord_contains P s : containsWord P s -> contains P s.
Proof. intros (pre & w & post & H & Hw & _). exists pre, w, post. auto. Qed.

(** X3. The loose normalizer returns a triple exactly when the text holds a
    date token with no letter, digit or underscore on either side, and a
    time range.  Whenever it returns, the strict normalizer run on the same
    text with an empty time field returns too, with the same start and end.
    The converse fails: in "Room12/4/2024 ..." the strict one finds the date
    and the loose one does not. *)
Theorem parseDateTimeLoose_spec (text : jsstring) :
  ((exists dt, parseDateTimeLoose text = Some dt) <->
   containsWord DateToken text /\ contains TimeRange text)
  /\ (forall dt,
        parseDateTimeLoose text = Some dt ->
        exists dt',
          parseDateTime text [] = Some dt'
          /\ start dt' = start dt /\ end_ dt' = end_ dt)
  /\ parseDateTimeLoose (u "Room12/4/2024 9:00 AM - 10:00 AM") = None
  /\ (exists dt, parseDateTime (u "Room12/4/2024 9:00 AM - 10:00 AM") [] = Some dt
                 /\ date dt = u "12/4/2024").
Proof.
  split; [|split; [|split]].
  - unfold parseDateTimeLoose. rewrite !orElse_nil.
    rewrite <- exec_containsWord.
    rewrite <- (exec_contains re_times TimeRange text Matches_times).
    destruct (exec re_date_loose text), (exec re_times text); split;
      first [ solve [intros _; split; discriminate]
            | solve [intros _; eauto]
            | solve [intros (dt & H); discriminate]
            | solve [intros (H1 & H2); exfalso; auto] ].
  - intros dt H. unfold parseDateTimeLoose in H. unfold parseDateTime.
    rewrite !orElse_nil in *. unfold orElse at 1. simpl falsy. cbv iota.
    destruct (exec re_date_loose text) as [d|] eqn:Ed; [|discriminate].
    destruct (exec re_times text) as [t|]; [|discriminate].
    inversion H; subst dt; clear H.
    assert (Hs : exec re_date text <> None).
    { apply (exec_contains re_date DateToken text Matches_date_body).
      apply containsWord_contains. apply exec_containsWord. rewrite Ed. discriminate. }
    destruct (exec re_date text) as [d'|]; [|contradiction].
    eexists. split; [reflexivity|]. split; reflexivity.
  - vm_compute. reflexivity.
  - eexists. split; vm_compute; reflexivity.
Qed.

Lemma firstn_consumed (w rest : jsstring) :
  firstn (length (w ++ rest) - length rest) (w ++ rest) = w.
Proof.
  rewrite length_app. replace (length w + length rest - length rest) with (length w) by lia.
  rewrite firstn_app, Nat.sub_diag, firstn_all. simpl. apply app_nil_r.
Qed.

Lemma matchAt_sound r prev s m :
  matchAt r prev s = Some m ->
  exists rest, s = whole m ++ rest /\ Matches r prev (whole m) rest.
Proof.
  unfold matchAt. intros H.
  apply mt_sound in H as (w & rest & cs' & -> & Hm & Hk).
  inversion Hk; subst m; clear Hk. cbn [whole].
  rewrite firstn_consumed. eauto.
Qed.

(** [exec] returns the leftmost match. *)
Lemma execFrom_leftmost r : forall s prev m,
  execFrom r prev s = Some m ->
  exists pre post,
    s = pre ++ whole m ++ post
    /\ Matches r (lastOr prev pre) (whole m) post
    /\ forall pre' w' post',
         s = pre' ++ w' ++ post' -> Matches r (lastOr prev pre') w' post' ->
         length pre <= length pre'.
Proof.
  induction s as [|c s IH]; intros prev m; cbn [execFrom].
  - destruct (matchAt r prev []) as [m'|] eqn:E; [|discriminate].
    intros H; inversion H; subst m'.
    apply matchAt_sound in E as (rest & Hs & Hm).
    exists [], rest. repeat split; auto. intros; simpl; lia.
  - destruct (matchAt r prev (c :: s)) as [m'|] eqn:E.
    + intros H; inversion H; subst m'.
      apply matchAt_sound in E as (rest & Hs & Hm).
      exists [], rest. repeat split; auto. intros; simpl; lia.
    + intros H. apply IH in H as (pre & post & -> & Hm & Hleft).
      exists (c :: pre), post. repeat split; auto.
      intros pre' w' post' Hs Hm'. destruct pre' as [|c' pre'].
      * exfalso. simpl in *.
        assert (Hn : matchAt r prev (c :: pre ++ whole m ++ post) <> None)
          by (apply matchAt_spec; eauto).
        contradiction.
      * simpl in Hs. inversion Hs; subst c'. simpl.
        apply le_n_S. now apply (Hleft pre' w' post').
Qed.

(** X4. When the strict normalizer returns, its date is a date token of the
    date field and no date token of that field starts further left: with
    two dates in a cell the first is taken. *)
Theorem parseDateTime_leftmost_date (dateText timeText : jsstring)
  (dt : DateTime) :
  parseDateTime dateText timeText = Some dt ->
  DateToken (date dt)
  /\ exists pre post,
       dateText = pre ++ date dt ++ post
       /\ forall pre' w' post',
            dateText = pre' ++ w' ++ post' -> DateToken w' ->
            length pre <= length pre'.
Proof.
  unfold parseDateTime. rewrite !orElse_nil.
  destruct (exec re_date dateText) as [d|] eqn:Ed; [|discriminate].
  destruct (exec re_times (orElse timeText dateText)) as [t|]; [|discriminate].
  intros H. inversion H; subst dt; clear H. cbn [date mkDateTime].
  apply execFrom_leftmost in Ed as (pre & post & Hs & Hm & Hleft).
  split; [now apply Matches_date_body in Hm|].
  exists pre, post. split; auto.
  intros pre' w' post' Hs' Hw'. apply (Hleft pre' w' post' Hs').
  now apply Matches_date_body.
Qed.

Lemma parseDateTime_leftmost_date_witness :
  parseDateTime (u "on 1/15/2024 or 1/16/2024") (u "9:00 AM - 10:00 AM") = Some dt0
  /\ DateToken (date dt0).
Proof.
  assert (H : parseDateTime (u "on 1/15/2024 or 1/16/2024") (u "9:00 AM - 10:00 AM")
              = Some dt0) by (vm_compute; reflexivity).
  split; [exact H|].
  exact (proj1 (parseDateTime_leftmost_date _ _ _ H)).
Defined.

Section GroupFree.

Variable R : Type.

Lemma rep_caps (p : N -> bool) : forall s lo hi prev cs (k : cont R) x,
  rep p lo hi prev s cs k = Some x ->
  exists w rest,
    s = w ++ rest /\ allOf p w /\ lo <= length w
    /\ (forall h, hi = Some h -> length w <= h)
    /\ k (lastOr prev w) rest cs = Some x.
Proof. apply rep_sound. Qed.

(** A pattern without groups hands the captures on as they are. *)
Lemma mt_sound_groupFree : forall r prev s cs (k : cont R) x,
  groupFree r = true ->
  mt r prev s cs k = Some x ->
  exists w rest,
    s = w ++ rest /\ Matches r prev w rest
    /\ k (lastOr prev w) rest cs = Some x.
Proof.
  induction r as [|p|p lo hi|a IHa b IHb|a IHa b IHb|i a IHa| |];
    intros prev s cs k x Hg H; simpl in H, Hg.
  - exists [], s. repeat split; auto. constructor.
  - destruct s as [|c s]; [discriminate|].
    destruct (p c) eqn:E; [|discriminate].
    exists [c], s. repeat split; auto. now constructor.
  - apply rep_sound in H as (w & rest & -> & Hall & Hlo & Hhi & Hk).
    exists w, rest. repeat split; auto. now constructor.
  - apply andb_prop in Hg as [Ha Hb].
    apply IHa in H as (w1 & rest1 & -> & Hm1 & H); auto.
    apply IHb in H as (w2 & rest & -> & Hm2 & H); auto.
    exists (w1 ++ w2), rest. rewrite <- lastOr_app.
    repeat split; auto; [now rewrite app_assoc | now constructor].
  - apply andb_prop in Hg as [Ha Hb].
    destruct (mt a prev s cs k) eqn:E.
    + inversion H; subst.
      apply IHa in E as (w & rest & -> & Hm & Hk); auto.
      exists w, rest. repeat split; auto. now apply M_AltL.
    + apply IHb in H as (w & rest & -> & Hm & Hk); auto.
      exists w, rest. repeat split; auto. now apply M_AltR.
  - discriminate.
  - destruct prev; [discriminate|].
    exists [], s. repeat split; auto. constructor.
  - destruct (xorb (isWordOpt prev) (isWordOpt (hd_error s))) eqn:E;
      [|discriminate].
    exists [], s. repeat split; auto. now constructor.
Qed.

(** A group around a pattern without groups records what the pattern took. *)
Lemma mt_sound_group i a prev s cs (k : cont R) x :
  groupFree a = true ->
  mt (Grp i a) prev s cs k = Some x ->
  exists w rest,
    s = w ++ rest /\ Matches a prev w rest
    /\ k (lastOr prev w) rest ((i, w) :: cs) = Some x.
Proof.
  intros Hg H. simpl in H.
  apply mt_sound_groupFree in H as (w & rest & -> & Hm & Hk); auto.
  rewrite firstn_consumed in Hk. eauto.
Qed.

End GroupFree.

Lemma mt_Seq (R : Type) a b prev s cs (k : cont R) :
  mt (Seq a b) prev s cs k
  = mt a prev s cs (fun prev' s' cs' => mt b prev' s' cs' k).
Proof. reflexivity. Qed.

(** What the two groups of the time-range pattern hold. *)
Lemma matchAt_times prev s m :
  matchAt re_times prev s = Some m ->
  ClockTime (group 1 (groups m)) /\ ClockTime (group 2 (groups m)).
Proof.
  unfold matchAt, re_times.
  change (seqs [Grp 1 re_clock; ws0; Chr isDash; ws0; Grp 2 re_clock])
    with (Seq (Grp 1 re_clock)
            (Seq ws0 (Seq (Chr isDash) (Seq ws0 (Grp 2 re_clock))))).
  intros H. rewrite mt_Seq in H.
  apply mt_sound_group in H as (w1 & r1 & -> & Hm1 & H); [|reflexivity].
  rewrite mt_Seq in H.
  apply mt_sound_groupFree in H as (s1 & r2 & -> & _ & H); [|reflexivity].
  rewrite mt_Seq in H.
  apply mt_sound_groupFree in H as (d & r3 & -> & _ & H); [|reflexivity].
  rewrite mt_Seq in H.
  apply mt_sound_groupFree in H as (s2 & r4 & -> & _ & H); [|reflexivity].
  apply mt_sound_group in H as (w2 & r5 & -> & Hm2 & H); [|reflexivity].
  inversion H; subst m; clear H. cbn [groups group Nat.eqb].
  split; [now apply Matches_clock in Hm1 | now apply Matches_clock in Hm2].
Qed.

Lemma execFrom_times : forall s prev m,
  execFrom re_times prev s = Some m ->
  ClockTime (group 1 (groups m)) /\ ClockTime (group 2 (groups m)).
Proof.
  induction s as [|c s IH]; intros prev m; cbn [execFrom].
  - destruct (matchAt re_times prev []) eqn:E; [|discriminate].
    intros H; inversion H; subst. now apply matchAt_times in E.
  - destruct (matchAt re_times prev (c :: s)) eqn:E.
    + intros H; inversion H; subst. now apply matchAt_times in E.
    + apply IH.
Qed.

Lemma replaceRuns_keep (p : N -> bool) by_ (w : jsstring) : forall b,
  Forall (fun c => p c = false) w -> replaceRuns p by_ b w = w.
Proof.
  induction w as [|c w IH]; intros b H; simpl; auto.
  inversion H; subst. rewrite H2. f_equal. now apply IH.
Qed.

Lemma replaceRuns_run (p : N -> bool) by_ (sp rest : jsstring) c :
  allOf p sp -> p c = false ->
  replaceRuns p by_ true (sp ++ c :: rest) = c :: replaceRuns p by_ false rest.
Proof.
  intros Hsp Hc. induction Hsp as [|x sp Hx _ IH]; simpl.
  - now rewrite Hc.
  - now rewrite Hx.
Qed.

Lemma digit_not_white c : isDigit c = true -> isWhite c = false.
Proof.
  unfold isDigit, between. rewrite andb_true_iff, !N.leb_le. intros H.
  unfold isWhite, between.
  repeat (apply orb_false_iff; split);
    try (apply andb_false_iff; rewrite !N.leb_gt; lia);
    try (apply N.eqb_neq; lia).
Qed.

Lemma allOf_digit_not_white w :
  allOf isDigit w -> Forall (fun c => isWhite c = false) w.
Proof.
  intros H. eapply Forall_impl; [|exact H]. apply digit_not_white.
Qed.

Lemma replaceRuns_app_keep (p : N -> bool) by_ (w rest : jsstring) : forall b,
  Forall (fun c => p c = false) w ->
  w <> [] ->
  replaceRuns p by_ b (w ++ rest) = w ++ replaceRuns p by_ false rest.
Proof.
  induction w as [|c w IH]; intros b H Hne; [contradiction|].
  inversion H; subst. simpl. rewrite H2. f_equal.
  destruct w as [|d w]; [reflexivity|]. apply IH; auto. discriminate.
Qed.

Lemma ClockTime_clean w : ClockTime w -> CleanClock (replaceWs (u " ") w).
Proof.
  intros (h & mi & sp & a & m & -> & Hh & Hhl & Hmi & Hmil & Hsp & Ha & Hm).
  assert (Ha' : isWhite a = false)
    by (simpl in Ha; intuition (subst; reflexivity)).
  assert (Hm' : isWhite m = false)
    by (simpl in Hm; intuition (subst; reflexivity)).
  assert (Hh' := allOf_digit_not_white h Hh).
  assert (Hmi' := allOf_digit_not_white mi Hmi).
  assert (Hhne : h <> []) by (destruct h; [simpl in Hhl; lia | discriminate]).
  assert (Hmine : mi <> []) by (destruct mi; discriminate).
  exists h, mi, (match sp with [] => [] | _ => u " " end), a, m.
  split.
  - unfold replaceWs. change (u ":") with [58%N].
    rewrite replaceRuns_app_keep by assumption.
    f_equal. cbn [app replaceRuns]. change (isWhite 58) with false. cbv iota.
    f_equal.
    rewrite replaceRuns_app_keep by assumption.
    f_equal. destruct sp as [|x sp].
    + simpl. now rewrite Ha', Hm'.
    + inversion Hsp; subst. cbn [app replaceRuns]. rewrite H1.
      change (u " " ++ [a; m]) with (u " " ++ a :: [m]). f_equal.
      rewrite (replaceRuns_run isWhite (u " ") sp [m] a H2 Ha').
      simpl. now rewrite Hm'.
  - repeat split; auto; try lia. destruct sp; auto.
Qed.

Lemma mkDateTime_shape r prevd sd d t prevt st :
  execFrom r prevd sd = Some d ->
  (forall prev w rest, Matches r prev w rest -> DateToken w) ->
  execFrom re_times prevt st = Some t ->
  DateToken (date (mkDateTime d t))
  /\ CleanClock (start (mkDateTime d t)) /\ CleanClock (end_ (mkDateTime d t)).
Proof.
  intros Hd Hr Ht. cbn [date start end_ mkDateTime].
  apply execFrom_leftmost in Hd as (pre & post & _ & Hm & _).
  apply execFrom_times in Ht as [H1 H2].
  split; [eapply Hr; exact Hm|]. split; now apply ClockTime_clean.
Qed.

(** X5. What the normalizers return has a fixed shape: the date is a date
    token, and start and end are clock times whose meridiem follows the
    minutes directly or after exactly one U+0020, whatever white space the
    page had there. *)
Theorem normalizers_return_clean_clocks (dateText timeText text : jsstring)
  (dt : DateTime) :
  parseDateTime dateText timeText = Some dt
  \/ parseDateTimeLoose text = Some dt ->
  DateToken (date dt) /\ CleanClock (start dt) /\ CleanClock (end_ dt).
Proof.
  intros [H|H].
  - unfold parseDateTime, exec in H.
    destruct (execFrom re_date None (orElse dateText [])) as [d|] eqn:Ed;
      [|discriminate].
    destruct (execFrom re_times None (orElse timeText (orElse dateText [])))
      as [t|] eqn:Et; [|discriminate].
    inversion H; subst dt.
    eapply mkDateTime_shape; eauto.
    intros prev w rest Hm. now apply Matches_date_body in Hm.
  - unfold parseDateTimeLoose, exec in H.
    destruct (execFrom re_date_loose None (orElse text [])) as [d|] eqn:Ed;
      [|discriminate].
    destruct (execFrom re_times None (orElse text [])) as [t|] eqn:Et;
      [|discriminate].
    inversion H; subst dt.
    eapply mkDateTime_shape; eauto.
    intros prev w rest Hm. now apply Matches_date_loose in Hm.
Qed.

Lemma normalizers_return_clean_clocks_witness :
  (parseDateTime (u "on 1/15/2024 or 1/16/2024") (u "9:00 AM - 10:00 AM") = Some dt0
   \/ parseDateTimeLoose [] = Some dt0)
  /\ DateToken (date dt0) /\ CleanClock (start dt0) /\ CleanClock (end_ dt0).
Proof.
  assert (H : parseDateTime (u "on 1/15/2024 or 1/16/2024") (u "9:00 AM - 10:00 AM")
              = Some dt0 \/ parseDateTimeLoose [] = Some dt0)
    by (left; vm_compute; reflexivity).
  split; [exact H|].
  exact (normalizers_return_clean_clocks _ _ _ _ H).
Defined.

(* ------------------------------------------------------------------------- *)
(** ** More on the grid *)

Lemma jseqb_eq (a : jsstring) : forall b, Js.eqb a b = true <-> a = b.
Proof.
  induction a as [|x a IH]; intros [|y b]; simpl; split; try discriminate; auto.
  - intros H. apply andb_prop in H as [H1 H2]. apply N.eqb_eq in H1.
    apply IH in H2. now subst.
  - intros H. inversion H; subst. rewrite N.eqb_refl. now apply IH.
Qed.

Lemma jseqb_refl (a : jsstring) : Js.eqb a a = true.
Proof. now apply jseqb_eq. Qed.

Lemma jseqb_sym (a b : jsstring) : Js.eqb a b = Js.eqb b a.
Proof.
  apply eq_true_iff_eq. rewrite !jseqb_eq. split; congruence.
Qed.

Lemma lookup_None {A : Type} key (c : list (jsstring * A)) :
  lookup key c = None <-> ~ In key (map fst c).
Proof.
  induction c as [|[k v] c IH]; simpl.
  - tauto.
  - destruct (Js.eqb k key) eqn:E.
    + apply jseqb_eq in E. split; [discriminate|]. intros H. exfalso. auto.
    + rewrite IH. split.
      * intros H [H1|H1]; auto. subst. now rewrite jseqb_refl in E.
      * tauto.
Qed.

Lemma lookup_snoc {A : Type} key k (v : A) (c : list (jsstring * A)) :
  lookup k (c ++ [(key, v)])
  = match lookup k c with
    | Some w => Some w
    | None => if Js.eqb key k then Some v else None
    end.
Proof.
  induction c as [|[k' v'] c IH]; simpl; auto.
  destruct (Js.eqb k' k); auto.
Qed.

Lemma pushEvent_lookup key g (c : Cals) k :
  lookup k (pushEvent key g c)
  = if Js.eqb key k
    then option_map
           (fun b => {| label := label b; gridEvents := gridEvents b ++ [g] |})
           (lookup k c)
    else lookup k c.
Proof.
  induction c as [|[k' b] c IH]; simpl.
  - now destruct (Js.eqb key k).
  - destruct (Js.eqb k' key) eqn:E1; simpl.
    + apply jseqb_eq in E1. subst k'.
      destruct (Js.eqb key k); reflexivity.
    + destruct (Js.eqb k' k) eqn:E2.
      * apply jseqb_eq in E2. subst k'. rewrite jseqb_sym, E1. reflexivity.
      * exact IH.
Qed.

Lemma addPlaced_lookup (c : Cals) key lbl g k :
  lookup k (addPlaced c (key, (lbl, g)))
  = if Js.eqb key k
    then Some {| label := match lookup k c with Some b => label b | None => lbl end;
                 gridEvents := match lookup k c with
                               | Some b => gridEvents b
                               | None => []
                               end ++ [g] |}
    else lookup k c.
Proof.
  unfold addPlaced, ensureBucket; simpl. rewrite pushEvent_lookup.
  destruct (Js.eqb key k) eqn:E.
  - apply jseqb_eq in E. subst k.
    destruct (lookup key c) as [b|] eqn:El; simpl.
    + now rewrite El.
    + now rewrite lookup_snoc, El, jseqb_refl.
  - destruct (lookup key c) as [b|] eqn:El; auto.
    rewrite lookup_snoc, E. now destruct (lookup k c).
Qed.

Lemma addPlaced_keys (c : Cals) key lbl g :
  keysOf (addPlaced c (key, (lbl, g)))
  = match lookup key c with
    | Some _ => keysOf c
    | None => keysOf c ++ [key]
    end.
Proof.
  unfold addPlaced; simpl. rewrite pushEvent_keys. unfold ensureBucket, keysOf.
  destruct (lookup key c); auto. now rewrite map_app.
Qed.

Lemma under_snoc {A : Type} k (l : list (jsstring * A)) key (v : A) :
  under k (l ++ [(key, v)]) = under k l ++ (if Js.eqb key k then [v] else []).
Proof.
  unfold under. rewrite filter_app, map_app. simpl.
  now destruct (Js.eqb key k).
Qed.

Lemma group_lookup (P : list (jsstring * (jsstring * GridEvent))) k :
  lookup k (fold_left addPlaced P []) = bucketFrom (under k P).
Proof.
  induction P as [|[key [lbl g]] P IH] using rev_ind.
  - reflexivity.
  - rewrite fold_left_app. simpl fold_left. rewrite addPlaced_lookup, IH, under_snoc.
    destruct (Js.eqb key k).
    + destruct (under k P) as [|[l0 g0] es]; simpl; auto.
      now rewrite map_app.
    + now rewrite app_nil_r.
Qed.

Lemma group_keys (P : list (jsstring * (jsstring * GridEvent))) :
  NoDup (keysOf (fold_left addPlaced P []))
  /\ forall k, In k (keysOf (fold_left addPlaced P [])) <-> In k (map fst P).
Proof.
  induction P as [|[key [lbl g]] P [IH1 IH2]] using rev_ind.
  - split; [constructor | simpl; tauto].
  - rewrite fold_left_app. simpl fold_left. rewrite addPlaced_keys.
    rewrite map_app. simpl.
    destruct (lookup key (fold_left addPlaced P [])) eqn:El.
    + split; auto. intros k. rewrite in_app_iff, IH2. simpl.
      assert (Hin : In key (map fst P)).
      { apply IH2. destruct (in_dec (list_eq_dec N.eq_dec) key
                                (keysOf (fold_left addPlaced P []))) as [H|H]; auto.
        apply lookup_None in H. unfold keysOf in *. congruence. }
      split; [tauto|]. intros [H|[<-|[]]]; auto.
    + apply lookup_None in El. split.
      * apply NoDup_app; auto.
        -- constructor; [intros []|constructor].
        -- intros x Hx [<-|[]]. contradiction.
      * intros k. rewrite !in_app_iff, IH2. tauto.
Qed.

Lemma colorForCal_lookup (c : jsstring) :
  In (colorForCal c) paletteKeys
  /\ exists b t r, lookup (colorForCal c) PALETTE = Some (b, t, r).
Proof.
  unfold colorForCal.
  destruct (Js.eqb c (u "Aquatics"));
    [|destruct (Js.eqb c (u "Court Sports"));
      [|destruct (Js.eqb c (u "Community"))]];
    (split; [vm_compute; tauto | do 3 eexists; vm_compute; reflexivity]).
Qed.

Lemma project_total tz monday ev : exists r, project tz monday ev = Returns r.
Proof.
  unfold project.
  destruct (colorForCal_lookup (cal ev)) as (_ & b & t & r & Hl). rewrite Hl.
  destruct (falsy (title ev) || falsy (cal ev)); [eauto|].
  destruct (outsideWeek (dayIndexNum (startISO ev) monday)); eauto.
Qed.

(** X6. [colorForCal] is total: every string has one of the four palette
    keys, "gray" exactly when it is none of "Aquatics", "Court Sports",
    "Community"; the palette has an entry for it, so projecting an event
    never throws, whatever its calendar name. *)
Theorem colorForCal_total (c : jsstring) :
  In (colorForCal c) paletteKeys
  /\ (exists b t r, lookup (colorForCal c) PALETTE = Some (b, t, r))
  /\ (colorForCal c = u "gray" <-> ~ In c coloredNames)
  /\ (forall tz monday ev, cal ev = c -> project tz monday ev <> Throws).
Proof.
  destruct (colorForCal_lookup c) as (H1 & H2).
  split; [exact H1|]. split; [exact H2|]. split.
  - unfold colorForCal, coloredNames.
    destruct (Js.eqb c (u "Aquatics")) eqn:E1.
    { apply jseqb_eq in E1. split; [discriminate|]. intros H; exfalso; apply H.
      simpl; auto. }
    destruct (Js.eqb c (u "Court Sports")) eqn:E2.
    { apply jseqb_eq in E2. split; [discriminate|]. intros H; exfalso; apply H.
      simpl; auto. }
    destruct (Js.eqb c (u "Community")) eqn:E3.
    { apply jseqb_eq in E3. split; [discriminate|]. intros H; exfalso; apply H.
      simpl; auto. }
    split; [|reflexivity]. intros _ [H|[H|[H|[]]]]; subst c.
    + now rewrite jseqb_refl in E1.
    + now rewrite jseqb_refl in E2.
    + now rewrite jseqb_refl in E3.
  - intros tz monday ev _. destruct (project_total tz monday ev) as (r & ->).
    discriminate.
Qed.

Lemma minutes_range tz t :
  (0 <= getHours tz t * 60 + getMinutes tz t <= 1439)%Z.
Proof.
  unfold getHours, getMinutes, TimeWithinDay, msPerDay, msPerHour, msPerMinute.
  generalize (localTime tz t). intros l.
  pose proof (Z.mod_pos_bound l 86400000 eq_refl) as B.
  revert B. generalize (l mod 86400000)%Z. intros r B.
  pose proof (Z.mod_pos_bound r 3600000 eq_refl) as B2.
  pose proof (Z.div_mod r 3600000 ltac:(lia)) as E.
  revert B2 E. generalize (r mod 3600000)%Z (r / 3600000)%Z. intros r2 q B2 E.
  pose proof (Z.div_mod r2 60000 ltac:(lia)) as E2.
  pose proof (Z.mod_pos_bound r2 60000 eq_refl) as B3.
  revert E2 B3. generalize (r2 mod 60000)%Z (r2 / 60000)%Z. intros r3 q2 E2 B3.
  lia.
Qed.

Lemma slugOf_nonempty c : slugOf c <> [].
Proof.
  unfold slugOf, orElse. destruct (slugText c); simpl; discriminate.
Qed.

Lemma orNull_nonempty url : orNull url <> Some [].
Proof.
  destruct url as [[|c h]|]; simpl; discriminate.
Qed.

Lemma lookup_In {A : Type} key (l : list (jsstring * A)) (v : A) :
  lookup key l = Some v -> In v (map snd l).
Proof.
  induction l as [|[k w] l IH]; simpl; [discriminate|].
  destruct (Js.eqb k key); [intros H; inversion H; auto | auto].
Qed.

(** X7. Every grid record the handler makes has start and end minutes from
    0 to 1439, a non-empty key and name, the id title-startISO, a url that is
    null or non-empty, and one of the four color triples of the palette.
    When the anchor is a date, the day index is an integer from 0 to 6 that
    locates the start within the week of the anchor.  When the anchor is the
    invalid date (the check of line 27 looks at digits only, and lets
    2024-13-45 through), the day index is NaN, of which neither comparison
    of line 59 holds: every event with a title and a calendar name is then
    given a record, whatever its date. *)
Theorem grid_event_ranges (tz : zone) (monday : number) (ev : RawEvent)
  (key : jsstring) (g : GridEvent) :
  project tz monday ev = Returns (Some (key, g)) ->
  (0 <= startMinutes g <= 1439)%Z
  /\ (0 <= endMinutes g <= 1439)%Z
  /\ key = slugOf (cal ev) /\ key <> []
  /\ name g = title ev /\ name g <> []
  /\ id g = title ev ++ u "-" ++ toISOString (startISO ev)
  /\ gridUrl g <> Some []
  /\ In (bg (color g), text_ (color g), border (color g)) (map snd PALETTE)
  /\ dayIndex g = dayIndexNum (startISO ev) monday
  /\ (forall m, monday = Finite m ->
        exists i, dayIndex g = Finite i
                  /\ (0 <= i <= 6)%Z
                  /\ (m + i * 86400000 <= startISO ev
                      < m + (i + 1) * 86400000)%Z)
  /\ (monday = NaN -> dayIndex g = NaN)
  /\ (forall ev', title ev' <> [] -> cal ev' <> [] ->
        exists key' g', project tz NaN ev' = Returns (Some (key', g'))
                        /\ dayIndex g' = NaN).
Proof.
  assert (Hnan : forall ev', title ev' <> [] -> cal ev' <> [] ->
            exists key' g', project tz NaN ev' = Returns (Some (key', g'))
                            /\ dayIndex g' = NaN).
  { intros ev' Ht Hc. apply falsy_false in Ht. apply falsy_false in Hc.
    unfold project. rewrite Ht, Hc. cbn [orb dayIndexNum outsideWeek].
    destruct (colorForCal_lookup (cal ev')) as (_ & b' & t' & r' & Hl).
    rewrite Hl. do 2 eexists. split; reflexivity. }
  revert Hnan. generalize (forall ev', title ev' <> [] -> cal ev' <> [] ->
            exists key' g', project tz NaN ev' = Returns (Some (key', g'))
                            /\ dayIndex g' = NaN). intros Pnan Hnan.
  unfold project.
  destruct (falsy (title ev) || falsy (cal ev)) eqn:Ef; [intros H; discriminate H|].
  apply orb_false_elim in Ef as [Ef _]. apply falsy_false in Ef.
  destruct (outsideWeek (dayIndexNum (startISO ev) monday)) eqn:Ed;
    [intros H; discriminate H|].
  destruct (lookup (colorForCal (cal ev)) PALETTE) as [[[b t] r]|] eqn:El;
    [|intros H; discriminate H].
  intros H. inversion H; subst key g; clear H. simpl.
  split; [apply minutes_range|]. split; [apply minutes_range|].
  split; [reflexivity|]. split; [apply slugOf_nonempty|].
  split; [reflexivity|]. split; [exact Ef|]. split; [reflexivity|].
  split; [apply orNull_nonempty|].
  split; [exact (lookup_In _ _ _ El)|].
  split; [reflexivity|]. split; [|split].
  - intros m ->. simpl in *. exists (dayIndexOf (startISO ev) m).
    apply orb_false_elim in Ed as [E1 E2].
    apply Z.ltb_ge in E1. rewrite Z.gtb_ltb in E2. apply Z.ltb_ge in E2.
    split; [reflexivity|]. split; [lia|]. now apply dayIndexOf_floor.
  - intros ->. reflexivity.
  - exact Hnan.
Qed.

Lemma grid_event_ranges_witness :
  project (fixed 0) (Finite (localOf 2024 1 15 0 0))
    (eventAt (fixed 0) 2024 1 21 23 59)
  = Returns (Some (u "aquatics", grid0))
  /\ (0 <= startMinutes grid0 <= 1439)%Z
  /\ (0 <= endMinutes grid0 <= 1439)%Z
  /\ dayIndex grid0 = Finite 6
  /\ (exists key g,
        project (fixed 0) NaN (eventAt (fixed 0) 2031 7 4 9 0)
        = Returns (Some (key, g))
        /\ dayIndex g = NaN).
Proof.
  assert (H : project (fixed 0) (Finite (localOf 2024 1 15 0 0))
                (eventAt (fixed 0) 2024 1 21 23 59)
              = Returns (Some (u "aquatics", grid0))) by (vm_compute; reflexivity).
  split; [exact H|].
  destruct (grid_event_ranges (fixed 0) (Finite (localOf 2024 1 15 0 0))
              (eventAt (fixed 0) 2024 1 21 23 59) (u "aquatics") grid0 H)
    as (H1 & H2 & _ & _ & _ & _ & _ & _ & _ & _ & _ & _ & Hnan).
  split; [exact H1|]. split; [exact H2|]. split; [reflexivity|].
  apply Hnan; discriminate.
Defined.

Lemma step_addPlaced tz monday (c : Cals) ev :
  step tz monday (Returns c) ev
  = Returns (fold_left addPlaced (placed tz monday ev) c).
Proof.
  unfold step, placed. destruct (project_total tz monday ev) as (r & ->).
  destruct r as [[key g]|]; reflexivity.
Qed.

Lemma buildCals_fold tz monday evs : forall c,
  fold_left (step tz monday) evs (Returns c)
  = Returns (fold_left addPlaced (placedAll tz monday evs) c).
Proof.
  induction evs as [|ev evs IH]; intros c; [reflexivity|].
  cbn [fold_left]. rewrite step_addPlaced, IH. unfold placedAll.
  cbn [flat_map]. now rewrite fold_left_app.
Qed.

Lemma bucketFrom_events es b :
  bucketFrom es = Some b -> gridEvents b = map snd es /\ es <> [].
Proof.
  destruct es as [|[l g] es]; simpl; [discriminate|].
  intros H. inversion H; subst. simpl. split; [reflexivity | discriminate].
Qed.

(** X8. For events with classifier names the loop over the events returns,
    and [CALS] groups them: the keys are distinct and are the keys of the
    events that were not skipped; the bucket of a key holds the grid records
    of exactly the events with that key, in the order of the events, under
    the calendar name of the first of them; no bucket is empty. *)
Theorem buildCals_groups (tz : zone) (monday : number) (evs : list RawEvent) :
  (forall ev, In ev evs -> In (cal ev) calendarNames) ->
  exists CALS,
    buildCals tz monday evs = Returns CALS
    /\ NoDup (keysOf CALS)
    /\ (forall key, In key (keysOf CALS) <->
                    In key (map fst (placedAll tz monday evs)))
    /\ (forall key, lookup key CALS
                    = bucketFrom (under key (placedAll tz monday evs)))
    /\ (forall key b, lookup key CALS = Some b ->
          In key calendarSlugs
          /\ gridEvents b <> []
          /\ length (gridEvents b) <= length evs).
Proof.
  intros Hnames. exists (fold_left addPlaced (placedAll tz monday evs) []).
  destruct (group_keys (placedAll tz monday evs)) as [Hnd Hk].
  split; [apply buildCals_fold|]. split; [exact Hnd|]. split; [exact Hk|].
  split; [intros key; apply group_lookup|].
  intros key b Hl.
  assert (Hin : In key (keysOf (fold_left addPlaced (placedAll tz monday evs) []))).
  { destruct (in_dec (list_eq_dec N.eq_dec) key
                (keysOf (fold_left addPlaced (placedAll tz monday evs) [])))
      as [H|H]; auto.
    apply lookup_None in H. unfold keysOf in *. congruence. }
  split; [|split].
  - apply Hk in Hin. apply in_map_iff in Hin as ([k [l g]] & <- & Hin).
    unfold placedAll in Hin. apply in_flat_map in Hin as (ev & Hev & Hp).
    unfold placed in Hp.
    destruct (project_returns tz monday ev (Hnames ev Hev)) as (r & Hr & Hkey).
    rewrite Hr in Hp. destruct r as [[k' g']|]; [|contradiction].
    destruct Hp as [Hp|[]]. inversion Hp; subst. simpl.
    rewrite (Hkey k g eq_refl).
    destruct (calendarNames_ok _ (Hnames ev Hev)) as (_ & _ & _ & Hs & _).
    exact Hs.
  - rewrite group_lookup in Hl. apply bucketFrom_events in Hl as (Hg & Hne).
    rewrite Hg. destruct (under key (placedAll tz monday evs)); [easy|discriminate].
  - rewrite group_lookup in Hl. apply bucketFrom_events in Hl as (Hg & _).
    rewrite Hg. unfold under. rewrite !length_map.
    eapply Nat.le_trans; [apply filter_length_le|].
    unfold placedAll. clear. induction evs as [|ev evs IH]; simpl; auto.
    rewrite length_app. unfold placed at 1.
    destruct (project tz monday ev) as [[[k g]|]|]; simpl; lia.
Qed.

Lemma buildCals_groups_witness :
  (forall ev, In ev week0 -> In (cal ev) calendarNames)
  /\ exists CALS,
       buildCals (fixed 0) (Finite (localOf 2024 1 15 0 0)) week0 = Returns CALS
       /\ NoDup (keysOf CALS).
Proof.
  assert (H : forall ev, In ev week0 -> In (cal ev) calendarNames).
  { intros ev [<-|[<-|[<-|[]]]]; simpl; auto. }
  split; [exact H|].
  destruct (buildCals_groups (fixed 0) (Finite (localOf 2024 1 15 0 0)) week0 H)
    as (CALS & H1 & H2 & _).
  exists CALS. split; [exact H1 | exact H2].
Defined.

(* ------------------------------------------------------------------------- *)
(** ** More on rows, links and names *)

Lemma hasScheme_app b x : hasScheme b = true -> hasScheme (b ++ x) = true.
Proof.
  unfold hasScheme. rewrite map_app. intros H.
  apply orb_prop in H as [H|H]; apply startsWith_spec in H as (post & H);
    rewrite H, <- app_assoc; apply orb_true_iff; [left|right];
    apply startsWith_spec; eauto.
Qed.

Lemma absolutize_some h base :
  absolutize (Some h) base
  = if falsy h then None
    else if hasScheme h then Some h
    else if falsy base then Some h
    else Some (base ++ (if startsWith h (u "/") then [] else u "/") ++ h).
Proof. unfold absolutize. now rewrite test_scheme. Qed.

Lemma absolutize_nonempty href base : absolutize href base <> Some [].
Proof.
  destruct href as [h|]; [|discriminate]. rewrite absolutize_some.
  destruct h as [|c h]; [discriminate|]. simpl falsy. cbv iota.
  destruct (hasScheme (c :: h)); [discriminate|].
  destruct base as [|b base]; simpl; discriminate.
Qed.

(** X9. With a base origin that is empty or begins with http:// or https://,
    absolutizing twice is absolutizing once.  The result is never the empty
    string, so [ev.url || null] in the handler leaves it as it is, and with a
    base origin that is not empty every link returned has a scheme. *)
Theorem absolutize_idempotent (href : option jsstring) (baseOrigin : jsstring) :
  baseOrigin = [] \/ hasScheme baseOrigin = true ->
  absolutize (absolutize href baseOrigin) baseOrigin = absolutize href baseOrigin
  /\ absolutize href baseOrigin <> Some []
  /\ orNull (absolutize href baseOrigin) = absolutize href baseOrigin
  /\ (forall h, absolutize href baseOrigin = Some h ->
                baseOrigin <> [] -> hasScheme h = true).
Proof.
  intros Hb.
  assert (Hne := absolutize_nonempty href baseOrigin).
  assert (Hcases : absolutize href baseOrigin = None
                   \/ exists h, absolutize href baseOrigin = Some h /\ h <> []
                        /\ (baseOrigin = [] \/ hasScheme h = true)).
  { destruct href as [h|]; [|now left]. rewrite absolutize_some.
    destruct h as [|c h]; [now left|]. right. simpl falsy. cbv iota.
    destruct (hasScheme (c :: h)) eqn:Es.
    - exists (c :: h). repeat split; auto. discriminate.
    - destruct baseOrigin as [|b base].
      + exists (c :: h). repeat split; auto. discriminate.
      + simpl falsy. cbv iota. eexists. split; [reflexivity|].
        split; [discriminate|]. right.
        destruct Hb as [Hb|Hb]; [discriminate|].
        now apply hasScheme_app. }
  destruct Hcases as [E|(h & E & Hh & Hs)]; rewrite E.
  - repeat split; auto; discriminate.
  - split; [|split; [|split]].
    + rewrite absolutize_some. destruct h as [|c h]; [contradiction|].
      simpl falsy. cbv iota. destruct Hs as [->|Hs].
      * now destruct (hasScheme (c :: h)).
      * now rewrite Hs.
    + intros H. inversion H. contradiction.
    + destruct h; [contradiction | reflexivity].
    + intros h' H Hbne. inversion H; subst h'.
      destruct Hs as [Hs|Hs]; [contradiction | exact Hs].
Qed.

Lemma absolutize_idempotent_witness :
  (u "https://example.org" = [] \/ hasScheme (u "https://example.org") = true)
  /\ absolutize (absolutize (Some (u "detail/1")) (u "https://example.org"))
       (u "https://example.org")
     = absolutize (Some (u "detail/1")) (u "https://example.org").
Proof.
  assert (H : u "https://example.org" = []
              \/ hasScheme (u "https://example.org") = true)
    by (right; vm_compute; reflexivity).
  split; [exact H|].
  exact (proj1 (absolutize_idempotent (Some (u "detail/1"))
                  (u "https://example.org") H)).
Defined.

Lemma findIndex_range {A : Type} (f : A -> bool) (l : list A) :
  (-1 <= findIndex f l < Z.of_nat (length l))%Z.
Proof.
  destruct (findIndex_spec f l) as [[H _]|[H _]]; lia.
Qed.

Lemma titleOf_None : titleOf None = [].
Proof. vm_compute. reflexivity. Qed.

(** X10. Each resolved column index is -1 or the position of a header.  A row
    with at least as many cells as there are headers has an activity cell; a
    row with no cell at the activity index, or with no cell at all, is
    skipped without an error, and a date index beyond the row reads as empty
    text. *)
Theorem resolved_indices_and_short_rows (tz : zone) (headers : list jsstring)
  (baseOrigin : jsstring) (tr : node) :
  let ix := resolveIdx headers in
  let n := Z.of_nat (length headers) in
  let tds := find (tag "td") tr in
  (-1 <= idxDate ix < n)%Z /\ (-1 <= idxTime ix < n)%Z
  /\ (-1 <= idxAct ix < n)%Z /\ (-1 <= idxLoc ix < n)%Z
  /\ (length headers <= length tds ->
      tds <> [] -> actCellOf ix tds <> None)
  /\ (forall ix', (0 <= idxAct ix')%Z ->
                  length tds <= Z.to_nat (idxAct ix') ->
                  detailRow tz ix' baseOrigin tr = None)
  /\ (forall ix', (0 <= idxDate ix')%Z ->
                  length tds <= Z.to_nat (idxDate ix') ->
                  dateTextOf ix' tds = [])
  /\ (forall ix', tds = [] -> detailRow tz ix' baseOrigin tr = None).
Proof.
  intros ix n tds. unfold ix, resolveIdx, findHeader. cbn [idxDate idxTime idxAct idxLoc].
  split; [apply findIndex_range|]. split; [apply findIndex_range|].
  split; [apply findIndex_range|]. split; [apply findIndex_range|].
  split; [|split; [|split]].
  - intros Hlen Hne. unfold actCellOf. cbn [idxAct].
    match goal with |- context [findIndex ?f headers] =>
      pose proof (findIndex_range f headers) as Hr;
      generalize dependent (findIndex f headers) end.
    intros i Hr. destruct (i >=? 0)%Z eqn:E.
    + apply Z.geb_le in E. unfold cell, eq. apply nth_error_Some. lia.
    + unfold eq. destruct tds; [contradiction | discriminate].
  - intros ix' H0 Hlen. unfold detailRow. fold tds.
    destruct (length tds =? 0); [reflexivity|].
    assert (E : actCellOf ix' tds = None).
    { unfold actCellOf. replace (idxAct ix' >=? 0)%Z with true
        by (symmetry; apply Z.geb_le; lia).
      unfold cell, eq. now apply nth_error_None. }
    rewrite E, titleOf_None. reflexivity.
  - intros ix' H0 Hlen. unfold dateTextOf.
    replace (idxDate ix' >=? 0)%Z with true by (symmetry; apply Z.geb_le; lia).
    unfold cell, eq. replace (nth_error tds (Z.to_nat (idxDate ix'))) with (@None node)
      by (symmetry; now apply nth_error_None).
    vm_compute. reflexivity.
  - intros ix' E. unfold detailRow. fold tds. rewrite E. reflexivity.
Qed.

Lemma replaceRuns_empty_filter (p : N -> bool) s : forall b,
  replaceRuns p [] b s = filter (fun c => negb (p c)) s.
Proof.
  induction s as [|c s IH]; intros b; simpl; auto.
  destruct (p c); simpl.
  - destruct b; apply IH.
  - f_equal. apply IH.
Qed.

Lemma lowerUnit_white x : isWhite x = true -> lowerUnit x = [x].
Proof.
  intros H. unfold isWhite, between in H.
  rewrite !orb_true_iff, !andb_true_iff, !N.leb_le, !N.eqb_eq in H.
  unfold lowerUnit, between.
  destruct ((65 <=? x)%N && (x <=? 90)%N) eqn:E1.
  { rewrite andb_true_iff, !N.leb_le in E1. exfalso. lia. }
  destruct ((192 <=? x)%N && (x <=? 222)%N && negb (x =? 215)%N) eqn:E2.
  { rewrite !andb_true_iff, !N.leb_le in E2. exfalso. lia. }
  destruct (x =? 304)%N eqn:E3.
  { rewrite N.eqb_eq in E3. exfalso. lia. }
  destruct (x =? 8490)%N eqn:E4.
  { rewrite N.eqb_eq in E4. exfalso. lia. }
  destruct (x =? 8491)%N eqn:E5.
  { rewrite N.eqb_eq in E5. exfalso. lia. }
  reflexivity.
Qed.

Lemma lower_white_filter c :
  Forall (fun x => isWhite x = true) c ->
  filter (fun x => negb (isWhite x)) (toLowerCase c) = [].
Proof.
  intros Hall. unfold toLowerCase.
  induction Hall as [|x l Hx _ IH]; simpl; auto.
  rewrite filter_app, IH, app_nil_r, (lowerUnit_white x Hx). simpl.
  now rewrite Hx.
Qed.

(** X11. The bucket key of a calendar name is its lower case with every
    white-space code unit removed, and "schedule" when nothing is left; it
    is never empty and holds no white space. *)
Theorem slugOf_shape (c : jsstring) :
  slugText c = filter (fun x => negb (isWhite x)) (toLowerCase c)
  /\ Forall (fun x => isWhite x = false) (slugText c)
  /\ slugOf c <> []
  /\ (slugText c <> [] -> slugOf c = slugText c)
  /\ (slugText c = [] -> slugOf c = u "schedule")
  /\ (Forall (fun x => isWhite x = true) c -> slugOf c = u "schedule")
  /\ slugOf (u " Court  Sports ") = u "courtsports".
Proof.
  assert (E : slugText c = filter (fun x => negb (isWhite x)) (toLowerCase c)).
  { unfold slugText, replaceWs. apply replaceRuns_empty_filter. }
  split; [exact E|]. split; [|split; [|split; [|split; [|split]]]].
  - rewrite E. apply Forall_forall. intros x Hx. apply filter_In in Hx as [_ Hx].
    now apply negb_true_iff in Hx.
  - apply slugOf_nonempty.
  - unfold slugOf, orElse. destruct (slugText c); [intros H; contradiction|reflexivity].
  - unfold slugOf. now intros ->.
  - intros Hall. unfold slugOf. rewrite E.
    assert (Hf := lower_white_filter c Hall).
    now rewrite Hf.
  - vm_compute. reflexivity.
Qed.

Lemma lowerUnit_id x :
  (x < 65 \/ 90 < x)%N -> (x < 192 \/ 222 < x \/ x = 215)%N ->
  x <> 304%N -> x <> 8490%N -> x <> 8491%N ->
  lowerUnit x = [x].
Proof.
  intros H1 H2 H3 H4 H5. unfold lowerUnit, between.
  destruct ((65 <=? x)%N && (x <=? 90)%N) eqn:E1.
  { rewrite andb_true_iff, !N.leb_le in E1. exfalso. lia. }
  destruct ((192 <=? x)%N && (x <=? 222)%N && negb (x =? 215)%N) eqn:E2.
  { rewrite !andb_true_iff, !N.leb_le, negb_true_iff, N.eqb_neq in E2.
    exfalso. lia. }
  destruct (x =? 304)%N eqn:E3; [apply N.eqb_eq in E3; contradiction|].
  destruct (x =? 8490)%N eqn:E4; [apply N.eqb_eq in E4; contradiction|].
  destruct (x =? 8491)%N eqn:E5; [apply N.eqb_eq in E5; contradiction|].
  reflexivity.
Qed.

Lemma lower_lowerUnit c : toLowerCase (lowerUnit c) = lowerUnit c.
Proof.
  unfold toLowerCase.
  assert (Hone : forall x, lowerUnit x = [x] -> flat_map lowerUnit [x] = [x]).
  { intros x Hx. simpl. now rewrite Hx. }
  unfold lowerUnit at 2 3. unfold between.
  destruct ((65 <=? c)%N && (c <=? 90)%N) eqn:E1.
  { rewrite andb_true_iff, !N.leb_le in E1. apply Hone. apply lowerUnit_id; lia. }
  destruct ((192 <=? c)%N && (c <=? 222)%N && negb (c =? 215)%N) eqn:E2.
  { rewrite !andb_true_iff, !N.leb_le, negb_true_iff, N.eqb_neq in E2.
    apply Hone. apply lowerUnit_id; lia. }
  destruct (c =? 304)%N eqn:E3; [reflexivity|].
  destruct (c =? 8490)%N eqn:E4; [reflexivity|].
  destruct (c =? 8491)%N eqn:E5; [reflexivity|].
  apply Hone. apply N.eqb_neq in E3, E4, E5.
  rewrite andb_false_iff, !N.leb_gt in E1.
  rewrite !andb_false_iff, !N.leb_gt, negb_false_iff, N.eqb_eq in E2.
  apply lowerUnit_id; lia.
Qed.

Lemma toLowerCase_app a b : toLowerCase (a ++ b) = toLowerCase a ++ toLowerCase b.
Proof. unfold toLowerCase. apply flat_map_app. Qed.

Lemma toLowerCase_idem s : toLowerCase (toLowerCase s) = toLowerCase s.
Proof.
  induction s as [|c s IH]; auto.
  change (toLowerCase (c :: s)) with (lowerUnit c ++ toLowerCase s).
  now rewrite toLowerCase_app, lower_lowerUnit, IH.
Qed.

(** X12. The classifier does not see letter case: lowercasing the title and
    the location first gives the same calendar. *)
Theorem guessCal_case_insensitive (title : jsstring) (loc : option jsstring) :
  guessCal (toLowerCase title) (option_map toLowerCase loc) = guessCal title loc
  /\ toLowerCase (toLowerCase title) = toLowerCase title
  /\ guessCal (u "LAP SWIM") None = u "Aquatics"
  /\ guessCal (u "Open Gym") (Some (u "Main COURT")) = u "Court Sports".
Proof.
  split; [|split; [apply toLowerCase_idem | split; vm_compute; reflexivity]].
  unfold guessCal.
  replace (toLowerCase (toLowerCase title ++ u " " ++ orEmpty (option_map toLowerCase loc)))
    with (toLowerCase (title ++ u " " ++ orEmpty loc)); [reflexivity|].
  rewrite !toLowerCase_app, toLowerCase_idem. f_equal. f_equal.
  destruct loc; simpl; [now rewrite toLowerCase_idem | reflexivity].
Qed.

(* ------------------------------------------------------------------------- *)
(** ** More on the week *)

Section Clock.

Local Open Scope Z_scope.

Lemma Day_unique l D : D * msPerDay <= l < (D + 1) * msPerDay -> Day l = D.
Proof.
  unfold Day, msPerDay. intros H. symmetry.
  apply Z.div_unique with (r := l - D * 86400000); lia.
Qed.

Lemma monday_of_day D D' :
  D - (D + 3) mod 7 <= D' < D - (D + 3) mod 7 + 7 ->
  D' - (D' + 3) mod 7 = D - (D + 3) mod 7.
Proof.
  pose proof (Z.div_mod (D + 3) 7 ltac:(lia)) as E.
  pose proof (Z.mod_pos_bound (D + 3) 7 eq_refl) as B.
  revert E B. generalize ((D + 3) mod 7) ((D + 3) / 7). intros k q E B H.
  assert (Hq : (D' + 3) mod 7 = D' + 3 - 7 * q).
  { symmetry. apply Z.mod_unique with (q := q); lia. }
  rewrite Hq. lia.
Qed.

Lemma getMonday_same_week o d d' :
  getMonday (fixed o) d <= d' < getMonday (fixed o) d + 7 * msPerDay ->
  getMonday (fixed o) d' = getMonday (fixed o) d.
Proof.
  rewrite !getMonday_utc by apply present_fixed.
  rewrite !utc_fixed, !localTime_fixed.
  generalize (Day (d + o)). intros D.
  pose proof (Day_bounds (d' + o)) as B.
  revert B. generalize (Day (d' + o)). intros D' B H.
  f_equal. f_equal. apply monday_of_day.
  revert B H. unfold msPerDay.
  generalize ((D + 3) mod 7). intros k B H. lia.
Qed.

(** X13. With a fixed offset, [getMonday] is constant on the week it
    returns: every instant from the anchor up to seven days later has the
    same anchor, the anchor is its own anchor, and day indices do not depend
    on which instant of the week was given. *)
Theorem getMonday_week_constant (tz d d' : Z) :
  getMonday (fixed tz) d <= d' < getMonday (fixed tz) d + 7 * 86400000 ->
  getMonday (fixed tz) d' = getMonday (fixed tz) d
  /\ getMonday (fixed tz) (getMonday (fixed tz) d) = getMonday (fixed tz) d
  /\ (forall s, dayIndexOf s (getMonday (fixed tz) d')
                = dayIndexOf s (getMonday (fixed tz) d)).
Proof.
  intros H. pose proof (getMonday_same_week tz d d' H) as E.
  split; [exact E|]. split; [|intros s; now rewrite E].
  apply getMonday_same_week.
  pose proof (getMonday_fixed_week tz d) as Hd.
  revert Hd. unfold msPerDay. generalize (getMonday (fixed tz) d). intros m Hd. lia.
Qed.

Lemma getMonday_week_constant_witness :
  getMonday (fixed 0) (localOf 2024 1 18 13 5) <= localOf 2024 1 21 23 59
  < getMonday (fixed 0) (localOf 2024 1 18 13 5) + 7 * 86400000
  /\ getMonday (fixed 0) (localOf 2024 1 21 23 59)
     = getMonday (fixed 0) (localOf 2024 1 18 13 5).
Proof.
  assert (H : getMonday (fixed 0) (localOf 2024 1 18 13 5) <= localOf 2024 1 21 23 59
              < getMonday (fixed 0) (localOf 2024 1 18 13 5) + 7 * 86400000)
    by (vm_compute; split; [discriminate | reflexivity]).
  split; [exact H|].
  exact (proj1 (getMonday_week_constant 0 (localOf 2024 1 18 13 5)
                  (localOf 2024 1 21 23 59) H)).
Defined.

(** The anchor of a date-only start that is a Monday, in a zone that is
    behind UTC at that instant. *)
Lemma getMonday_dateOnly tz D :
  (D + 3) mod 7 = 0 ->
  present tz ((D - 1) * msPerDay) ->
  - msPerDay <= LocalTZA tz (D * msPerDay) true < 0 ->
  getMonday tz (D * msPerDay) = utc tz ((D - 7) * msPerDay).
Proof.
  intros HD Hp Htz.
  assert (E : Day (localTime tz (D * msPerDay)) = D - 1).
  { apply Day_unique. unfold localTime. revert Htz.
    generalize (LocalTZA tz (D * msPerDay) true). unfold msPerDay. intros o Htz.
    lia. }
  rewrite getMonday_utc; rewrite E; [|exact Hp].
  replace (D - 1 + 3) with (D + 3 + (-1) * 7 + 6) by lia.
  rewrite Z.add_mod by lia. rewrite Z.mod_add by lia. rewrite HD.
  change ((0 + 6 mod 7) mod 7) with 6. f_equal. f_equal. lia.
Qed.

(** X14. The handler anchors the week at [getMonday(new Date(start))], and a
    date-only string is midnight UTC.  Where the zone is behind UTC at that
    instant it is still Sunday evening there, so for a start date of the
    calendar that is a Monday the anchor is the Monday one week earlier (in
    a zone in which no local midnight is skipped), and every event that
    starts in the requested week, while the offset is what it is at the
    anchor, gets a day index from 7 to 13 and is dropped. *)
Theorem monday_start_west_of_utc (tz : zone) (y m d : Z) (ev : RawEvent) :
  civil_from_days (days_from_civil y m d) = (y, m, d) ->
  getDay (fixed 0) (dateOnly y m d) = 1 ->
  midnightsPresent tz ->
  - 86400000 <= LocalTZA tz (dateOnly y m d) true < 0 ->
  dateOnly y m d <= localTime tz (startISO ev) < dateOnly y m d + 7 * 86400000 ->
  LocalTZA tz (startISO ev) true
  = LocalTZA tz (getMonday tz (dateOnly y m d)) true ->
  getMonday tz (dateOnly y m d) = utc tz (dateOnly y m d - 7 * 86400000)
  /\ 7 <= dayIndexOf (startISO ev) (getMonday tz (dateOnly y m d)) <= 13
  /\ project tz (mondayOf tz (Finite (dateOnly y m d))) ev = Returns None.
Proof.
  intros _. unfold dateOnly. generalize (days_from_civil y m d).
  intros D Hmon Hp Htz Hev Hoff.
  assert (HD : (D + 3) mod 7 = 0).
  { unfold getDay in Hmon. rewrite localTime_fixed, Z.add_0_r, Day_midnight in Hmon.
    pose proof (Z.div_mod (D + 4) 7 ltac:(lia)) as E. rewrite Hmon in E.
    replace (D + 3) with (0 + ((D + 4) / 7) * 7) by lia.
    now rewrite Z.mod_add by lia. }
  assert (Hm : getMonday tz (D * msPerDay) = utc tz ((D - 7) * msPerDay)).
  { apply getMonday_dateOnly; [exact HD | apply Hp | exact Htz]. }
  assert (Hl : localTime tz (getMonday tz (D * msPerDay)) = (D - 7) * msPerDay).
  { rewrite Hm. apply Hp. }
  assert (Hi : 7 <= dayIndexOf (startISO ev) (getMonday tz (D * msPerDay)) <= 13).
  { revert Hev Hoff Hl. unfold dayIndexOf, localTime, msPerDay.
    generalize (getMonday tz (D * 86400000)). intros a.
    generalize (LocalTZA tz a true). generalize (LocalTZA tz (startISO ev) true).
    generalize (startISO ev). intros s o1 o2 Hev -> Hl.
    split.
    - apply Z.div_le_lower_bound; lia.
    - apply Z.lt_succ_r. apply Z.div_lt_upper_bound; lia. }
  split; [rewrite Hm; f_equal; unfold msPerDay; lia|]. split; [exact Hi|].
  unfold mondayOf, project, dayIndexNum, outsideWeek.
  destruct (falsy (title ev) || falsy (cal ev)); [reflexivity|].
  replace (dayIndexOf (startISO ev) (getMonday tz (D * msPerDay)) >? 6) with true
    by (symmetry; apply Z.gtb_lt; lia).
  rewrite orb_true_r. reflexivity.
Qed.

Lemma monday_start_west_of_utc_witness :
  civil_from_days (days_from_civil 2024 1 15) = (2024, 1, 15)
  /\ getDay (fixed 0) (dateOnly 2024 1 15) = 1
  /\ midnightsPresent newYork2024
  /\ - 86400000 <= LocalTZA newYork2024 (dateOnly 2024 1 15) true < 0
  /\ dateOnly 2024 1 15
     <= localTime newYork2024 (startISO (eventAt newYork2024 2024 1 15 10 0))
     < dateOnly 2024 1 15 + 7 * 86400000
  /\ LocalTZA newYork2024 (startISO (eventAt newYork2024 2024 1 15 10 0)) true
     = LocalTZA newYork2024 (getMonday newYork2024 (dateOnly 2024 1 15)) true
  /\ project newYork2024 (mondayOf newYork2024 (Finite (dateOnly 2024 1 15)))
       (eventAt newYork2024 2024 1 15 10 0) = Returns None.
Proof.
  assert (H0 : civil_from_days (days_from_civil 2024 1 15) = (2024, 1, 15))
    by (vm_compute; reflexivity).
  assert (H1 : getDay (fixed 0) (dateOnly 2024 1 15) = 1)
    by (vm_compute; reflexivity).
  assert (H2 : - 86400000 <= LocalTZA newYork2024 (dateOnly 2024 1 15) true < 0)
    by (vm_compute; split; [discriminate | reflexivity]).
  assert (H3 : dateOnly 2024 1 15
               <= localTime newYork2024
                    (startISO (eventAt newYork2024 2024 1 15 10 0))
               < dateOnly 2024 1 15 + 7 * 86400000)
    by (vm_compute; split; [discriminate | reflexivity]).
  assert (H4 : LocalTZA newYork2024
                 (startISO (eventAt newYork2024 2024 1 15 10 0)) true
               = LocalTZA newYork2024
                   (getMonday newYork2024 (dateOnly 2024 1 15)) true)
    by (vm_compute; reflexivity).
  split; [exact H0|]. split; [exact H1|].
  split; [exact midnightsPresent_newYork2024|].
  split; [exact H2|]. split; [exact H3|]. split; [exact H4|].
  exact (proj2 (proj2 (monday_start_west_of_utc newYork2024 2024 1 15
                         (eventAt newYork2024 2024 1 15 10 0)
                         H0 H1 midnightsPresent_newYork2024 H2 H3 H4))).
Defined.

Lemma readDigits_nonneg s : forall acc, 0 <= acc -> 0 <= fst (readDigits acc s).
Proof.
  induction s as [|c s IH]; intros acc H; simpl; auto.
  destruct (isDigit c) eqn:E; simpl; auto.
  apply IH. unfold isDigit, between in E. apply andb_prop in E as [E1 E2].
  apply N.leb_le in E1. lia.
Qed.

Lemma readNumber_nonneg s n rest : readNumber s = Some (n, rest) -> 0 <= n.
Proof.
  unfold readNumber. destruct s as [|c s]; [discriminate|].
  destruct (isDigit c); [|discriminate]. intros H.
  assert (E : readDigits 0 (c :: s) = (n, rest)) by congruence.
  pose proof (readDigits_nonneg (c :: s) 0 ltac:(lia)) as Hn.
  rewrite E in Hn. exact Hn.
Qed.

Lemma readMeridiem_off s off : readMeridiem s = Some off -> off = 0 \/ off = 12.
Proof.
  unfold readMeridiem. destruct s as [|a [|m [|x s]]]; try discriminate.
  destruct ((m =? 77)%N || (m =? 109)%N); [|discriminate].
  destruct ((a =? 65)%N || (a =? 97)%N); [intros H; inversion H; auto|].
  destruct ((a =? 80)%N || (a =? 112)%N); [intros H; inversion H; auto|discriminate].
Qed.

Lemma readDateTime_ranges s y m d hh mi :
  readDateTime s = Some (y, m, d, hh, mi) ->
  1 <= m <= 12 /\ 1 <= d <= 31 /\ 0 <= hh <= 23 /\ 0 <= mi <= 59.
Proof.
  unfold readDateTime, bind.
  destruct (readNumber s) as [[n1 s1]|]; [|discriminate].
  destruct (expect 47 s1) as [s2|]; [|discriminate].
  destruct (readNumber s2) as [[n2 s3]|]; [|discriminate].
  destruct (expect 47 s3) as [s4|]; [|discriminate].
  destruct (readNumber s4) as [[n3 s5]|]; [|discriminate].
  destruct (expect 32 s5) as [s6|]; [|discriminate].
  destruct (readNumber s6) as [[h s7]|] eqn:Eh; [|discriminate].
  destruct (expect 58 s7) as [s8|]; [|discriminate].
  destruct (readNumber s8) as [[mi' s9]|] eqn:Em; [|discriminate].
  destruct (expect 32 s9) as [s10|]; [|discriminate].
  destruct (readMeridiem s10) as [off|] eqn:Eo; [|discriminate].
  apply readNumber_nonneg in Eh, Em. apply readMeridiem_off in Eo.
  destruct ((1 <=? n1) && (n1 <=? 31)).
  - destruct ((1 <=? n1) && (n1 <=? 12) && (1 <=? n2) && (n2 <=? 31)
              && (h <=? 12) && (mi' <=? 59)) eqn:E; [|discriminate].
    intros H. inversion H; subst; clear H.
    repeat (apply andb_prop in E as [E ?]).
    repeat match goal with H : (_ <=? _) = true |- _ => apply Z.leb_le in H end.
    pose proof (Z.mod_pos_bound h 12 eq_refl). lia.
  - destruct ((1 <=? n2) && (n2 <=? 12) && (1 <=? n3) && (n3 <=? 31)
              && (h <=? 12) && (mi' <=? 59)) eqn:E; [|discriminate].
    intros H. inversion H; subst; clear H.
    repeat (apply andb_prop in E as [E ?]).
    repeat match goal with H : (_ <=? _) = true |- _ => apply Z.leb_le in H end.
    pose proof (Z.mod_pos_bound h 12 eq_refl). lia.
Qed.

Lemma local_clock D hh mi :
  0 <= hh <= 23 -> 0 <= mi <= 59 ->
  let l := D * msPerDay + hh * msPerHour + mi * msPerMinute in
  Day l = D /\ TimeWithinDay l / msPerHour = hh
  /\ (TimeWithinDay l mod msPerHour) / msPerMinute = mi.
Proof.
  intros Hh Hm l.
  assert (Ht : TimeWithinDay l = hh * msPerHour + mi * msPerMinute).
  { unfold TimeWithinDay, l, msPerDay, msPerHour, msPerMinute. symmetry.
    apply Z.mod_unique with (q := D); lia. }
  split; [|split].
  - apply Day_unique. unfold l, msPerDay, msPerHour, msPerMinute. lia.
  - rewrite Ht. unfold msPerHour, msPerMinute. symmetry.
    apply Z.div_unique with (r := mi * 60000); lia.
  - rewrite Ht. unfold msPerHour, msPerMinute.
    replace ((hh * 3600000 + mi * 60000) mod 3600000) with (mi * 60000).
    + symmetry. apply Z.div_unique with (r := 0); lia.
    + apply Z.mod_unique with (q := hh); lia.
Qed.



End Clock.

(* ------------------------------------------------------------------------- *)
(** ** The request and the Playwright variant *)

Lemma testWhole_spec r s : testWhole r s = true <-> Matches r None s [].
Proof.
  unfold testWhole. split.
  - destruct (mt r None s [] _) eqn:E; [|discriminate]. intros _.
    apply mt_sound in E as (w & rest & cs' & -> & Hm & Hk).
    destruct rest; [|discriminate]. now rewrite app_nil_r.
  - intros Hm.
    pose proof (mt_complete unit r None s [] Hm []
                  (fun _ rest _ => match rest with [] => Some tt | _ :: _ => None end))
      as H.
    rewrite app_nil_r in H.
    destruct (mt r None s [] _); [reflexivity|].
    exfalso. apply H; [intros; discriminate | reflexivity].
Qed.

Lemma Matches_ymd prev w rest : Matches re_ymd prev w rest <-> YmdText w.
Proof.
  unfold re_ymd, digits, lit1; simpl. split.
  - intros H. minv. neqb.
    match goal with |- YmdText (?y ++ _ ++ ?m ++ _ ++ ?d) => exists y, m, d end.
    repeat match goal with
    | H : forall h, Some ?n = Some h -> _ |- _ => specialize (H n eq_refl)
    end.
    unfold allOf. repeat split; auto; lia.
  - intros (y & m & d & -> & Hy & Hyl & Hm & Hml & Hd & Hdl).
    change (u "-") with [45%N].
    repeat (apply M_Seq || apply M_Chr || apply M_Rep); auto; try lia;
      try (intros h Hh; inversion Hh; subst; lia).
Qed.

(** X16. The request check: a parameter passes exactly when it is four
    digits, a hyphen, two digits, a hyphen, two digits, with no check of the
    calendar ("2024-13-45" passes).  The handler answers 400 exactly when
    start or end does not pass, whatever the configuration; 500 exactly when
    both pass and WEBTRAC_DETAIL_BASE is unset or empty; and goes on
    otherwise. *)
Theorem checkRequest_spec (start end_ : jsstring)
  (WEBTRAC_DETAIL_BASE : option jsstring) :
  (testWhole re_ymd start = true <-> YmdText start)
  /\ (YmdText start -> length start = 10)
  /\ (checkRequest start end_ WEBTRAC_DETAIL_BASE
      = Some (ErrorReply 400 (u "Provide start and end as YYYY-MM-DD"))
      <-> ~ (YmdText start /\ YmdText end_))
  /\ (checkRequest start end_ WEBTRAC_DETAIL_BASE
      = Some (ErrorReply 500 (u "WEBTRAC_DETAIL_BASE not configured"))
      <-> YmdText start /\ YmdText end_
          /\ (WEBTRAC_DETAIL_BASE = None \/ WEBTRAC_DETAIL_BASE = Some []))
  /\ (checkRequest start end_ WEBTRAC_DETAIL_BASE = None
      <-> YmdText start /\ YmdText end_
          /\ exists b, WEBTRAC_DETAIL_BASE = Some b /\ b <> [])
  /\ checkRequest (u "2024-13-45") (u "2024-01-21") (Some (u "https://x/?a=1"))
     = None
  /\ checkRequest (u "2024-1-15") (u "2024-01-21") None
     = Some (ErrorReply 400 (u "Provide start and end as YYYY-MM-DD")).
Proof.
  assert (Hy : forall s, testWhole re_ymd s = true <-> YmdText s).
  { intros s. rewrite testWhole_spec. apply Matches_ymd. }
  split; [apply Hy|]. split.
  { intros (y & m & d & -> & _ & Hyl & _ & Hml & _ & Hdl).
    rewrite !length_app, Hyl, Hml, Hdl. reflexivity. }
  split; [|split; [|split; [|split; vm_compute; reflexivity]]].
  - unfold checkRequest. rewrite <- !Hy.
    destruct (testWhole re_ymd start), (testWhole re_ymd end_); simpl;
      try (split; [intros _ (H1 & H2); discriminate | reflexivity]).
    destruct (falsy (orEmpty WEBTRAC_DETAIL_BASE));
      (split; [discriminate | intros H; exfalso; apply H; auto]).
  - unfold checkRequest. rewrite <- !Hy.
    destruct (testWhole re_ymd start), (testWhole re_ymd end_); simpl;
      try (split; [discriminate | intros (H1 & H2 & _); discriminate]).
    destruct WEBTRAC_DETAIL_BASE as [[|c b]|]; simpl.
    + split; auto.
    + split; [discriminate|]. intros (_ & _ & [H|H]); discriminate.
    + split; auto.
  - unfold checkRequest. rewrite <- !Hy.
    destruct (testWhole re_ymd start), (testWhole re_ymd end_); simpl;
      try (split; [discriminate | intros (H1 & H2 & _); discriminate]).
    destruct WEBTRAC_DETAIL_BASE as [[|c b]|]; simpl.
    + split; [discriminate|]. intros (_ & _ & b & H & Hb). inversion H; subst.
      contradiction.
    + split; [|reflexivity]. intros _. repeat split; auto.
      exists (c :: b). split; [reflexivity | discriminate].
    + split; [discriminate|]. intros (_ & _ & b & H & _). discriminate.
Qed.

Lemma Matches_times_ts prev w rest :
  Matches re_times_ts prev w rest <-> TimeRangeTs w.
Proof.
  unfold re_times_ts, ws0; simpl. split.
  - intros H.
    repeat match goal with
    | H : Matches (Seq _ _) _ _ _ |- _ => inversion H; subst; clear H
    | H : Matches (Grp _ _) _ _ _ |- _ => inversion H; subst; clear H
    | H : Matches (Chr _) _ _ _ |- _ => inversion H; subst; clear H
    | H : Matches (Rep _ _ _) _ _ _ |- _ => inversion H; subst; clear H
    end.
    repeat match goal with
    | H : Matches re_clock _ _ _ |- _ => apply Matches_clock in H
    end.
    match goal with
    | |- TimeRangeTs (?t1 ++ ?s1 ++ [?c] ++ ?s2 ++ ?t2) => exists t1, s1, c, s2, t2
    end.
    unfold allOf. repeat split; auto.
    unfold isDashTs in *. simpl.
    repeat match goal with
    | H : (_ || _)%bool = true |- _ => apply orb_prop in H; destruct H
    end; neqb; auto.
  - intros (t1 & s1 & c & s2 & t2 & -> & H1 & Hs1 & Hc & Hs2 & H2).
    repeat (apply M_Seq || apply M_Chr || apply M_Rep || apply M_Grp);
      auto; try lia; try discriminate; try (now apply Matches_clock).
    simpl in Hc. unfold isDashTs. intuition (subst; reflexivity).
Qed.

Lemma TimeRangeTs_TimeRange w : TimeRangeTs w -> TimeRange w.
Proof.
  intros (t1 & s1 & c & s2 & t2 & E & H1 & Hs1 & Hc & Hs2 & H2).
  exists t1, s1, c, s2, t2. repeat split; auto.
  simpl in *. tauto.
Qed.

(** X17. The normalizer of the Playwright variant returns a triple exactly
    when the date field holds a date token and the time field (the date
    field, when the time field is empty) holds two clock times separated by
    a hyphen or an en dash.  Whenever it returns, so does the normalizer of
    the cheerio handler; an em dash is accepted by the latter only, and the
    variant returns start and end with the white space of the page. *)
Theorem parseDateTimeTs_spec (dateText timeText : jsstring) :
  ((exists dt, parseDateTimeTs dateText timeText = Some dt) <->
   contains DateToken dateText
   /\ contains TimeRangeTs (orElse timeText dateText))
  /\ ((exists dt, parseDateTimeTs dateText timeText = Some dt) ->
      exists dt', parseDateTime dateText timeText = Some dt')
  /\ parseDateTimeTs (u "01/15/2024") (u "10:00 AM " ++ [8212%N] ++ u " 11:30 AM")
     = None
  /\ (exists dt,
        parseDateTime (u "01/15/2024") (u "10:00 AM " ++ [8212%N] ++ u " 11:30 AM")
        = Some dt)
  /\ (exists dt,
        parseDateTimeTs (u "01/15/2024") (u "10:00  AM - 11:30 AM") = Some dt
        /\ start dt = u "10:00  AM")
  /\ (exists dt,
        parseDateTime (u "01/15/2024") (u "10:00  AM - 11:30 AM") = Some dt
        /\ start dt = u "10:00 AM").
Proof.
  assert (Hiff : (exists dt, parseDateTimeTs dateText timeText = Some dt) <->
                 contains DateToken dateText
                 /\ contains TimeRangeTs (orElse timeText dateText)).
  { unfold parseDateTimeTs.
    rewrite <- (exec_contains re_date DateToken dateText Matches_date_body).
    rewrite <- (exec_contains re_times_ts TimeRangeTs (orElse timeText dateText)
                  Matches_times_ts).
    destruct (exec re_date dateText), (exec re_times_ts (orElse timeText dateText));
      split;
      first [ solve [intros _; split; discriminate]
            | solve [intros _; eauto]
            | solve [intros (dt & H); discriminate]
            | solve [intros (H1 & H2); exfalso; auto] ]. }
  split; [exact Hiff|]. split.
  - intros H. apply Hiff in H as (Hd & pre & w & post & E & Hw).
    apply parseDateTime_some. split; auto.
    exists pre, w, post. split; auto. now apply TimeRangeTs_TimeRange.
  - split; [vm_compute; reflexivity|].
    split; [eexists; vm_compute; reflexivity|].
    split; eexists; split; vm_compute; reflexivity.
Qed.
